(** * basic-server: deterministic arena simulation, codecs and slot assignment

    A shallow embedding of the C++ sources
    [game_state.hpp], [input_state.hpp], [game_simulation.hpp], the
    client and the server of [network_layer.hpp], and the callbacks and
    the simulation loop of [server_main.cpp].

    - C++ [float] is IEEE-754 binary32.  Values are [spec_float]s of the
      standard library's executable specification, instantiated at
      precision 24 and maximal exponent 128, every operation rounding to
      nearest-even.  NaN payloads are identified (one NaN).
    - [uint8_t], [uint16_t], [uint32_t] are [Z] with the wrap-around written
      out; bytes of a buffer are [Z] in [0, 256), little-endian.
    - [std::sin], [std::cos], [std::atan2] are not specified by IEEE-754;
      they are the methods of the class [CMath]. *)

From Stdlib Require Import ZArith Lia List Bool.
From Stdlib Require Import Floats.SpecFloat.
Import ListNotations.
Local Open Scope Z_scope.

(* ------------------------------------------------------------------ *)
(** ** binary32 *)

Module F32.

(** [prec = 24] bits of precision, infinities at exponent [emax = 128]:
    the two parameters every operation below is instantiated at. *)

Definition t := spec_float.

(** The finite members of [spec_float] that are binary32 numbers: the
    mantissa has the canonical number of digits for its exponent. *)
Definition valid (x : t) : bool := valid_binary 24 128 x.

Definition add : t -> t -> t := SFadd 24 128.
Definition sub : t -> t -> t := SFsub 24 128.
Definition mul : t -> t -> t := SFmul 24 128.
Definition div : t -> t -> t := SFdiv 24 128.
Definition sqrt : t -> t := SFsqrt 24 128.
Definition neg : t -> t := SFopp.
Definition abs : t -> t := SFabs.

(** C++ comparison operators; every one is false on a NaN operand,
    except [!=]. *)
Definition ltb (x y : t) : bool := SFltb x y.
Definition leb (x y : t) : bool := SFleb x y.
Definition gtb (x y : t) : bool := SFltb y x.
Definition geb (x y : t) : bool := SFleb y x.
Definition eqb (x y : t) : bool := SFeqb x y.

Definition is_nan (x : t) : bool :=
  match x with S754_nan => true | _ => false end.

Definition is_inf (x : t) : bool :=
  match x with S754_infinity _ => true | _ => false end.

(** The value of an integer literal such as [20.0f]. *)
Definition of_Z (n : Z) : t := binary_normalize 24 128 n 0 false.

(** The correctly rounded quotient of two positive integers: the value of
    a decimal literal such as [0.01f] (= 1/100). *)
Definition of_ratio (p q : positive) : t :=
  let '(m, e, l) := SFdiv_core_binary 24 128 (Zpos p) 0 (Zpos q) 0 in
  binary_round_aux 24 128 false m e l.

Definition zero : t := S754_zero false.
Definition one : t := of_Z 1.

(** *** Object representation (what [memcpy] copies) *)

Definition to_bits (x : t) : Z :=
  match x with
  | S754_zero s => if s then 2 ^ 31 else 0
  | S754_infinity s => (if s then 2 ^ 31 else 0) + 255 * 2 ^ 23
  | S754_nan => 255 * 2 ^ 23 + 2 ^ 22
  | S754_finite s m e =>
      (if s then 2 ^ 31 else 0) +
      (if Zpos m <? 2 ^ 23 then Zpos m
       else (e + 150) * 2 ^ 23 + (Zpos m - 2 ^ 23))
  end.

Definition of_bits (b : Z) : t :=
  let s := Z.odd (b / 2 ^ 31) in
  let ex := (b / 2 ^ 23) mod 256 in
  let mant := b mod 2 ^ 23 in
  if ex =? 0 then
    match mant with
    | Zpos m => S754_finite s m (-149)
    | _ => S754_zero s
    end
  else if ex =? 255 then
    (if mant =? 0 then S754_infinity s else S754_nan)
  else
    match mant + 2 ^ 23 with
    | Zpos m => S754_finite s m (ex - 150)
    | _ => S754_nan
    end.

(** *** Values, for the proofs *)

Definition is_finite (x : t) : bool :=
  match x with
  | S754_finite _ _ _ | S754_zero _ => true
  | _ => false
  end.

(** The value of a finite number in units of [2 ^ -149], the least
    positive binary32 number: an integer for every valid number. *)
Definition ulps (x : t) : Z :=
  match x with
  | S754_finite s m e => cond_Zopp s (Zpos m * 2 ^ (e + 149))
  | _ => 0
  end.

(** The value on an axis on which the infinities are points too. *)
Definition ord (x : t) : Z :=
  match x with
  | S754_infinity s => cond_Zopp s (2 ^ 300)
  | _ => ulps x
  end.

(** The exponent of the numbers of magnitude in [2 ^ (e - 1), 2 ^ e). *)
Definition fexp32 (e : Z) : Z := Z.max (e - 24) (-149).

(** The second half of [binary_round_aux]: the rounded mantissa [Q] is
    renormalised and the overflow test made. *)
Definition finish (sx : bool) (Q e1 : Z) : t :=
  let '(mrs'', e'') := shr_fexp 24 128 Q e1 loc_Exact in
  match shr_m mrs'' with
  | Z0 => S754_zero sx
  | Zpos m => if e'' <=? 104 then S754_finite sx m e'' else S754_infinity sx
  | _ => S754_nan
  end.

(** [r] is what rounding returns for the magnitude [Q * 2 ^ e1] and the
    sign [sx]. *)
Definition rounds_to (sx : bool) (Q e1 : Z) (r : t) : Prop :=
  (Q = 0 /\ r = S754_zero sx)
  \/ (0 < Q /\ r = S754_infinity sx /\ 2 ^ 277 <= Q * 2 ^ (e1 + 149))
  \/ (0 < Q /\ exists m2 e2,
        r = S754_finite sx m2 e2 /\ bounded 24 128 m2 e2 = true
        /\ Zpos m2 * 2 ^ (e2 + 149) = Q * 2 ^ (e1 + 149)).

(** The same with the magnitude [R] in units of [2 ^ -149]. *)
Definition rounded (sx : bool) (R : Z) (r : t) : Prop :=
  (R = 0 /\ r = S754_zero sx)
  \/ (0 < R /\ r = S754_infinity sx /\ 2 ^ 277 <= R)
  \/ (0 < R /\ exists m2 e2,
        r = S754_finite sx m2 e2 /\ bounded 24 128 m2 e2 = true
        /\ Zpos m2 * 2 ^ (e2 + 149) = R).

(** What an addition or a subtraction of two valid finite numbers
    returns, from the exact sum [V] of the operands: a zero for a zero
    sum, else a multiple of the grid step [G] of the target less than one
    step away. *)
Definition sum_rounds_to (V : Z) (r : t) : Prop :=
  (V = 0 -> exists s, r = S754_zero s)
  /\ (V <> 0 ->
      let G := 2 ^ (fexp32 (Zdigits2 (Z.abs V) - 149) + 149) in
      exists R, Z.abs V - G < R <= Z.abs V + G
        /\ (exists Q, R = Q * G)
        /\ rounded (V <? 0) R r).

(** A number with the sign bit [sx] that is not a NaN. *)
Definition signed_as (sx : bool) (r : t) : Prop :=
  r = S754_zero sx \/ r = S754_infinity sx \/ exists m e, r = S754_finite sx m e.

End F32.

(* ------------------------------------------------------------------ *)
(** ** The C math library *)

(** [std::sin], [std::cos] and [std::atan2] on [float]: some functions on
    binary32 values, fixed for a given platform. *)
Class CMath := {
  sinf : F32.t -> F32.t;
  cosf : F32.t -> F32.t;
  atan2f : F32.t -> F32.t -> F32.t
}.

(* ------------------------------------------------------------------ *)
(** ** glm, as far as the sources use it *)

Module glm.

Record vec3 := mkvec3 { x : F32.t; y : F32.t; z : F32.t }.

(** [glm::vec3(s)] *)
Definition splat (s : F32.t) : vec3 := mkvec3 s s s.

Definition add (a b : vec3) : vec3 :=
  mkvec3 (F32.add (x a) (x b)) (F32.add (y a) (y b)) (F32.add (z a) (z b)).

Definition sub (a b : vec3) : vec3 :=
  mkvec3 (F32.sub (x a) (x b)) (F32.sub (y a) (y b)) (F32.sub (z a) (z b)).

(** [v * s] *)
Definition scale (v : vec3) (s : F32.t) : vec3 :=
  mkvec3 (F32.mul (x v) s) (F32.mul (y v) s) (F32.mul (z v) s).

Definition dot (a b : vec3) : F32.t :=
  F32.add (F32.add (F32.mul (x a) (x b)) (F32.mul (y a) (y b)))
          (F32.mul (z a) (z b)).

Definition length (v : vec3) : F32.t := F32.sqrt (dot v v).

Definition inversesqrt (s : F32.t) : F32.t := F32.div F32.one (F32.sqrt s).

Definition normalize (v : vec3) : vec3 := scale v (inversesqrt (dot v v)).

(** [glm::degrees] and [glm::radians] multiply by the binary32 nearest to
    180/pi and to pi/180. *)
Definition deg_per_rad : F32.t :=
  F32.of_ratio 57295779513082320876798154814105 1000000000000000000000000000000.
Definition rad_per_deg : F32.t :=
  F32.of_ratio 1745329251994329576923690768489 100000000000000000000000000000000.

Definition degrees (r : F32.t) : F32.t := F32.mul r deg_per_rad.
Definition radians (d : F32.t) : F32.t := F32.mul d rad_per_deg.

End glm.

(** [std::clamp(v, lo, hi)]: [(v < lo) ? lo : (hi < v) ? hi : v]. *)
Definition clamp (v lo hi : F32.t) : F32.t :=
  if F32.ltb v lo then lo else if F32.ltb hi v then hi else v.

(* ------------------------------------------------------------------ *)
(** ** Buffers *)

Module Bytes.

(** The [n] little-endian bytes of [v]: [memcpy] out of an unsigned
    integer object of [n] bytes. *)
Fixpoint le (n : nat) (v : Z) : list Z :=
  match n with
  | O => []
  | S k => v mod 256 :: le k (v / 256)
  end.

(** [memcpy] into an unsigned integer object. *)
Fixpoint join (bs : list Z) : Z :=
  match bs with
  | [] => 0
  | b :: r => b + 256 * join r
  end.

Definition of_bool (b : bool) : Z := if b then 1 else 0.
Definition to_bool (v : Z) : bool := negb (v =? 0).

Definition of_f32 (v : F32.t) : list Z := le 4 (F32.to_bits v).
Definition to_f32 (bs : list Z) : F32.t := F32.of_bits (join bs).

(** [n] bytes of [buffer] from [offset] on; [None] when they are not all
    inside the buffer (the read is undefined in C++). *)
Definition slice (buffer : list Z) (offset n : nat) : option (list Z) :=
  let bs := firstn n (skipn offset buffer) in
  if Nat.eqb (List.length bs) n then Some bs else None.

(** A reader advances an offset over a buffer, or fails. *)
Definition Reader (A : Type) : Type := list Z -> nat -> option (A * nat).

Definition ret {A} (a : A) : Reader A := fun _ off => Some (a, off).

Definition bind {A B} (r : Reader A) (k : A -> Reader B) : Reader B :=
  fun buf off =>
    match r buf off with
    | Some (a, off') => k a buf off'
    | None => None
    end.

Definition read (n : nat) : Reader (list Z) :=
  fun buf off =>
    match slice buf off n with
    | Some bs => Some (bs, (off + n)%nat)
    | None => None
    end.

Definition read_f32 : Reader F32.t := bind (read 4) (fun bs => ret (to_f32 bs)).
Definition read_u8 : Reader Z := bind (read 1) (fun bs => ret (join bs)).
Definition read_u16 : Reader Z := bind (read 2) (fun bs => ret (join bs)).
Definition read_u32 : Reader Z := bind (read 4) (fun bs => ret (join bs)).
Definition read_bool : Reader bool := bind (read 1) (fun bs => ret (to_bool (join bs))).

Definition read_vec3 : Reader glm.vec3 :=
  bind read_f32 (fun a => bind read_f32 (fun b => bind read_f32 (fun c =>
    ret (glm.mkvec3 a b c)))).

Definition of_vec3 (v : glm.vec3) : list Z :=
  of_f32 (glm.x v) ++ of_f32 (glm.y v) ++ of_f32 (glm.z v).

End Bytes.

Notation "x <- r ;; k" := (Bytes.bind r (fun x => k))
  (at level 61, r at next level, right associativity).

(* ------------------------------------------------------------------ *)
(** ** game_state.hpp *)

Module GameConstants.
Definition STARTING_HP : F32.t := F32.of_Z 100.
Definition PROJECTILE_DAMAGE : F32.t := F32.of_Z 10.
Definition PROJECTILE_SPEED : F32.t := F32.of_Z 20.
Definition PROJECTILE_COOLDOWN : F32.t := F32.of_ratio 1 2.
Definition PLAYER_SPEED : F32.t := F32.of_Z 5.
Definition ROUND_TIME : F32.t := F32.of_Z 99.
End GameConstants.

Module ProjectileState.

Record t := mk {
  position : glm.vec3;
  velocity : glm.vec3;
  ownerID : Z;          (* uint8_t *)
  damage : F32.t;
  active : bool
}.

Definition Serialize (p : t) : list Z :=
  Bytes.of_vec3 (position p) ++ Bytes.of_vec3 (velocity p) ++
  Bytes.le 1 (ownerID p) ++ Bytes.of_f32 (damage p) ++
  [Bytes.of_bool (active p)].

Definition Deserialize : Bytes.Reader t :=
  pos <- Bytes.read_vec3 ;;
  vel <- Bytes.read_vec3 ;;
  own <- Bytes.read_u8 ;;
  dmg <- Bytes.read_f32 ;;
  act <- Bytes.read_bool ;;
  Bytes.ret (mk pos vel own dmg act).

Definition SerializedSize : nat := 12 * 2 + 1 + 4 + 1.

Definition set_position (p : t) (v : glm.vec3) : t :=
  mk v (velocity p) (ownerID p) (damage p) (active p).
Definition set_active (p : t) (b : bool) : t :=
  mk (position p) (velocity p) (ownerID p) (damage p) b.

End ProjectileState.

Module PlayerState.

Record t := mk {
  position : glm.vec3;
  velocity : glm.vec3;
  facingAngle : F32.t;
  hp : F32.t;
  projectileCooldown : F32.t;
  roundWins : Z;        (* uint8_t *)
  alive : bool
}.

(** A default-constructed player. *)
Definition init : t :=
  mk (glm.splat F32.zero) (glm.splat F32.zero) F32.zero
     GameConstants.STARTING_HP F32.zero 0 true.

Definition Serialize (p : t) : list Z :=
  Bytes.of_vec3 (position p) ++ Bytes.of_vec3 (velocity p) ++
  Bytes.of_f32 (facingAngle p) ++ Bytes.of_f32 (hp p) ++
  Bytes.of_f32 (projectileCooldown p) ++
  Bytes.le 1 (roundWins p) ++ [Bytes.of_bool (alive p)].

Definition Deserialize : Bytes.Reader t :=
  pos <- Bytes.read_vec3 ;;
  vel <- Bytes.read_vec3 ;;
  ang <- Bytes.read_f32 ;;
  h <- Bytes.read_f32 ;;
  cd <- Bytes.read_f32 ;;
  w <- Bytes.read_u8 ;;
  a <- Bytes.read_bool ;;
  Bytes.ret (mk pos vel ang h cd w a).

Definition SerializedSize : nat := 12 * 2 + 4 * 3 + 1 + 1.

Definition set_position (p : t) (v : glm.vec3) : t :=
  mk v (velocity p) (facingAngle p) (hp p) (projectileCooldown p) (roundWins p) (alive p).
Definition set_velocity (p : t) (v : glm.vec3) : t :=
  mk (position p) v (facingAngle p) (hp p) (projectileCooldown p) (roundWins p) (alive p).
Definition set_facingAngle (p : t) (a : F32.t) : t :=
  mk (position p) (velocity p) a (hp p) (projectileCooldown p) (roundWins p) (alive p).
Definition set_hp (p : t) (h : F32.t) : t :=
  mk (position p) (velocity p) (facingAngle p) h (projectileCooldown p) (roundWins p) (alive p).
Definition set_projectileCooldown (p : t) (c : F32.t) : t :=
  mk (position p) (velocity p) (facingAngle p) (hp p) c (roundWins p) (alive p).
Definition set_roundWins (p : t) (w : Z) : t :=
  mk (position p) (velocity p) (facingAngle p) (hp p) (projectileCooldown p) w (alive p).
Definition set_alive (p : t) (a : bool) : t :=
  mk (position p) (velocity p) (facingAngle p) (hp p) (projectileCooldown p) (roundWins p) a.

End PlayerState.

(** The index of [players[2]]; [index_Z] is the [int] the loops count with. *)
Inductive PlayerIndex := Player0 | Player1.

Definition index_Z (i : PlayerIndex) : Z :=
  match i with Player0 => 0 | Player1 => 1 end.

(** [1 - i] *)
Definition other (i : PlayerIndex) : PlayerIndex :=
  match i with Player0 => Player1 | Player1 => Player0 end.

Module GameState.

Record t := mk {
  players : PlayerState.t * PlayerState.t;
  projectiles : list ProjectileState.t;
  frameNumber : Z;      (* uint32_t *)
  roundTimer : F32.t;
  currentRound : Z      (* uint8_t *)
}.

Definition player (s : t) (i : PlayerIndex) : PlayerState.t :=
  match i with Player0 => fst (players s) | Player1 => snd (players s) end.

Definition set_players (s : t) (ps : PlayerState.t * PlayerState.t) : t :=
  mk ps (projectiles s) (frameNumber s) (roundTimer s) (currentRound s).

Definition set_player (s : t) (i : PlayerIndex) (p : PlayerState.t) : t :=
  set_players s
    match i with
    | Player0 => (p, snd (players s))
    | Player1 => (fst (players s), p)
    end.

Definition set_projectiles (s : t) (l : list ProjectileState.t) : t :=
  mk (players s) l (frameNumber s) (roundTimer s) (currentRound s).
Definition set_frameNumber (s : t) (n : Z) : t :=
  mk (players s) (projectiles s) n (roundTimer s) (currentRound s).
Definition set_roundTimer (s : t) (r : F32.t) : t :=
  mk (players s) (projectiles s) (frameNumber s) r (currentRound s).
Definition set_currentRound (s : t) (r : Z) : t :=
  mk (players s) (projectiles s) (frameNumber s) (roundTimer s) r.

(** A default-constructed state. *)
Definition init : t :=
  mk (PlayerState.init, PlayerState.init) [] 0 GameConstants.ROUND_TIME 1.

Definition reset_player (i : PlayerIndex) (p : PlayerState.t) : PlayerState.t :=
  PlayerState.mk
    (match i with
     | Player0 => glm.mkvec3 (F32.of_Z (-5)) F32.zero F32.zero
     | Player1 => glm.mkvec3 (F32.of_Z 5) F32.zero F32.zero
     end)
    (glm.splat F32.zero)
    (match i with Player0 => F32.zero | Player1 => F32.of_Z 180 end)
    GameConstants.STARTING_HP
    F32.zero
    (PlayerState.roundWins p)
    true.

Definition ResetRound (s : t) : t :=
  mk (reset_player Player0 (fst (players s)), reset_player Player1 (snd (players s)))
     [] (frameNumber s) GameConstants.ROUND_TIME (currentRound s).

Definition ResetMatch (s : t) : t :=
  let s1 := set_players s (PlayerState.set_roundWins (fst (players s)) 0,
                           PlayerState.set_roundWins (snd (players s)) 0) in
  let s2 := set_currentRound s1 1 in
  let s3 := ResetRound s2 in
  set_frameNumber s3 0.

(** [Serialize]: the bytes written to [buffer]; [outSize] is their
    number. *)
Definition Serialize (s : t) : list Z :=
  PlayerState.Serialize (fst (players s)) ++
  PlayerState.Serialize (snd (players s)) ++
  Bytes.le 2 (Z.of_nat (List.length (projectiles s)) mod 65536) ++
  flat_map ProjectileState.Serialize (projectiles s) ++
  Bytes.le 4 (frameNumber s) ++
  Bytes.of_f32 (roundTimer s) ++
  Bytes.le 1 (currentRound s).

Fixpoint read_projectiles (n : nat) : Bytes.Reader (list ProjectileState.t) :=
  match n with
  | O => Bytes.ret []
  | S k =>
      p <- ProjectileState.Deserialize ;;
      r <- read_projectiles k ;;
      Bytes.ret (p :: r)
  end.

(** [Deserialize(buffer, size)]: [size] is not looked at; every field of
    the object is overwritten. *)
Definition Deserialize : Bytes.Reader t :=
  p0 <- PlayerState.Deserialize ;;
  p1 <- PlayerState.Deserialize ;;
  projCount <- Bytes.read_u16 ;;
  projs <- read_projectiles (Z.to_nat projCount) ;;
  fn <- Bytes.read_u32 ;;
  rt <- Bytes.read_f32 ;;
  cr <- Bytes.read_u8 ;;
  Bytes.ret (mk (p0, p1) projs fn rt cr).

Definition decode (buffer : list Z) : option t :=
  match Deserialize buffer O with
  | Some (s, _) => Some s
  | None => None
  end.

Definition MaxSerializedSize (s : t) : nat :=
  PlayerState.SerializedSize * 2 + 2 +
  ProjectileState.SerializedSize * List.length (projectiles s) + 4 + 4 + 1.

End GameState.

(* ------------------------------------------------------------------ *)
(** ** input_state.hpp *)

Module InputState.

Record t := mk {
  moveX : F32.t;
  moveY : F32.t;
  throwProjectile : bool;
  frameNumber : Z       (* uint32_t *)
}.

(** A default-constructed input. *)
Definition init : t := mk F32.zero F32.zero false 0.

Definition Serialize (i : t) : list Z :=
  Bytes.of_f32 (moveX i) ++
  Bytes.of_f32 (moveY i) ++
  [Z.lor 0 (if throwProjectile i then 1 else 0)] ++
  Bytes.le 4 (frameNumber i).

(** [Deserialize(buffer, size)] with [size] the length of [buffer], as
    the callers pass it.  The four guarded reads, one after the other,
    each at the offset the reads before it have reached. *)
Definition Deserialize (self : t) (buffer : list Z) : t :=
  let size := List.length buffer in
  let offset := O in
  let '(self, offset) :=
    if Nat.leb (offset + 4) size
    then (mk (Bytes.to_f32 (firstn 4 (skipn offset buffer)))
             (moveY self) (throwProjectile self) (frameNumber self),
          (offset + 4)%nat)
    else (self, offset) in
  let '(self, offset) :=
    if Nat.leb (offset + 4) size
    then (mk (moveX self)
             (Bytes.to_f32 (firstn 4 (skipn offset buffer)))
             (throwProjectile self) (frameNumber self),
          (offset + 4)%nat)
    else (self, offset) in
  let '(self, offset) :=
    if Nat.leb (offset + 1) size
    then
      let buttons := Bytes.join (firstn 1 (skipn offset buffer)) in
      (mk (moveX self) (moveY self)
          (negb (Z.land buttons 1 =? 0)) (frameNumber self),
       (offset + 1)%nat)
    else (self, offset) in
  let '(self, offset) :=
    if Nat.leb (offset + 4) size
    then (mk (moveX self) (moveY self) (throwProjectile self)
             (Bytes.join (firstn 4 (skipn offset buffer))),
          (offset + 4)%nat)
    else (self, offset) in
  self.

Definition SerializedSize : nat := 4 * 2 + 1 + 4.

(** [operator==] *)
Definition eqb (a b : t) : bool :=
  F32.eqb (moveX a) (moveX b) &&
  F32.eqb (moveY a) (moveY b) &&
  Bool.eqb (throwProjectile a) (throwProjectile b) &&
  (frameNumber a =? frameNumber b).

(** [operator!=] *)
Definition neqb (a b : t) : bool := negb (eqb a b).

End InputState.

(** *** The GLFW helpers *)

Module GLFW.

(** What [glfwGetGamepadState] fills in, as far as it is read: the two
    axes of the left stick, and whether button A is [GLFW_PRESS]. *)
Record GLFWgamepadstate := mk_gamepad {
  AXIS_LEFT_X : F32.t;
  AXIS_LEFT_Y : F32.t;
  BUTTON_A : bool
}.

(** What [glfwGetKey] answers for the five keys read: [true] for
    [GLFW_PRESS]. *)
Record Keys := mk_keys {
  KEY_W : bool;
  KEY_S : bool;
  KEY_A : bool;
  KEY_D : bool;
  KEY_SPACE : bool
}.

End GLFW.

(** The default argument [deadzone = 0.05f]. *)
Definition default_deadzone : F32.t := F32.of_ratio 1 20.

(** [GetInputStateFromGamepad]; [gamepad] is what [glfwGetGamepadState]
    answers for [gamepadId], [None] when it returns false. *)
Definition GetInputStateFromGamepad (gamepad : option GLFW.GLFWgamepadstate)
    (frameNumber : Z) (deadzone : F32.t) : InputState.t :=
  let input :=
    InputState.mk (InputState.moveX InputState.init)
                  (InputState.moveY InputState.init)
                  (InputState.throwProjectile InputState.init)
                  frameNumber in
  match gamepad with
  | Some state =>
      let lx := GLFW.AXIS_LEFT_X state in
      let ly := GLFW.AXIS_LEFT_Y state in
      let lx := if F32.ltb (F32.abs lx) deadzone then F32.zero else lx in
      let ly := if F32.ltb (F32.abs ly) deadzone then F32.zero else ly in
      InputState.mk lx ly (GLFW.BUTTON_A state) (InputState.frameNumber input)
  | None => input
  end.

(** [GetInputStateFromKeyboard]; [window] is what [glfwGetKey] answers
    for the keys of the window. *)
Definition GetInputStateFromKeyboard (window : GLFW.Keys) (frameNumber : Z)
    : InputState.t :=
  let moveX := F32.zero in
  let moveY := F32.zero in
  let moveY := if GLFW.KEY_W window then F32.sub moveY F32.one else moveY in
  let moveY := if GLFW.KEY_S window then F32.add moveY F32.one else moveY in
  let moveX := if GLFW.KEY_A window then F32.sub moveX F32.one else moveX in
  let moveX := if GLFW.KEY_D window then F32.add moveX F32.one else moveX in
  let '(moveX, moveY) :=
    if negb (F32.eqb moveX F32.zero) && negb (F32.eqb moveY F32.zero) then
      let len :=
        F32.sqrt (F32.add (F32.mul moveX moveX) (F32.mul moveY moveY)) in
      (F32.div moveX len, F32.div moveY len)
    else (moveX, moveY) in
  InputState.mk moveX moveY (GLFW.KEY_SPACE window) frameNumber.

(* ------------------------------------------------------------------ *)
(** ** game_simulation.hpp *)

Module GameSimulation.

(** The engine object: its only data member. *)
Record t := mk { prevThrowPressed : bool * bool }.

Definition init : t := mk (false, false).

Definition FIXED_DT : F32.t := F32.div (F32.of_Z 1) (F32.of_Z 60).
Definition ARENA_HALF_SIZE : F32.t := F32.of_Z 20.
Definition PROJECTILE_RADIUS : F32.t := F32.of_ratio 1 2.
Definition PLAYER_RADIUS : F32.t := F32.of_Z 1.

Definition Players : Type := (PlayerState.t * PlayerState.t)%type.

Definition get (ps : Players) (i : PlayerIndex) : PlayerState.t :=
  match i with Player0 => fst ps | Player1 => snd ps end.

Definition set (ps : Players) (i : PlayerIndex) (p : PlayerState.t) : Players :=
  match i with Player0 => (p, snd ps) | Player1 => (fst ps, p) end.

Section Engine.
Context `{CMath}.

(** The member functions take the engine as [this]; none of them reads
    or writes [prevThrowPressed]. *)

Definition UpdatePlayer (this : t) (player : PlayerState.t)
    (input : InputState.t) (playerIndex : PlayerIndex) : PlayerState.t :=
  if negb (PlayerState.alive player) then player else
  let moveDir :=
    glm.mkvec3 (InputState.moveX input) F32.zero (InputState.moveY input) in
  let moveLen := glm.length moveDir in
  let player :=
    if F32.gtb moveLen (F32.of_ratio 1 100) then
      let moveDir :=
        glm.scale (glm.scale (glm.normalize moveDir) GameConstants.PLAYER_SPEED)
                  FIXED_DT in
      let player :=
        PlayerState.set_position player
          (glm.add (PlayerState.position player) moveDir) in
      PlayerState.set_facingAngle player
        (glm.degrees (atan2f (InputState.moveX input)
                             (F32.neg (InputState.moveY input))))
    else player in
  let player :=
    let pos := PlayerState.position player in
    PlayerState.set_position player
      (glm.mkvec3
         (clamp (glm.x pos) (F32.neg ARENA_HALF_SIZE) ARENA_HALF_SIZE)
         (glm.y pos) (glm.z pos)) in
  let player :=
    let pos := PlayerState.position player in
    PlayerState.set_position player
      (glm.mkvec3 (glm.x pos) (glm.y pos)
         (clamp (glm.z pos) (F32.neg ARENA_HALF_SIZE) ARENA_HALF_SIZE)) in
  if F32.gtb (PlayerState.projectileCooldown player) F32.zero then
    let player :=
      PlayerState.set_projectileCooldown player
        (F32.sub (PlayerState.projectileCooldown player) FIXED_DT) in
    if F32.ltb (PlayerState.projectileCooldown player) F32.zero
    then PlayerState.set_projectileCooldown player F32.zero
    else player
  else player.

(** One pass of the loop that moves the projectiles. *)
Definition move_projectile (proj : ProjectileState.t) : ProjectileState.t :=
  if negb (ProjectileState.active proj) then proj else
  let proj :=
    ProjectileState.set_position proj
      (glm.add (ProjectileState.position proj)
               (glm.scale (ProjectileState.velocity proj) FIXED_DT)) in
  let bound := F32.add ARENA_HALF_SIZE (F32.of_Z 5) in
  if F32.gtb (F32.abs (glm.x (ProjectileState.position proj))) bound
     || F32.gtb (F32.abs (glm.z (ProjectileState.position proj))) bound
  then ProjectileState.set_active proj false
  else proj.

Definition UpdateProjectiles (this : t) (state : GameState.t) : GameState.t :=
  GameState.set_projectiles state
    (filter ProjectileState.active
            (map move_projectile (GameState.projectiles state))).

(** What a hit does to the player: the damage, and death at [hp <= 0]. *)
Definition apply_hit (p : PlayerState.t) (proj : ProjectileState.t)
    : PlayerState.t :=
  let p :=
    PlayerState.set_hp p
      (F32.sub (PlayerState.hp p) (ProjectileState.damage proj)) in
  if F32.leb (PlayerState.hp p) F32.zero
  then PlayerState.set_alive (PlayerState.set_hp p F32.zero) false
  else p.

(** The inner loop of [CheckCollisions] over the players still to
    test; returning without the recursive call is the [break]. *)
Fixpoint hit_scan (todo : list PlayerIndex) (ps : Players)
    (proj : ProjectileState.t) : Players * ProjectileState.t :=
  match todo with
  | [] => (ps, proj)
  | i :: rest =>
      if ProjectileState.ownerID proj =? index_Z i then hit_scan rest ps proj
      else if negb (PlayerState.alive (get ps i)) then hit_scan rest ps proj
      else
        let diff :=
          glm.sub (ProjectileState.position proj)
                  (PlayerState.position (get ps i)) in
        let dist := glm.length diff in
        if F32.ltb dist (F32.add PROJECTILE_RADIUS PLAYER_RADIUS) then
          (set ps i (apply_hit (get ps i) proj),
           ProjectileState.set_active proj false)
        else hit_scan rest ps proj
  end.

(** The outer loop, over the projectiles in order. *)
Fixpoint collide (ps : Players) (projs : list ProjectileState.t)
    : Players * list ProjectileState.t :=
  match projs with
  | [] => (ps, [])
  | proj :: rest =>
      let '(ps1, proj1) :=
        if negb (ProjectileState.active proj) then (ps, proj)
        else hit_scan [Player0; Player1] ps proj in
      let '(ps2, rest2) := collide ps1 rest in
      (ps2, proj1 :: rest2)
  end.

Definition CheckCollisions (this : t) (state : GameState.t) : GameState.t :=
  let '(ps, projs) :=
    collide (GameState.players state) (GameState.projectiles state) in
  GameState.set_projectiles (GameState.set_players state ps) projs.

(** [players[i].roundWins++] on a [uint8_t]. *)
Definition incr_roundWins (state : GameState.t) (i : PlayerIndex) : GameState.t :=
  let p := GameState.player state i in
  GameState.set_player state i
    (PlayerState.set_roundWins p ((PlayerState.roundWins p + 1) mod 256)).

(** The first player that is not alive: [deadPlayer], with [None] for
    [-1]. *)
Definition deadPlayer (state : GameState.t) : option PlayerIndex :=
  if negb (PlayerState.alive (GameState.player state Player0)) then Some Player0
  else if negb (PlayerState.alive (GameState.player state Player1)) then Some Player1
  else None.

Definition CheckWinConditions (this : t) (state : GameState.t) : GameState.t :=
  let timeout := F32.leb (GameState.roundTimer state) F32.zero in
  match deadPlayer state with
  | Some d =>
      let winner := other d in
      incr_roundWins state winner
  | None =>
      if timeout then
        let hp0 := PlayerState.hp (GameState.player state Player0) in
        let hp1 := PlayerState.hp (GameState.player state Player1) in
        if F32.gtb hp0 hp1 then incr_roundWins state Player0
        else if F32.gtb hp1 hp0 then incr_roundWins state Player1
        else state
      else state
  end.

(** [Update]: the engine after the call and the state returned. *)
Definition Update (this : t) (current : GameState.t)
    (p1Input p2Input : InputState.t) : t * GameState.t :=
  let next := current in
  let next :=
    GameState.set_frameNumber next ((GameState.frameNumber next + 1) mod 2 ^ 32) in
  let next :=
    GameState.set_roundTimer next (F32.sub (GameState.roundTimer next) FIXED_DT) in
  let next :=
    if F32.ltb (GameState.roundTimer next) F32.zero
    then GameState.set_roundTimer next F32.zero
    else next in
  let next :=
    GameState.set_player next Player0
      (UpdatePlayer this (GameState.player next Player0) p1Input Player0) in
  let next :=
    GameState.set_player next Player1
      (UpdatePlayer this (GameState.player next Player1) p2Input Player1) in
  let next := UpdateProjectiles this next in
  let next := CheckCollisions this next in
  let next := CheckWinConditions this next in
  (this, next).

(** The state [Update] returns. *)
Definition step (this : t) (s : GameState.t) (i0 i1 : InputState.t) : GameState.t :=
  snd (Update this s i0 i1).

(** [Update] called once for every pair of inputs, each call on the
    engine and the state the call before it left. *)
Fixpoint run (this : t) (s : GameState.t)
    (inputs : list (InputState.t * InputState.t)) : t * GameState.t :=
  match inputs with
  | [] => (this, s)
  | (i0, i1) :: rest =>
      let '(this', s') := Update this s i0 i1 in
      run this' s' rest
  end.

Definition SaveState (this : t) (state : GameState.t) : GameState.t := state.

Definition RestoreState (this : t) (target saved : GameState.t) : GameState.t :=
  saved.

Definition SpawnProjectile (state : GameState.t) (playerIndex : PlayerIndex)
    : GameState.t :=
  let player := GameState.player state playerIndex in
  if F32.gtb (PlayerState.projectileCooldown player) F32.zero
     || negb (PlayerState.alive player)
  then state
  else
    let angleRad := glm.radians (PlayerState.facingAngle player) in
    let dir := glm.mkvec3 (sinf angleRad) F32.zero (F32.neg (cosf angleRad)) in
    let proj :=
      ProjectileState.mk
        (glm.add (PlayerState.position player)
           (glm.scale dir
              (F32.add (F32.add PLAYER_RADIUS PROJECTILE_RADIUS)
                       (F32.of_ratio 1 10))))
        (glm.scale dir GameConstants.PROJECTILE_SPEED)
        (index_Z playerIndex mod 256)
        GameConstants.PROJECTILE_DAMAGE
        true in
    let state :=
      GameState.set_projectiles state (GameState.projectiles state ++ [proj]) in
    GameState.set_player state playerIndex
      (PlayerState.set_projectileCooldown
         (GameState.player state playerIndex)
         GameConstants.PROJECTILE_COOLDOWN).

Definition CanShoot (player : PlayerState.t) : bool :=
  PlayerState.alive player
  && F32.leb (PlayerState.projectileCooldown player) F32.zero.

End Engine.

End GameSimulation.

(* ------------------------------------------------------------------ *)
(** ** network_layer.hpp: the server's connection handling *)

Inductive ConnectionState := DISCONNECTED | CONNECTING | CONNECTED | FAILED.

Module NetPacketType.
Definition INPUT : Z := 1.
Definition GAME_STATE : Z := 2.
Definition PLAYER_JOINED : Z := 3.
Definition GAME_START : Z := 4.
Definition ROUND_END : Z := 5.
Definition MATCH_END : Z := 6.
End NetPacketType.

Module ServerNetwork.

(** An [ENetPeer*] that is not null. *)
Definition Peer : Type := nat.

(** What ENet reports through [enet_host_service]. *)
Inductive ENetEvent :=
| CONNECT (peer : Peer)
| RECEIVE (peer : Peer) (data : list Z)
| DISCONNECT (peer : Peer)
| NONE.

(** What the server does to the outside: packets handed to
    [enet_peer_send], [enet_peer_disconnect], and the callbacks it
    invokes when they are set. *)
Inductive Action :=
| Send (to : Peer) (packet : list Z)
| PeerDisconnect (p : Peer)
| OnPlayerJoined (slot : Z)
| OnGameStart
| OnInputReceived (input : InputState.t) (playerIndex : Z)
| OnDisconnected (playerIndex : Z).

Record t := mk {
  peers : option Peer * option Peer;
  pendingInputs : list InputState.t * list InputState.t
}.

Definition init : t := mk (None, None) ([], []).

Definition peer_at (s : t) (i : PlayerIndex) : option Peer :=
  match i with Player0 => fst (peers s) | Player1 => snd (peers s) end.

Definition set_peer (s : t) (i : PlayerIndex) (p : option Peer) : t :=
  mk match i with
     | Player0 => (p, snd (peers s))
     | Player1 => (fst (peers s), p)
     end
     (pendingInputs s).

Definition queue_at (s : t) (i : PlayerIndex) : list InputState.t :=
  match i with Player0 => fst (pendingInputs s) | Player1 => snd (pendingInputs s) end.

Definition set_queue (s : t) (i : PlayerIndex) (q : list InputState.t) : t :=
  mk (peers s)
     match i with
     | Player0 => (q, snd (pendingInputs s))
     | Player1 => (fst (pendingInputs s), q)
     end.

Definition occupied (s : t) (i : PlayerIndex) : bool :=
  match peer_at s i with Some _ => true | None => false end.

Definition HasBothPlayers (s : t) : bool :=
  occupied s Player0 && occupied s Player1.

Section Handler.
(** [peer->state == ENET_PEER_STATE_DISCONNECTED], as ENet has it when
    the event is handled. *)
Variable disconnected : Peer -> bool.

(** One pass of the clean-up loop of the [CONNECT] case. *)
Definition reap (s : t) (i : PlayerIndex) : t :=
  match peer_at s i with
  | Some p =>
      if disconnected p then set_queue (set_peer s i None) i [] else s
  | None => s
  end.

(** The search for an empty slot: the slot found and the server with
    the peer stored there. *)
Definition find_slot (s : t) (peer : Peer) : option PlayerIndex * t :=
  match peer_at s Player0 with
  | None => (Some Player0, set_peer s Player0 (Some peer))
  | Some _ =>
      match peer_at s Player1 with
      | None => (Some Player1, set_peer s Player1 (Some peer))
      | Some _ => (None, s)
      end
  end.

Definition broadcast_start (s : t) : list Action :=
  match peers s with
  | (Some a, Some b) =>
      [Send a [NetPacketType.GAME_START];
       Send b [NetPacketType.GAME_START];
       OnGameStart]
  | _ => []
  end.

Definition on_connect (s : t) (peer : Peer) : t * list Action :=
  let s := reap s Player0 in
  let s := reap s Player1 in
  let '(slot, s) := find_slot s peer in
  match slot with
  | Some i =>
      (s,
       [Send peer [NetPacketType.PLAYER_JOINED; index_Z i mod 256];
        OnPlayerJoined (index_Z i)]
       ++ broadcast_start s)
  | None => (s, [PeerDisconnect peer])
  end.

(** The slot of a peer: the loops [if (peers[i] == peer)]. *)
Definition slot_of (s : t) (peer : Peer) : option PlayerIndex :=
  match peer_at s Player0 with
  | Some p => if Nat.eqb p peer then Some Player0 else
      match peer_at s Player1 with
      | Some q => if Nat.eqb q peer then Some Player1 else None
      | None => None
      end
  | None =>
      match peer_at s Player1 with
      | Some q => if Nat.eqb q peer then Some Player1 else None
      | None => None
      end
  end.

Definition ProcessPacket (s : t) (peer : Peer) (data : list Z) : t * list Action :=
  match data with
  | [] => (s, [])
  | tag :: payload =>
      match slot_of s peer with
      | None => (s, [])
      | Some i =>
          if tag =? NetPacketType.INPUT then
            let input := InputState.Deserialize InputState.init payload in
            (set_queue s i (queue_at s i ++ [input]),
             [OnInputReceived input (index_Z i)])
          else (s, [])
      end
  end.

Definition on_disconnect (s : t) (peer : Peer) : t * list Action :=
  match slot_of s peer with
  | Some i => (set_peer s i None, [OnDisconnected (index_Z i)])
  | None => (s, [])
  end.

Definition handle (s : t) (ev : ENetEvent) : t * list Action :=
  match ev with
  | CONNECT peer => on_connect s peer
  | RECEIVE peer data => ProcessPacket s peer data
  | DISCONNECT peer => on_disconnect s peer
  | NONE => (s, [])
  end.

End Handler.

(** [Update]: the events ENet delivers, each with ENet's peer states at
    that time, handled in order. *)
Fixpoint Update (s : t) (evs : list ((Peer -> bool) * ENetEvent))
    : t * list Action :=
  match evs with
  | [] => (s, [])
  | (d, ev) :: rest =>
      let '(s1, a1) := handle d s ev in
      let '(s2, a2) := Update s1 rest in
      (s2, a1 ++ a2)
  end.

Definition count_occupied (s : t) : nat :=
  (if occupied s Player0 then 1 else 0) + (if occupied s Player1 then 1 else 0).

(** [GetPendingInput(playerIndex, outInput)]: the value returned,
    [outInput] after the call, and the server after it. *)
Definition GetPendingInput (s : t) (playerIndex : Z) (outInput : InputState.t)
    : bool * InputState.t * t :=
  if (playerIndex <? 0) || (1 <? playerIndex) then (false, outInput, s)
  else
    let i := if playerIndex =? 0 then Player0 else Player1 in
    match queue_at s i with
    | [] => (false, outInput, s)
    | front :: rest => (true, front, set_queue s i rest)
    end.

(** The object with its two other members: whether [server] is not
    null, and [state]. *)
Record object := mk_object {
  server : bool;
  state : ConnectionState;
  members : t
}.

Definition new : object := mk_object false DISCONNECTED init.

(** [Connect]; [host] tells whether [enet_host_create] returned a
    host. *)
Definition Connect (self : object) (host : bool) : bool * object :=
  if negb host then (false, mk_object false (state self) (members self))
  else (true, mk_object true CONNECTED (members self)).

(** [Disconnect]: the peers are asked to disconnect and the slots
    emptied; the queues of inputs stay. *)
Definition Disconnect (self : object) : object * list Action :=
  let s := members self in
  let a0 :=
    match peer_at s Player0 with Some p => [PeerDisconnect p] | None => [] end in
  let s := set_peer s Player0 None in
  let a1 :=
    match peer_at s Player1 with Some p => [PeerDisconnect p] | None => [] end in
  let s := set_peer s Player1 None in
  (mk_object false DISCONNECTED s, a0 ++ a1).

(** [SendGameState]: one packet, the tag and the serialized state, to
    every slot that holds a peer. *)
Definition SendGameState (self : object) (gameState : GameState.t)
    : list Action :=
  match state self with
  | CONNECTED =>
      let buffer := NetPacketType.GAME_STATE :: GameState.Serialize gameState in
      let to i :=
        match peer_at (members self) i with
        | Some p => [Send p buffer]
        | None => []
        end in
      to Player0 ++ to Player1
  | _ => []
  end.

End ServerNetwork.

(** *** The client *)

Module ClientNetwork.

(** What the client does to the outside: packets handed to
    [enet_peer_send], [enet_peer_disconnect], and the callbacks it
    invokes when they are set. *)
Inductive Action :=
| Send (to : ServerNetwork.Peer) (packet : list Z)
| PeerDisconnect (p : ServerNetwork.Peer)
| OnGameStateReceived (gameState : GameState.t)
| OnPlayerJoined (playerIndex : Z)
| OnGameStart
| OnRoundEnd (winner : Z)
| OnMatchEnd (winner : Z)
| OnDisconnected (playerIndex : Z).

Record t := mk {
  client : bool;                       (* client != nullptr *)
  peer : option ServerNetwork.Peer;
  state : ConnectionState;
  localPlayerIndex : Z                 (* int *)
}.

Definition new : t := mk false None DISCONNECTED 0.

(** [Connect]; [host] tells whether [enet_host_create] returned a host,
    [connection] is what [enet_host_connect] returned. *)
Definition Connect (self : t) (host : bool)
    (connection : option ServerNetwork.Peer) : bool * t :=
  if negb host
  then (false, mk false (peer self) (state self) (localPlayerIndex self))
  else
    match connection with
    | None => (false, mk false None (state self) (localPlayerIndex self))
    | Some p => (true, mk true (Some p) CONNECTING (localPlayerIndex self))
    end.

Definition Disconnect (self : t) : t * list Action :=
  (mk false None DISCONNECTED (localPlayerIndex self),
   match peer self with Some p => [PeerDisconnect p] | None => [] end).

Definition SendInput (self : t) (input : InputState.t) : list Action :=
  match state self, peer self with
  | CONNECTED, Some p =>
      [Send p (NetPacketType.INPUT :: InputState.Serialize input)]
  | _, _ => []
  end.

(** [ProcessPacket(data, length)] with [length] the length of [data];
    [None] when [GameState::Deserialize] reads beyond the packet. *)
Definition ProcessPacket (self : t) (data : list Z) : option (t * list Action) :=
  match data with
  | [] => Some (self, [])
  | tag :: payload =>
      if tag =? NetPacketType.GAME_STATE then
        match GameState.decode payload with
        | Some gameState => Some (self, [OnGameStateReceived gameState])
        | None => None
        end
      else if tag =? NetPacketType.PLAYER_JOINED then
        match payload with
        | b :: _ =>
            Some (mk (client self) (peer self) (state self) b,
                  [OnPlayerJoined b])
        | [] => Some (self, [])
        end
      else if tag =? NetPacketType.GAME_START then Some (self, [OnGameStart])
      else if tag =? NetPacketType.ROUND_END then
        match payload with
        | b :: _ => Some (self, [OnRoundEnd b])
        | [] => Some (self, [])
        end
      else if tag =? NetPacketType.MATCH_END then
        match payload with
        | b :: _ => Some (self, [OnMatchEnd b])
        | [] => Some (self, [])
        end
      else Some (self, [])
  end.

Definition handle (self : t) (ev : ServerNetwork.ENetEvent)
    : option (t * list Action) :=
  match ev with
  | ServerNetwork.CONNECT _ =>
      Some (mk (client self) (peer self) CONNECTED (localPlayerIndex self), [])
  | ServerNetwork.RECEIVE _ data => ProcessPacket self data
  | ServerNetwork.DISCONNECT _ =>
      Some (mk (client self) None DISCONNECTED (localPlayerIndex self),
            [OnDisconnected (-1)])
  | ServerNetwork.NONE => Some (self, [])
  end.

(** The loop of [Update] over the events ENet delivers. *)
Fixpoint service (self : t) (evs : list ServerNetwork.ENetEvent)
    : option (t * list Action) :=
  match evs with
  | [] => Some (self, [])
  | ev :: rest =>
      match handle self ev with
      | Some (self1, a1) =>
          match service self1 rest with
          | Some (self2, a2) => Some (self2, a1 ++ a2)
          | None => None
          end
      | None => None
      end
  end.

Definition Update (self : t) (evs : list ServerNetwork.ENetEvent)
    : option (t * list Action) :=
  if negb (client self) then Some (self, []) else service self evs.

End ClientNetwork.

(* ------------------------------------------------------------------ *)
(** ** server_main.cpp: the callbacks and the simulation loop of [main] *)

Module ServerMain.

Definition TICK_RATE : F32.t := F32.of_Z 60.
Definition TICK_DURATION : F32.t := F32.div (F32.of_Z 1) TICK_RATE.

(** The variables of [main] that the callbacks and the loop share. *)
Record t := mk {
  gameStarted : bool;
  gameState : GameState.t;
  playerInputs : InputState.t * InputState.t
}.

(** [main] when it enters its loop. *)
Definition init : t :=
  mk false (GameState.ResetMatch GameState.init)
     (InputState.init, InputState.init).

(** The lines [main] prints at the end of a round: the round with its
    winner ([None] for a draw), and the winner of the match. *)
Inductive Output :=
| RoundOver (round : Z) (winner : option PlayerIndex)
| MatchOver (winner : PlayerIndex).

(** The four callbacks [main] sets, on what the server invokes.
    [OnPlayerJoined] prints and changes nothing; the server invokes
    [OnInputReceived] with the index of a slot. *)
Definition callback (m : t) (a : ServerNetwork.Action) : t :=
  match a with
  | ServerNetwork.OnGameStart =>
      mk true (GameState.ResetMatch (gameState m)) (playerInputs m)
  | ServerNetwork.OnInputReceived input playerIndex =>
      mk (gameStarted m) (gameState m)
         (if playerIndex =? 0 then (input, snd (playerInputs m))
          else (fst (playerInputs m), input))
  | ServerNetwork.OnDisconnected _ =>
      mk false (gameState m) (playerInputs m)
  | _ => m
  end.

Definition callbacks (m : t) (l : list ServerNetwork.Action) : t :=
  fold_left callback l m.

(** The check for the end of the match: the loop over the two players
    that stops at the first with two wins. *)
Definition match_end (m : t) : t * list Output :=
  let wins i := PlayerState.roundWins (GameState.player (gameState m) i) in
  if 2 <=? wins Player0 then
    (mk false (GameState.ResetMatch (gameState m)) (playerInputs m),
     [MatchOver Player0])
  else if 2 <=? wins Player1 then
    (mk false (GameState.ResetMatch (gameState m)) (playerInputs m),
     [MatchOver Player1])
  else (m, []).

(** [roundOver] and [winner] after the two checks for the end of the
    round. *)
Definition round_over (g : GameState.t) : bool * option PlayerIndex :=
  let '(roundOver, winner) :=
    if negb (PlayerState.alive (GameState.player g Player0))
    then (true, Some (other Player0))
    else if negb (PlayerState.alive (GameState.player g Player1))
    then (true, Some (other Player1))
    else (false, None) in
  if F32.leb (GameState.roundTimer g) F32.zero then
    let hp0 := PlayerState.hp (GameState.player g Player0) in
    let hp1 := PlayerState.hp (GameState.player g Player1) in
    (true,
     if F32.gtb hp0 hp1 then Some Player0
     else if F32.gtb hp1 hp0 then Some Player1
     else winner)
  else (roundOver, winner).

Section Loop.
Context `{CMath}.

(** One pass of the fixed-timestep loop. *)
Definition tick (sim : GameSimulation.t) (m : t)
    : GameSimulation.t * t * list Output :=
  let g := gameState m in
  let g :=
    if InputState.throwProjectile (fst (playerInputs m))
    then GameSimulation.SpawnProjectile g Player0 else g in
  let g :=
    if InputState.throwProjectile (snd (playerInputs m))
    then GameSimulation.SpawnProjectile g Player1 else g in
  let '(sim, g) :=
    GameSimulation.Update sim g (fst (playerInputs m)) (snd (playerInputs m)) in
  let m := mk (gameStarted m) g (playerInputs m) in
  let '(roundOver, winner) := round_over g in
  if roundOver then
    let out := [RoundOver (GameState.currentRound g) winner] in
    let '(m, out2) := match_end m in
    let m :=
      if gameStarted m then
        mk (gameStarted m)
           (GameState.ResetRound
              (GameState.set_currentRound (gameState m)
                 ((GameState.currentRound (gameState m) + 1) mod 256)))
           (playerInputs m)
      else m in
    (sim, m, out ++ out2)
  else (sim, m, []).

(** The passes the accumulated time allows, one after the other. *)
Fixpoint ticks (n : nat) (sim : GameSimulation.t) (m : t)
    : GameSimulation.t * t * list Output :=
  match n with
  | O => (sim, m, [])
  | S k =>
      let '(sim1, m1, o1) := tick sim m in
      let '(sim2, m2, o2) := ticks k sim1 m1 in
      (sim2, m2, o1 ++ o2)
  end.

End Loop.

End ServerMain.

(* ------------------------------------------------------------------ *)
(** ** Vocabulary of the properties *)

(** Unsigned integers of 8, 16 and 32 bits. *)
Definition u8 (v : Z) : bool := (0 <=? v) && (v <? 256).
Definition u16 (v : Z) : bool := (0 <=? v) && (v <? 65536).
Definition u32 (v : Z) : bool := (0 <=? v) && (v <? 2 ^ 32).

(** Records whose [float] fields are binary32 numbers and whose integer
    fields are in the range of their C++ type. *)
Definition wf_vec3 (v : glm.vec3) : bool :=
  F32.valid (glm.x v) && F32.valid (glm.y v) && F32.valid (glm.z v).

Definition wf_player (p : PlayerState.t) : bool :=
  wf_vec3 (PlayerState.position p) && wf_vec3 (PlayerState.velocity p)
  && F32.valid (PlayerState.facingAngle p) && F32.valid (PlayerState.hp p)
  && F32.valid (PlayerState.projectileCooldown p)
  && u8 (PlayerState.roundWins p).

Definition wf_projectile (p : ProjectileState.t) : bool :=
  wf_vec3 (ProjectileState.position p) && wf_vec3 (ProjectileState.velocity p)
  && u8 (ProjectileState.ownerID p) && F32.valid (ProjectileState.damage p).

Definition wf_state (s : GameState.t) : bool :=
  wf_player (fst (GameState.players s)) && wf_player (snd (GameState.players s))
  && forallb wf_projectile (GameState.projectiles s)
  && u32 (GameState.frameNumber s) && F32.valid (GameState.roundTimer s)
  && u8 (GameState.currentRound s).

Definition wf_input (i : InputState.t) : bool :=
  F32.valid (InputState.moveX i) && F32.valid (InputState.moveY i)
  && u32 (InputState.frameNumber i).

(** A reader that, on any buffer holding [bs] at the offset, returns [a]
    and leaves the offset behind [bs]. *)
Definition reads {A} (r : Bytes.Reader A) (bs : list Z) (a : A) : Prop :=
  forall pre post,
    r (pre ++ bs ++ post) (List.length pre)
    = Some (a, (List.length pre + List.length bs)%nat).

(** [hp >= 0] and [alive == (hp > 0)]. *)
Definition hp_invariant (p : PlayerState.t) : bool :=
  F32.geb (PlayerState.hp p) F32.zero
  && Bool.eqb (PlayerState.alive p) (F32.gtb (PlayerState.hp p) F32.zero).

(** A projectile that is inactive, or whose damage is a finite number
    that is not negative. *)
Definition sound_damage (p : ProjectileState.t) : bool :=
  negb (ProjectileState.active p)
  || (F32.valid (ProjectileState.damage p)
      && F32.is_finite (ProjectileState.damage p)
      && F32.geb (ProjectileState.damage p) F32.zero).

(** A coordinate in [[-ARENA_HALF_SIZE, ARENA_HALF_SIZE]]. *)
Definition in_arena (v : F32.t) : bool :=
  F32.leb (F32.neg GameSimulation.ARENA_HALF_SIZE) v
  && F32.leb v GameSimulation.ARENA_HALF_SIZE.

(** The input of a player in a pair of inputs. *)
Definition input_of (i : PlayerIndex) (pair : InputState.t * InputState.t)
    : InputState.t :=
  match i with Player0 => fst pair | Player1 => snd pair end.






(** The win evaluation writes [roundWins] and nothing else. *)
Definition same_but_roundWins (p q : PlayerState.t) : Prop :=
  PlayerState.position p = PlayerState.position q
  /\ PlayerState.velocity p = PlayerState.velocity q
  /\ PlayerState.facingAngle p = PlayerState.facingAngle q
  /\ PlayerState.hp p = PlayerState.hp q
  /\ PlayerState.projectileCooldown p = PlayerState.projectileCooldown q
  /\ PlayerState.alive p = PlayerState.alive q.


Section Stages.
Context `{CMath}.

(** The players as the collision pass of [Update] receives them, and the
    projectiles it receives. *)
Definition players_before_collisions (s : GameState.t) (i0 i1 : InputState.t)
    (e : GameSimulation.t) : GameSimulation.Players :=
  (GameSimulation.UpdatePlayer e (GameState.player s Player0) i0 Player0,
   GameSimulation.UpdatePlayer e (GameState.player s Player1) i1 Player1).

Definition projectiles_before_collisions (s : GameState.t)
    : list ProjectileState.t :=
  filter ProjectileState.active
         (map GameSimulation.move_projectile (GameState.projectiles s)).

(** The state after the collision pass of [Update], before the win
    evaluation: the body of [Update] without its last call. *)
Definition after_collisions (e : GameSimulation.t) (s : GameState.t)
    (i0 i1 : InputState.t) : GameState.t :=
  let next := s in
  let next :=
    GameState.set_frameNumber next ((GameState.frameNumber next + 1) mod 2 ^ 32) in
  let next :=
    GameState.set_roundTimer next
      (F32.sub (GameState.roundTimer next) GameSimulation.FIXED_DT) in
  let next :=
    if F32.ltb (GameState.roundTimer next) F32.zero
    then GameState.set_roundTimer next F32.zero
    else next in
  let next :=
    GameState.set_player next Player0
      (GameSimulation.UpdatePlayer e (GameState.player next Player0) i0 Player0) in
  let next :=
    GameState.set_player next Player1
      (GameSimulation.UpdatePlayer e (GameState.player next Player1) i1 Player1) in
  GameSimulation.CheckCollisions e (GameSimulation.UpdateProjectiles e next).

End Stages.

(** *** Concrete states and inputs *)

(** A C math library for closed examples: every sine and arc tangent is
    0, every cosine 1. *)
Definition flat_math : CMath :=
  {| sinf := fun _ => F32.zero;
     cosf := fun _ => F32.one;
     atan2f := fun _ _ => F32.zero |}.

(** No movement, no button. *)
Definition idle : InputState.t := InputState.init.

(** The start of a match: both players at 100 hp, no projectile. *)
Definition fresh_round : GameState.t := GameState.ResetMatch GameState.init.

(** A projectile of player [owner] at rest where player [target] stands. *)
Definition shot_at (s : GameState.t) (owner : Z) (target : PlayerIndex)
    (damage : F32.t) : ProjectileState.t :=
  ProjectileState.mk (PlayerState.position (GameState.player s target))
                     (glm.splat F32.zero) owner damage true.

Definition with_shot (s : GameState.t) (p : ProjectileState.t) : GameState.t :=
  GameState.set_projectiles s (GameState.projectiles s ++ [p]).

(** [Update] on a default-constructed engine, with [flat_math]. *)
Definition step0 (s : GameState.t) (i0 i1 : InputState.t) : GameState.t :=
  @GameSimulation.step flat_math GameSimulation.init s i0 i1.

(** One tick in which a projectile of player 0 hits player 1 for
    [PROJECTILE_DAMAGE]. *)
Definition hit_tick (s : GameState.t) : GameState.t :=
  step0 (with_shot s (shot_at s 0 Player1 GameConstants.PROJECTILE_DAMAGE))
        idle idle.

(** Both players at 10 hp, each with a projectile of the other on it. *)
Definition double_ko : GameState.t :=
  let s := fresh_round in
  let p0 := PlayerState.set_hp (GameState.player s Player0) (F32.of_Z 10) in
  let p1 := PlayerState.set_hp (GameState.player s Player1) (F32.of_Z 10) in
  let s := GameState.set_players s (p0, p1) in
  with_shot (with_shot s (shot_at s 0 Player1 GameConstants.PROJECTILE_DAMAGE))
            (shot_at s 1 Player0 GameConstants.PROJECTILE_DAMAGE).

(** The hp of a player is a number in [[0, bound]] (in units of
    [2 ^ -149]) and the player is alive exactly when it is positive. *)
Definition hp_within (bound : Z) (p : PlayerState.t) : Prop :=
  F32.valid (PlayerState.hp p) = true
  /\ F32.is_nan (PlayerState.hp p) = false
  /\ 0 <= F32.ord (PlayerState.hp p) <= bound
  /\ PlayerState.alive p = (0 <? F32.ord (PlayerState.hp p)).

(** A damage that is a finite number, not negative. *)
Definition finite_damage (p : ProjectileState.t) : Prop :=
  F32.valid (ProjectileState.damage p) = true
  /\ F32.is_finite (ProjectileState.damage p) = true
  /\ 0 <= F32.ord (ProjectileState.damage p).

(** Fresh round, and a projectile of player 0 on player 1 whose damage is
    -10. *)
Definition healing_shot : GameState.t :=
  with_shot fresh_round (shot_at fresh_round 0 Player1 (F32.of_Z (-10))).




(** An input whose [moveX] is a NaN. *)
Definition nan_input : InputState.t := InputState.mk S754_nan F32.zero false 7.

(** A [GAME_START] packet handed to [enet_peer_send]. *)
Definition is_game_start (a : ServerNetwork.Action) : bool :=
  match a with
  | ServerNetwork.Send _ [tag] => tag =? NetPacketType.GAME_START
  | _ => false
  end.

(** The slot the server holds after ENet has been asked: empty when the
    peer stored there is disconnected. *)
Definition live_peer (disconnected : ServerNetwork.Peer -> bool)
    (o : option ServerNetwork.Peer) : option ServerNetwork.Peer :=
  match o with
  | Some p => if disconnected p then None else Some p
  | None => None
  end.

(** The state after ten ticks of [hit_tick] from the start of a match. *)
Definition knocked_out : GameState.t := Nat.iter 10 hit_tick fresh_round.

(** Full speed towards positive x. *)
Definition eastward : InputState.t :=
  InputState.mk F32.one F32.zero false 0.

(** An input with movement and the button pressed. *)
Definition sample_input : InputState.t :=
  InputState.mk (F32.of_ratio 1 2) (F32.neg F32.one) true 1234567.

(** Fresh round with one projectile of player 0 on player 1. *)
Definition one_shot : GameState.t :=
  with_shot fresh_round
    (shot_at fresh_round 0 Player1 GameConstants.PROJECTILE_DAMAGE).


(** *** Buffers and readers *)

(** A byte of a buffer. *)
Definition byte (b : Z) : Prop := 0 <= b < 256.

(** A reader that takes [n] bytes: it succeeds exactly when they lie
    inside the buffer, leaves the offset behind them, returns a value
    with the property [P], and returns the same on every buffer that
    holds the same bytes up to there. *)
Definition takes {A} (n : nat) (P : A -> Prop) (r : Bytes.Reader A) : Prop :=
  forall buf off,
    ((off + n <= List.length buf)%nat ->
     exists a,
       r buf off = Some (a, (off + n)%nat) /\ P a
       /\ forall buf',
            firstn (off + n) buf' = firstn (off + n) buf ->
            r buf' off = Some (a, (off + n)%nat))
    /\ ((off <= List.length buf < off + n)%nat -> r buf off = None).

(** The number of projectiles a serialized state announces: the 16-bit
    count behind the two players, at offset 76. *)
Definition announced_projectiles (buffer : list Z) : nat :=
  Z.to_nat (Bytes.join (firstn 2 (skipn 76 buffer))).

(** The bytes [GameState::Deserialize] reads from a buffer: the two
    players, the count, the projectiles it announces, and the nine bytes
    of the frame number, the timer and the round. *)
Definition bytes_read (buffer : list Z) : nat :=
  87 + 30 * announced_projectiles buffer.

(** *** Projectiles, timer and cooldown over a tick *)

(** [p'] is the active projectile [p] one tick later: moved by its
    velocity, with the owner, the velocity and the damage of [p]. *)
Definition moved_from (p p' : ProjectileState.t) : Prop :=
  ProjectileState.active p = true
  /\ ProjectileState.position p'
     = glm.add (ProjectileState.position p)
               (glm.scale (ProjectileState.velocity p) GameSimulation.FIXED_DT)
  /\ ProjectileState.velocity p' = ProjectileState.velocity p
  /\ ProjectileState.ownerID p' = ProjectileState.ownerID p
  /\ ProjectileState.damage p' = ProjectileState.damage p.

(** The test that deactivates a projectile: [|x|] or [|z|] above
    [ARENA_HALF_SIZE + 5]. *)
Definition out_of_bounds (p : ProjectileState.t) : bool :=
  let bound := F32.add GameSimulation.ARENA_HALF_SIZE (F32.of_Z 5) in
  F32.gtb (F32.abs (glm.x (ProjectileState.position p))) bound
  || F32.gtb (F32.abs (glm.z (ProjectileState.position p))) bound.

(** What [Update] does to the round timer. *)
Definition tick_timer (t : F32.t) : F32.t :=
  let t' := F32.sub t GameSimulation.FIXED_DT in
  if F32.ltb t' F32.zero then F32.zero else t'.

(** The ticks of a round: 99 seconds of 60. *)
Definition round_ticks : nat := 99 * 60.

(** What [UpdatePlayer] does to the cooldown of a player that is alive. *)
Definition cool (c : F32.t) : F32.t :=
  if F32.gtb c F32.zero then
    let c' := F32.sub c GameSimulation.FIXED_DT in
    if F32.ltb c' F32.zero then F32.zero else c'
  else c.

(** The ticks between two shots. *)
Definition cooldown_ticks : nat := 30.

(** [f] applied [n] times keeps [t] above zero. *)
Fixpoint positive_for (f : F32.t -> F32.t) (n : nat) (t : F32.t) : bool :=
  match n with
  | O => true
  | S k => F32.gtb t F32.zero && positive_for f k (f t)
  end.

(** *** The server's queues and packets *)

(** The server after the packets of [peer], received in order. *)
Definition receive (s : ServerNetwork.t) (peer : ServerNetwork.Peer)
    (packets : list (list Z)) : ServerNetwork.t :=
  fold_left (fun s data => fst (ServerNetwork.ProcessPacket s peer data))
            packets s.

(** [GetPendingInput] called until it returns false, [n] times at most:
    the inputs it handed out, in order, and the server left. *)
Fixpoint drain (n : nat) (s : ServerNetwork.t) (playerIndex : Z)
    : list InputState.t * ServerNetwork.t :=
  match n with
  | O => ([], s)
  | S k =>
      match ServerNetwork.GetPendingInput s playerIndex InputState.init with
      | (true, input, s1) =>
          let '(l, s2) := drain k s1 playerIndex in (input :: l, s2)
      | (false, _, _) => ([], s)
      end
  end.

(** The packets the server's [Update] hands to ENet: a slot index behind
    [PLAYER_JOINED], or [GAME_START] alone. *)
Definition join_or_start (a : ServerNetwork.Action) : Prop :=
  match a with
  | ServerNetwork.Send _ packet =>
      packet = [NetPacketType.PLAYER_JOINED; 0]
      \/ packet = [NetPacketType.PLAYER_JOINED; 1]
      \/ packet = [NetPacketType.GAME_START]
  | _ => True
  end.

(** *** The loop of [main] *)

Section Ticks.
Context `{CMath}.

(** The variables of [main] after one pass of the simulation loop, and
    what the pass printed. *)
Definition after_tick (sim : GameSimulation.t) (m : ServerMain.t)
    : ServerMain.t :=
  snd (fst (ServerMain.tick sim m)).

Definition printed (sim : GameSimulation.t) (m : ServerMain.t)
    : list ServerMain.Output :=
  snd (ServerMain.tick sim m).

End Ticks.

(** The wins of a player in the variables of [main]. *)
Definition wins_of (m : ServerMain.t) (i : PlayerIndex) : Z :=
  PlayerState.roundWins (GameState.player (ServerMain.gameState m) i).

(** [playerInputs] with the entry of a slot replaced. *)
Definition with_input (m : ServerMain.t) (i : PlayerIndex) (x : InputState.t)
    : ServerMain.t :=
  ServerMain.mk (ServerMain.gameStarted m) (ServerMain.gameState m)
    match i with
    | Player0 => (x, snd (ServerMain.playerInputs m))
    | Player1 => (fst (ServerMain.playerInputs m), x)
    end.

(** *** Concrete servers, clients and matches *)

(** A server with peer 7 in slot 0 and nobody in slot 1, with an input
    pending for slot 0. *)
Definition one_peer : ServerNetwork.t :=
  ServerNetwork.mk (Some 7%nat, None) ([sample_input], []).

(** ENet reports no peer as disconnected. *)
Definition all_live : ServerNetwork.Peer -> bool := fun _ => false.

(** A client connected to peer 3. *)
Definition connected_client : ClientNetwork.t :=
  ClientNetwork.mk true (Some 3%nat) CONNECTED 0.

(** The variables of [main] at the start of a match, no key pressed. *)
Definition match_on : ServerMain.t :=
  ServerMain.mk true fresh_round (idle, idle).

(** The start of a match just after player 0 has fired. *)
Definition just_fired : GameState.t :=
  @GameSimulation.SpawnProjectile flat_math fresh_round Player0.


(** Five bytes: the four of [1.0f], and a byte whose bit 0 is set. *)
Definition five_bytes : list Z := [0; 0; 128; 63; 1].

(** A server that listens, with the slots of [one_peer]. *)
Definition serving : ServerNetwork.object :=
  ServerNetwork.mk_object true CONNECTED one_peer.
(* ================================================================== *)
(** * Properties *)

(* ------------------------------------------------------------------ *)
(** ** binary32 arithmetic *)

Module F32Facts.

Import F32.

Lemma fexp32_eq e : fexp 24 128 e = fexp32 e.
Proof. reflexivity. Qed.

Lemma digits2_pos_size p : digits2_pos p = Pos.size p.
Proof. induction p; simpl; congruence. Qed.

Lemma Zdigits2_log2 m : 0 < m -> Zdigits2 m = Z.log2 m + 1.
Proof.
  destruct m as [|p|p]; try lia. intros _.
  destruct p; cbn [Zdigits2 digits2_pos Z.log2]; rewrite ?digits2_pos_size; lia.
Qed.

Lemma Zdigits2_bounds m :
  0 < m -> 2 ^ (Zdigits2 m - 1) <= m < 2 ^ Zdigits2 m.
Proof.
  intros Hm. rewrite (Zdigits2_log2 m Hm).
  replace (Z.log2 m + 1 - 1) with (Z.log2 m) by lia.
  apply Z.log2_spec, Hm.
Qed.

Lemma Zdigits2_unique m k :
  2 ^ (k - 1) <= m < 2 ^ k -> 0 < k -> Zdigits2 m = k.
Proof.
  intros Hb Hk.
  assert (0 < m). { pose proof (Z.pow_pos_nonneg 2 (k - 1)). lia. }
  rewrite Zdigits2_log2 by assumption.
  rewrite (Z.log2_unique m (k - 1)); try lia.
  replace (Z.succ (k - 1)) with k by lia. exact Hb.
Qed.

Lemma Zdigits2_pos m : 0 < m -> 0 < Zdigits2 m.
Proof. intros Hm. rewrite Zdigits2_log2 by assumption. pose proof (Z.log2_nonneg m). lia. Qed.

Lemma shr_1_m mrs : 0 <= shr_m mrs -> shr_m (shr_1 mrs) = shr_m mrs / 2.
Proof.
  destruct mrs as [m r s]. cbn [shr_m shr_1]. intros Hm.
  destruct m as [|[p|p|]|p]; cbn [shr_m]; try lia; try reflexivity.
  - apply Z.div_unique with 1; lia.
  - apply Z.div_unique with 0; lia.
Qed.

Lemma pow2_xO p : 2 ^ Zpos p~0 = 2 ^ Zpos p * 2 ^ Zpos p.
Proof.
  replace (Zpos p~0) with (Zpos p + Zpos p) by lia.
  apply Z.pow_add_r; lia.
Qed.

Lemma pow2_xI p : 2 ^ Zpos p~1 = 2 * (2 ^ Zpos p * 2 ^ Zpos p).
Proof.
  replace (Zpos p~1) with (1 + (Zpos p + Zpos p)) by lia.
  rewrite !Z.pow_add_r by lia. reflexivity.
Qed.

Lemma pow2_pos n : 0 <= n -> 0 < 2 ^ n.
Proof. intros. apply Z.pow_pos_nonneg; lia. Qed.

Lemma iter_shr_m p :
  forall mrs, 0 <= shr_m mrs ->
    shr_m (iter_pos shr_1 p mrs) = shr_m mrs / 2 ^ Zpos p.
Proof.
  assert (Hnn : forall mrs, 0 <= shr_m mrs -> 0 <= shr_m (shr_1 mrs)).
  { intros mrs H. rewrite shr_1_m by assumption. apply Z.div_pos; lia. }
  assert (Hp : forall q, 0 < 2 ^ Zpos q) by (intros; apply pow2_pos; lia).
  induction p as [p IH|p IH|]; intros mrs H; cbn [iter_pos].
  - assert (H1 := Hnn mrs H).
    assert (H2 : 0 <= shr_m (iter_pos shr_1 p (shr_1 mrs))).
    { rewrite IH by assumption. apply Z.div_pos; [assumption|apply Hp]. }
    rewrite IH, IH, shr_1_m by assumption.
    pose proof (Hp p).
    rewrite !Z.div_div by lia.
    f_equal. rewrite pow2_xI. ring.
  - assert (H2 : 0 <= shr_m (iter_pos shr_1 p mrs)).
    { rewrite IH by assumption. apply Z.div_pos; [assumption|apply Hp]. }
    rewrite IH, IH by assumption.
    pose proof (Hp p).
    rewrite !Z.div_div by lia.
    f_equal. rewrite pow2_xO. ring.
  - rewrite shr_1_m by assumption. reflexivity.
Qed.

Lemma shr_spec mrs e n :
  0 <= shr_m mrs ->
  shr_m (fst (shr mrs e n)) = shr_m mrs / 2 ^ Z.max 0 n
  /\ snd (shr mrs e n) = e + Z.max 0 n
  /\ (n <= 0 -> fst (shr mrs e n) = mrs).
Proof.
  intros Hm. destruct n as [|p|p]; cbn [shr fst snd].
  - rewrite Z.max_id. cbn. rewrite Z.div_1_r. repeat split; lia.
  - rewrite Z.max_r by lia. rewrite iter_shr_m by assumption. repeat split; lia.
  - rewrite Z.max_l by lia. cbn. rewrite Z.div_1_r. repeat split; lia.
Qed.

Lemma shr_record_of_loc_m m l : shr_m (shr_record_of_loc m l) = m.
Proof. destruct l as [|[]]; reflexivity. Qed.

Lemma loc_of_shr_record_of_loc m l : loc_of_shr_record (shr_record_of_loc m l) = l.
Proof. destruct l as [|[]]; reflexivity. Qed.

Lemma shr_fexp_spec m e l :
  0 <= m ->
  let k := Z.max 0 (fexp32 (Zdigits2 m + e) - e) in
  shr_m (fst (shr_fexp 24 128 m e l)) = m / 2 ^ k
  /\ snd (shr_fexp 24 128 m e l) = e + k
  /\ (k = 0 -> fst (shr_fexp 24 128 m e l) = shr_record_of_loc m l).
Proof.
  intros Hm k. unfold shr_fexp. rewrite fexp32_eq.
  destruct (shr_spec (shr_record_of_loc m l) e (fexp32 (Zdigits2 m + e) - e))
    as (A & B & C).
  { rewrite shr_record_of_loc_m. exact Hm. }
  rewrite shr_record_of_loc_m in A. subst k.
  split; [exact A|split; [exact B|]].
  intros K. apply C. lia.
Qed.

Lemma round_nearest_even_bounds m l :
  m <= round_nearest_even m l <= m + 1.
Proof.
  destruct l as [|[]]; cbn [round_nearest_even]; try lia.
  destruct (Z.even m); lia.
Qed.

Lemma Zdigits2_le m k : 0 < m -> m < 2 ^ k -> Zdigits2 m <= k.
Proof.
  intros Hm Hk.
  destruct (Z.le_gt_cases (Zdigits2 m) k) as [|Hgt]; [assumption|exfalso].
  pose proof (Zdigits2_bounds m Hm) as [Hl _].
  assert (0 <= k).
  { destruct (Z.le_gt_cases 0 k); [assumption|].
    rewrite Z.pow_neg_r in Hk by lia. lia. }
  assert (2 ^ k <= 2 ^ (Zdigits2 m - 1)) by (apply Z.pow_le_mono_r; lia).
  lia.
Qed.

Lemma bounded_intro m e :
  fexp32 (Zdigits2 (Zpos m) + e) = e -> e <= 104 -> bounded 24 128 m e = true.
Proof.
  intros Hc He. unfold bounded, canonical_mantissa.
  rewrite fexp32_eq. cbn [Zdigits2] in Hc. rewrite Hc, Z.eqb_refl.
  change (128 - 24) with 104. apply Z.leb_le in He. rewrite He. reflexivity.
Qed.

Lemma bounded_elim m e :
  bounded 24 128 m e = true ->
  fexp32 (Zdigits2 (Zpos m) + e) = e /\ e <= 104.
Proof.
  unfold bounded, canonical_mantissa. rewrite fexp32_eq.
  change (128 - 24) with 104. intros H.
  apply andb_true_iff in H. destruct H as [A B].
  apply Z.eqb_eq in A. apply Z.leb_le in B. split; assumption.
Qed.

Lemma binary_round_aux_finish sx mx ex lx :
  binary_round_aux 24 128 sx mx ex lx
  = finish sx
      (round_nearest_even (shr_m (fst (shr_fexp 24 128 mx ex lx)))
         (loc_of_shr_record (fst (shr_fexp 24 128 mx ex lx))))
      (snd (shr_fexp 24 128 mx ex lx)).
Proof.
  unfold binary_round_aux, finish.
  destruct (shr_fexp 24 128 mx ex lx) as [mrs' e']. reflexivity.
Qed.

Lemma finish_spec sx Q e1 :
  -149 <= e1 -> 0 <= Q ->
  (2 ^ 23 <= Q <= 2 ^ 24 \/ (e1 = -149 /\ Q <= 2 ^ 23)) ->
  rounds_to sx Q e1 (finish sx Q e1).
Proof.
  intros He HQ Hcase. unfold finish.
  destruct (shr_fexp_spec Q e1 loc_Exact HQ) as (A & B & C).
  destruct (shr_fexp 24 128 Q e1 loc_Exact) as [mrs'' e''].
  cbn [fst snd] in A, B, C.
  destruct (Z.eq_dec Q 0) as [->|Hnz].
  { (* rounded to zero *)
    cbn [Zdigits2] in A. rewrite Z.div_0_l in A.
    2:{ apply Z.pow_nonzero; unfold fexp32; lia. }
    rewrite A. left. split; reflexivity. }
  assert (HQpos : 0 < Q) by lia.
  destruct (Z.eq_dec Q (2 ^ 24)) as [E24|N24].
  - (* the rounding carried into a 25th digit *)
    assert (Hd : Zdigits2 Q = 25).
    { apply Zdigits2_unique; [|lia]. rewrite E24. cbn. lia. }
    assert (He1 : -149 <= e1) by exact He.
    destruct Hcase as [_|[_ Hc]]; [|rewrite E24 in Hc; cbn in Hc; lia].
    rewrite Hd in A, B. unfold fexp32 in A, B.
    replace (Z.max 0 (Z.max (25 + e1 - 24) (-149) - e1)) with 1 in A, B by lia.
    rewrite E24 in A. change (2 ^ 24 / 2 ^ 1) with (2 ^ 23) in A.
    rewrite A. change (2 ^ 23) with (Zpos 8388608).
    destruct (e'' <=? 104) eqn:El.
    + right; right. split; [lia|]. exists 8388608%positive, e''.
      split; [reflexivity|]. split.
      * apply bounded_intro; [|apply Z.leb_le; exact El].
        cbn [Zdigits2 digits2_pos Pos.succ]. unfold fexp32. lia.
      * rewrite B, E24.
        replace (e1 + 1 + 149) with (1 + (e1 + 149)) by lia.
        rewrite Z.pow_add_r by lia. change (2 ^ 1) with 2.
        change (Zpos 8388608) with (2 ^ 23). change (2 ^ 24) with (2 * 2 ^ 23). ring.
    + right; left. split; [lia|]. split; [reflexivity|].
      apply Z.leb_gt in El. rewrite E24.
      replace 277 with (24 + 253) by lia. rewrite Z.pow_add_r by lia.
      apply Z.mul_le_mono_nonneg_l; [cbn; lia|].
      apply Z.pow_le_mono_r; lia.
  - (* no carry: the mantissa is kept *)
    assert (Hd : fexp32 (Zdigits2 Q + e1) = e1).
    { destruct Hcase as [[Hl Hu]|[-> Hu]].
      - rewrite (Zdigits2_unique Q 24); [unfold fexp32; lia| |lia].
        change (24 - 1) with 23. lia.
      - pose proof (Zdigits2_le Q 24 HQpos). unfold fexp32.
        assert (Q < 2 ^ 24) by (change (2 ^ 24) with (2 * 2 ^ 23); lia). lia. }
    rewrite Hd in A, B. replace (Z.max 0 (e1 - e1)) with 0 in A, B by lia.
    cbn in A. rewrite Z.div_1_r in A. rewrite A.
    destruct Q as [|q|q]; try lia.
    replace e'' with e1 by lia.
    destruct (e1 <=? 104) eqn:El.
    + right; right. split; [lia|]. exists q, e1.
      split; [reflexivity|]. split; [|reflexivity].
      apply bounded_intro; [exact Hd|apply Z.leb_le; exact El].
    + right; left. split; [lia|]. split; [reflexivity|].
      apply Z.leb_gt in El.
      destruct Hcase as [[Hl Hu]|[-> Hu]]; [|lia].
      replace 277 with (23 + 254) by lia. rewrite Z.pow_add_r by lia.
      apply Z.mul_le_mono_nonneg; try lia.
      apply Z.pow_le_mono_r; lia.
Qed.

Lemma fexp32_ge e : -149 <= fexp32 e.
Proof. unfold fexp32. lia. Qed.

Lemma fexp32_mono a b : a <= b -> fexp32 a <= fexp32 b.
Proof. unfold fexp32. lia. Qed.

Lemma div_pow2_lt m k d :
  0 <= k -> 0 <= d -> m < 2 ^ (k + d) -> m / 2 ^ k < 2 ^ d.
Proof.
  intros Hk Hd Hm. apply Z.div_lt_upper_bound; [apply pow2_pos; lia|].
  rewrite <- Z.pow_add_r by lia. exact Hm.
Qed.

Lemma div_pow2_ge m k d :
  0 <= k -> 0 <= d -> 2 ^ (k + d) <= m -> 2 ^ d <= m / 2 ^ k.
Proof.
  intros Hk Hd Hm. apply Z.div_le_lower_bound; [apply pow2_pos; lia|].
  rewrite <- Z.pow_add_r by lia. exact Hm.
Qed.

Lemma binary_round_aux_spec sx m e l :
  0 < m -> e <= fexp32 (Zdigits2 m + e) ->
  let e1 := fexp32 (Zdigits2 m + e) in
  exists Q, m / 2 ^ (e1 - e) <= Q <= m / 2 ^ (e1 - e) + 1
    /\ (e1 = e -> l = loc_Exact -> Q = m)
    /\ rounds_to sx Q e1 (binary_round_aux 24 128 sx m e l).
Proof.
  intros Hm He e1.
  rewrite binary_round_aux_finish.
  destruct (shr_fexp_spec m e l (Z.lt_le_incl _ _ Hm)) as (A & B & C).
  fold e1 in A, B, C.
  replace (Z.max 0 (e1 - e)) with (e1 - e) in A, B, C by (subst e1; lia).
  set (mrs := fst (shr_fexp 24 128 m e l)) in *.
  replace (snd (shr_fexp 24 128 m e l)) with e1 by lia.
  rewrite A.
  set (m1 := m / 2 ^ (e1 - e)).
  pose proof (round_nearest_even_bounds m1 (loc_of_shr_record mrs)) as HQ.
  set (Q := round_nearest_even m1 (loc_of_shr_record mrs)) in *.
  assert (Hm1 : 0 <= m1).
  { apply Z.div_pos; [lia|apply pow2_pos; subst e1; lia]. }
  exists Q. split; [exact HQ|]. split.
  - intros E ->. subst Q. rewrite C by lia.
    rewrite loc_of_shr_record_of_loc. cbn [round_nearest_even].
    subst m1. rewrite E, Z.sub_diag. cbn. apply Z.div_1_r.
  - apply finish_spec; [apply fexp32_ge|lia|].
    pose proof (Zdigits2_bounds m Hm) as [Hlo Hhi].
    pose proof (Zdigits2_pos m Hm) as Hd.
    destruct (Z.le_gt_cases (-149) (Zdigits2 m + e - 24)) as [Hn|Hs].
    + left.
      assert (E1 : e1 = Zdigits2 m + e - 24) by (subst e1; unfold fexp32; lia).
      assert (2 ^ 23 <= m1 < 2 ^ 24); [|lia].
      subst m1. split.
      * apply div_pow2_ge; try lia.
        replace (e1 - e + 23) with (Zdigits2 m - 1) by lia. exact Hlo.
      * apply div_pow2_lt; try lia.
        replace (e1 - e + 24) with (Zdigits2 m) by lia. exact Hhi.
    + right.
      assert (E1 : e1 = -149) by (subst e1; unfold fexp32; lia).
      split; [exact E1|].
      assert (m1 < 2 ^ 23); [|lia].
      subst m1. apply div_pow2_lt; try lia.
      apply Z.lt_le_trans with (1 := Hhi).
      apply Z.pow_le_mono_r; lia.
Qed.

Lemma pos_iter_xO m d : Zpos (Pos.iter xO m d) = Zpos m * 2 ^ Zpos d.
Proof.
  rewrite <- Z.shiftl_mul_pow2 by lia.
  cbn [Z.shiftl].
  apply (Pos.iter_swap_gen _ _ Zpos xO (Z.mul 2)).
  intros a. reflexivity.
Qed.

Lemma shl_align_spec mx ex ex' :
  Zpos (fst (shl_align mx ex ex')) = Zpos mx * 2 ^ Z.max 0 (ex - ex')
  /\ snd (shl_align mx ex ex') = Z.min ex ex'.
Proof.
  unfold shl_align. destruct (ex' - ex) as [|d|d] eqn:E; cbn [fst snd].
  - replace (Z.max 0 (ex - ex')) with 0 by lia. cbn. split; lia.
  - replace (Z.max 0 (ex - ex')) with 0 by lia. cbn. split; lia.
  - rewrite pos_iter_xO. replace (Z.max 0 (ex - ex')) with (Zpos d) by lia.
    split; lia.
Qed.

Lemma Zdigits2_mul_pow2 m j :
  0 < m -> 0 <= j -> Zdigits2 (m * 2 ^ j) = Zdigits2 m + j.
Proof.
  intros Hm Hj.
  pose proof (Zdigits2_bounds m Hm) as [Hlo Hhi].
  pose proof (Zdigits2_pos m Hm) as Hd.
  pose proof (pow2_pos j Hj) as Hp.
  apply Zdigits2_unique; [|lia]. split.
  - replace (Zdigits2 m + j - 1) with (Zdigits2 m - 1 + j) by lia.
    rewrite Z.pow_add_r by lia. apply Z.mul_le_mono_nonneg_r; lia.
  - rewrite Z.pow_add_r by lia. apply Z.mul_lt_mono_pos_r; lia.
Qed.

Lemma binary_round_spec sx mx ex :
  let e1 := fexp32 (Zdigits2 (Zpos mx) + ex) in
  exists Q,
    (e1 <= ex -> Q = Zpos mx * 2 ^ (ex - e1))
    /\ (ex < e1 -> Zpos mx / 2 ^ (e1 - ex) <= Q <= Zpos mx / 2 ^ (e1 - ex) + 1)
    /\ rounds_to sx Q e1 (binary_round 24 128 sx mx ex).
Proof.
  intros e1. unfold binary_round. rewrite fexp32_eq.
  change (Zpos (digits2_pos mx)) with (Zdigits2 (Zpos mx)). fold e1.
  destruct (shl_align_spec mx ex e1) as [Hm He].
  destruct (shl_align mx ex e1) as [mz ez]. cbn [fst snd] in Hm, He.
  assert (Hd : Zdigits2 (Zpos mz) + ez = Zdigits2 (Zpos mx) + ex).
  { rewrite Hm, Zdigits2_mul_pow2 by lia. lia. }
  destruct (binary_round_aux_spec sx (Zpos mz) ez loc_Exact) as (Q & HQ & Hex & Hr).
  { lia. }
  { rewrite Hd. fold e1. lia. }
  rewrite Hd in HQ, Hex, Hr. fold e1 in HQ, Hex, Hr.
  exists Q. split; [|split; [|exact Hr]].
  - intros Hle. rewrite Hex; [|lia|reflexivity].
    rewrite Hm. f_equal. f_equal. lia.
  - intros Hlt. replace ez with ex in HQ by lia.
    assert (Em : Zpos mz = Zpos mx).
    { rewrite Hm. replace (Z.max 0 (ex - e1)) with 0 by lia. apply Z.mul_1_r. }
    rewrite Em in HQ. exact HQ.
Qed.

Lemma rounds_to_rounded sx Q e1 r :
  -149 <= e1 -> rounds_to sx Q e1 r -> rounded sx (Q * 2 ^ (e1 + 149)) r.
Proof.
  intros He [[-> ->]|[(HQ & -> & Hb)|(HQ & m2 & e2 & -> & Hb & Hv)]].
  - left. split; reflexivity.
  - right; left. split; [|split; [reflexivity|exact Hb]].
    apply Z.mul_pos_pos; [exact HQ|apply pow2_pos; lia].
  - right; right. split.
    + apply Z.mul_pos_pos; [exact HQ|apply pow2_pos; lia].
    + exists m2, e2. repeat split; assumption.
Qed.

(** Rounding an integer multiple of [2 ^ ez]: the result is a multiple of
    the grid of the target, less than one grid step away. *)
Lemma binary_normalize_spec S ez :
  -149 <= ez -> S <> 0 ->
  let V := Z.abs S * 2 ^ (ez + 149) in
  let e1 := fexp32 (Zdigits2 V - 149) in
  let G := 2 ^ (e1 + 149) in
  exists R,
    V - G < R <= V + G
    /\ (exists Q, R = Q * G)
    /\ (e1 <= ez -> R = V)
    /\ rounded (S <? 0) R (binary_normalize 24 128 S ez false).
Proof.
  intros Hez HS V e1 G.
  assert (Hgen : forall sx p, Z.abs S = Zpos p ->
            exists R, V - G < R <= V + G /\ (exists Q, R = Q * G)
              /\ (e1 <= ez -> R = V)
              /\ rounded sx R (binary_round 24 128 sx p ez)).
  { intros sx p Ep.
    assert (Ed : Zdigits2 V - 149 = Zdigits2 (Zpos p) + ez).
    { subst V. rewrite Ep, Zdigits2_mul_pow2 by lia. lia. }
    destruct (binary_round_spec sx p ez) as (Q & Hex & Hin & Hr).
    rewrite <- Ed in Hex, Hin, Hr. fold e1 in Hex, Hin, Hr.
    assert (He1 : -149 <= e1) by apply fexp32_ge.
    exists (Q * G). split; [|split; [exists Q; reflexivity|split]].
    - subst V. rewrite Ep.
      destruct (Z.le_gt_cases e1 ez) as [Hle|Hgt].
      + rewrite (Hex Hle). subst G.
        rewrite <- Z.mul_assoc, <- Z.pow_add_r by lia.
        replace (ez - e1 + (e1 + 149)) with (ez + 149) by lia.
        pose proof (pow2_pos (e1 + 149)). lia.
      + specialize (Hin Hgt).
        assert (EG : G = 2 ^ (e1 - ez) * 2 ^ (ez + 149)).
        { subst G. rewrite <- Z.pow_add_r by lia. f_equal. lia. }
        rewrite EG.
        pose proof (pow2_pos (e1 - ez)) as Hk.
        pose proof (pow2_pos (ez + 149)) as Hw.
        pose proof (Z.div_mod (Zpos p) (2 ^ (e1 - ez))) as Hdm.
        pose proof (Z.mod_pos_bound (Zpos p) (2 ^ (e1 - ez))) as Hmb.
        set (K := 2 ^ (e1 - ez)) in *. set (W := 2 ^ (ez + 149)) in *.
        set (q0 := Zpos p / K) in *. set (r0 := Zpos p mod K) in *.
        assert (Zpos p - K < Q * K <= Zpos p + K) by nia.
        nia.
    - intros Hle. rewrite (Hex Hle). subst V G. rewrite Ep.
      rewrite <- Z.mul_assoc, <- Z.pow_add_r by lia.
      f_equal. f_equal. lia.
    - apply rounds_to_rounded; assumption. }
  destruct S as [|p|p]; [contradiction| |]; cbn [binary_normalize Z.ltb Z.compare].
  - apply Hgen. reflexivity.
  - apply Hgen. reflexivity.
Qed.

Lemma canonical_lt m1 e1 m2 e2 :
  bounded 24 128 m1 e1 = true -> bounded 24 128 m2 e2 = true ->
  e1 < e2 -> Zpos m1 * 2 ^ (e1 + 149) < Zpos m2 * 2 ^ (e2 + 149).
Proof.
  intros B1 B2 Hlt.
  apply bounded_elim in B1. apply bounded_elim in B2.
  destruct B1 as [C1 _], B2 as [C2 _].
  pose proof (Zdigits2_bounds (Zpos m1) eq_refl) as [_ H1].
  pose proof (Zdigits2_bounds (Zpos m2) eq_refl) as [H2 _].
  unfold fexp32 in C1, C2.
  assert (D2 : Zdigits2 (Zpos m2) = 24) by lia.
  assert (D1 : Zdigits2 (Zpos m1) <= 24) by lia.
  assert (E1 : -149 <= e1) by lia.
  rewrite D2 in H2. change (24 - 1) with 23 in H2.
  assert (Zpos m1 < 2 ^ 24).
  { apply Z.lt_le_trans with (1 := H1). apply Z.pow_le_mono_r; lia. }
  apply Z.lt_le_trans with (2 ^ 24 * 2 ^ (e1 + 149)).
  { apply Z.mul_lt_mono_pos_r; [apply pow2_pos; lia|assumption]. }
  apply Z.le_trans with (2 ^ 23 * 2 ^ (e2 + 149)).
  - rewrite <- !Z.pow_add_r by lia. apply Z.pow_le_mono_r; lia.
  - apply Z.mul_le_mono_nonneg_r; [apply Z.lt_le_incl, pow2_pos; lia|assumption].
Qed.

Lemma bounded_emin m e : bounded 24 128 m e = true -> -149 <= e.
Proof. intros B. apply bounded_elim in B. destruct B as [C _]. unfold fexp32 in C. lia. Qed.

Lemma compare_mul_r a b w : 0 < w -> (a * w ?= b * w) = (a ?= b).
Proof.
  intros Hw. destruct (Z.compare_spec a b) as [->|L|G].
  - apply Z.compare_refl.
  - apply Z.compare_lt_iff. nia.
  - apply Z.compare_gt_iff. nia.
Qed.

Lemma compare_pos_bounded m1 e1 m2 e2 :
  bounded 24 128 m1 e1 = true -> bounded 24 128 m2 e2 = true ->
  match Z.compare e1 e2 with
  | Lt => Lt
  | Gt => Gt
  | Eq => Pos.compare_cont Eq m1 m2
  end = (Zpos m1 * 2 ^ (e1 + 149) ?= Zpos m2 * 2 ^ (e2 + 149)).
Proof.
  intros B1 B2.
  destruct (Z.compare_spec e1 e2) as [E|L|G].
  - subst e2. pose proof (bounded_emin _ _ B1).
    pose proof (pow2_pos (e1 + 149)).
    change (Pos.compare_cont Eq m1 m2) with (Zpos m1 ?= Zpos m2).
    symmetry. apply compare_mul_r. lia.
  - symmetry. apply Z.compare_lt_iff. now apply canonical_lt.
  - symmetry. apply Z.compare_gt_iff. now apply canonical_lt.
Qed.

(** On valid finite numbers the comparison is that of the values. *)
Lemma SFcompare_ulps x y :
  valid x = true -> valid y = true ->
  is_finite x = true -> is_finite y = true ->
  SFcompare x y = Some (ulps x ?= ulps y).
Proof.
  intros Vx Vy Fx Fy.
  destruct x as [sx| | |sx mx ex], y as [sy| | |sy my ey]; try discriminate;
    cbn [SFcompare ulps].
  - reflexivity.
  - pose proof (pow2_pos (ey + 149) ltac:(apply bounded_emin in Vy; lia)).
    destruct sy; cbn [cond_Zopp]; f_equal; symmetry.
    + apply Z.compare_gt_iff. lia.
    + apply Z.compare_lt_iff. lia.
  - pose proof (pow2_pos (ex + 149) ltac:(apply bounded_emin in Vx; lia)).
    destruct sx; cbn [cond_Zopp]; f_equal; symmetry.
    + apply Z.compare_lt_iff. lia.
    + apply Z.compare_gt_iff. lia.
  - cbn [valid valid_binary] in Vx, Vy.
    pose proof (pow2_pos (ex + 149) ltac:(apply bounded_emin in Vx; lia)).
    pose proof (pow2_pos (ey + 149) ltac:(apply bounded_emin in Vy; lia)).
    f_equal. destruct sx, sy; cbn [cond_Zopp].
    + rewrite Z.compare_opp.
      rewrite (Z.compare_antisym (Zpos mx * 2 ^ (ex + 149)) (Zpos my * 2 ^ (ey + 149))).
      rewrite <- (compare_pos_bounded mx ex my ey Vx Vy).
      destruct (ex ?= ey); reflexivity.
    + symmetry. apply Z.compare_lt_iff. lia.
    + symmetry. apply Z.compare_gt_iff. lia.
    + apply compare_pos_bounded; assumption.
Qed.

Lemma bounded_ulps_lt m e :
  bounded 24 128 m e = true -> 0 < Zpos m * 2 ^ (e + 149) < 2 ^ 277.
Proof.
  intros B. pose proof (bounded_emin _ _ B) as He.
  apply bounded_elim in B. destruct B as [C Hu].
  pose proof (Zdigits2_bounds (Zpos m) eq_refl) as [_ H1].
  unfold fexp32 in C.
  assert (Zpos m < 2 ^ 24).
  { apply Z.lt_le_trans with (1 := H1). apply Z.pow_le_mono_r; lia. }
  pose proof (pow2_pos (e + 149) ltac:(lia)).
  split; [lia|].
  apply Z.lt_le_trans with (2 ^ 24 * 2 ^ (e + 149)).
  - apply Z.mul_lt_mono_pos_r; lia.
  - rewrite <- Z.pow_add_r by lia. apply Z.pow_le_mono_r; lia.
Qed.

Lemma ulps_bound x : valid x = true -> - 2 ^ 277 < ulps x < 2 ^ 277.
Proof.
  destruct x as [s| s | |s m e]; cbn [ulps]; intros V; try (cbn; lia).
  pose proof (bounded_ulps_lt m e V). destruct s; cbn [cond_Zopp]; lia.
Qed.

Lemma SFcompare_ord x y :
  valid x = true -> valid y = true ->
  is_nan x = false -> is_nan y = false ->
  SFcompare x y = Some (ord x ?= ord y).
Proof.
  intros Vx Vy Nx Ny.
  pose proof (ulps_bound x Vx) as Bx. pose proof (ulps_bound y Vy) as By.
  assert (H300 : 2 ^ 277 < 2 ^ 300) by (apply Z.pow_lt_mono_r; lia).
  destruct x as [sx|sx| |sx mx ex] eqn:Ex; try discriminate;
  destruct y as [sy|sy| |sy my ey] eqn:Ey; try discriminate;
  try (rewrite <- Ex, <- Ey; unfold ord; rewrite Ex, Ey;
       rewrite <- Ex, <- Ey; apply SFcompare_ulps; subst; trivial; fail);
  cbn [SFcompare ord] in *; f_equal; symmetry;
  repeat match goal with s : bool |- _ => destruct s end; cbn [cond_Zopp];
  first [apply Z.compare_eq_iff; lia | apply Z.compare_lt_iff; lia
        | apply Z.compare_gt_iff; lia].
Qed.

Lemma leb_ord x y :
  valid x = true -> valid y = true -> is_nan x = false -> is_nan y = false ->
  SFleb x y = (ord x <=? ord y).
Proof.
  intros. unfold SFleb. rewrite SFcompare_ord by assumption.
  unfold Z.leb. destruct (ord x ?= ord y); reflexivity.
Qed.

Lemma ltb_ord x y :
  valid x = true -> valid y = true -> is_nan x = false -> is_nan y = false ->
  SFltb x y = (ord x <? ord y).
Proof.
  intros. unfold SFltb. rewrite SFcompare_ord by assumption.
  unfold Z.ltb. destruct (ord x ?= ord y); reflexivity.
Qed.

Lemma rounded_valid sx R r : rounded sx R r -> valid r = true /\ is_nan r = false.
Proof.
  intros [[_ ->]|[(_ & -> & _)|(_ & m & e & -> & B & _)]]; split; try reflexivity.
  exact B.
Qed.

Lemma rounded_ord sx R r :
  rounded sx R r -> R < 2 ^ 277 -> is_finite r = true /\ ord r = cond_Zopp sx R.
Proof.
  intros [[-> ->]|[(_ & -> & Hb)|(_ & m & e & -> & B & E)]] HR.
  - split; [reflexivity|]. destruct sx; reflexivity.
  - lia.
  - split; [reflexivity|]. cbn [ord ulps]. now rewrite E.
Qed.

Lemma rounded_sign sx R r :
  rounded sx R r ->
  r = S754_zero sx \/ r = S754_infinity sx \/ exists m e, r = S754_finite sx m e.
Proof.
  intros [[_ ->]|[(_ & -> & _)|(_ & m & e & -> & _)]]; eauto.
Qed.

Lemma shl_align_ulps m e ez :
  -149 <= ez -> ez <= e ->
  Zpos (fst (shl_align m e ez)) * 2 ^ (ez + 149) = Zpos m * 2 ^ (e + 149).
Proof.
  intros H1 H2. destruct (shl_align_spec m e ez) as [-> _].
  rewrite Z.max_r by lia.
  rewrite <- Z.mul_assoc, <- Z.pow_add_r by lia. f_equal. f_equal. lia.
Qed.

Lemma cond_Zopp_mul s a b : cond_Zopp s a * b = cond_Zopp s (a * b).
Proof. destruct s; cbn [cond_Zopp]; ring. Qed.

Lemma normalize_sum S ez V :
  -149 <= ez -> V = S * 2 ^ (ez + 149) ->
  sum_rounds_to V (binary_normalize 24 128 S ez false).
Proof.
  intros Hez EV.
  pose proof (pow2_pos (ez + 149) ltac:(lia)) as Hw.
  split.
  - intros V0. assert (S = 0) as -> by nia. exists false. reflexivity.
  - intros Vn G. assert (HS : S <> 0) by nia.
    destruct (binary_normalize_spec S ez Hez HS) as (R & HR & HQ & _ & Hr).
    assert (EA : Z.abs S * 2 ^ (ez + 149) = Z.abs V).
    { rewrite EV, Z.abs_mul. f_equal. lia. }
    rewrite EA in HR, HQ. fold G in HR, HQ.
    exists R. split; [exact HR|split; [exact HQ|]].
    replace (V <? 0) with (S <? 0); [exact Hr|].
    destruct (Z.ltb_spec S 0), (Z.ltb_spec V 0); try reflexivity; nia.
Qed.

Lemma exact_sum_rounds_to m e s :
  bounded 24 128 m e = true ->
  sum_rounds_to (cond_Zopp s (Zpos m * 2 ^ (e + 149))) (S754_finite s m e).
Proof.
  intros B. pose proof (bounded_ulps_lt m e B) as [Hp _].
  pose proof (bounded_emin m e B) as He.
  split; [destruct s; cbn [cond_Zopp]; lia|].
  intros _ G.
  assert (EA : Z.abs (cond_Zopp s (Zpos m * 2 ^ (e + 149))) = Zpos m * 2 ^ (e + 149)).
  { destruct s; cbn [cond_Zopp]; lia. }
  assert (EG : G = 2 ^ (e + 149)).
  { subst G. rewrite EA, Zdigits2_mul_pow2 by lia.
    apply bounded_elim in B. destruct B as [C _].
    replace (Zdigits2 (Zpos m) + (e + 149) - 149) with (Zdigits2 (Zpos m) + e) by lia.
    now rewrite C. }
  rewrite EA, EG. pose proof (pow2_pos (e + 149) ltac:(lia)).
  exists (Zpos m * 2 ^ (e + 149)). split; [lia|]. split; [exists (Zpos m); reflexivity|].
  right; right. split; [lia|]. exists m, e.
  replace (cond_Zopp s (Zpos m * 2 ^ (e + 149)) <? 0) with s.
  - repeat split. exact B.
  - destruct s; cbn [cond_Zopp]; symmetry; [apply Z.ltb_lt|apply Z.ltb_ge]; lia.
Qed.


Lemma SFsub_spec x y :
  valid x = true -> valid y = true ->
  is_finite x = true -> is_finite y = true ->
  sum_rounds_to (ulps x - ulps y) (SFsub 24 128 x y).
Proof.
  intros Vx Vy Fx Fy.
  destruct x as [sx| | |sx mx ex], y as [sy| | |sy my ey]; try discriminate.
  - split; [|cbn; lia]. intros _. cbn [SFsub]. destruct sx, sy; eauto.
  - cbn [SFsub ulps]. rewrite Z.sub_0_l.
    replace (- cond_Zopp sy (Zpos my * 2 ^ (ey + 149)))
      with (cond_Zopp (negb sy) (Zpos my * 2 ^ (ey + 149)))
      by (destruct sy; cbn [cond_Zopp negb]; lia).
    now apply exact_sum_rounds_to.
  - cbn [SFsub ulps]. rewrite Z.sub_0_r. now apply exact_sum_rounds_to.
  - cbn [SFsub ulps]. cbn [valid valid_binary] in Vx, Vy.
    pose proof (bounded_emin _ _ Vx). pose proof (bounded_emin _ _ Vy).
    apply normalize_sum; [lia|].
    rewrite Z.mul_sub_distr_r, !cond_Zopp_mul, !shl_align_ulps by lia.
    reflexivity.
Qed.

Lemma Zdigits2_mono a b : 0 < a -> a <= b -> Zdigits2 a <= Zdigits2 b.
Proof.
  intros Ha Hab. rewrite !Zdigits2_log2 by lia.
  pose proof (Z.log2_le_mono a b Hab). lia.
Qed.


Lemma rounded_neg_ord R r : rounded true R r -> ord r <= 0.
Proof.
  intros Hr. destruct (rounded_sign _ _ _ Hr) as [->|[->|(m & e & ->)]];
    cbn [ord ulps cond_Zopp].
  - lia.
  - pose proof (pow2_pos 300). lia.
  - pose proof (Z.pow_nonneg 2 (e + 149)). nia.
Qed.

Lemma SFsub_le_pos mx ex md ed :
  bounded 24 128 mx ex = true -> bounded 24 128 md ed = true ->
  let x := S754_finite false mx ex in
  let r := SFsub 24 128 x (S754_finite false md ed) in
  valid r = true /\ is_nan r = false /\ ord r <= ord x.
Proof.
  intros Bx Bd x r.
  pose proof (bounded_ulps_lt mx ex Bx) as [HU HUlt].
  pose proof (bounded_ulps_lt md ed Bd) as [HD _].
  pose proof (bounded_emin mx ex Bx) as Hemin.
  destruct (SFsub_spec x (S754_finite false md ed) Bx Bd eq_refl eq_refl) as [H0 Hn].
  fold r in H0, Hn. cbn [ulps cond_Zopp x] in H0, Hn.
  cbn [ord ulps cond_Zopp x].
  set (U := Zpos mx * 2 ^ (ex + 149)) in *.
  set (D := Zpos md * 2 ^ (ed + 149)) in *.
  destruct (Z.eq_dec (U - D) 0) as [EV|NV].
  { destruct (H0 EV) as [s Es]. rewrite Es.
    cbn [valid valid_binary is_nan ord ulps]. repeat split; lia. }
  destruct (Hn NV) as (R & HR & (Q & HQ) & Hr).
  destruct (rounded_valid _ _ _ Hr) as [Vr Nr].
  split; [exact Vr|split; [exact Nr|]].
  destruct (Z.ltb_spec (U - D) 0) as [Hneg|Hpos].
  { pose proof (rounded_neg_ord _ _ Hr). lia. }
  rewrite Z.abs_eq in HR, HQ by lia.
  set (e1 := fexp32 (Zdigits2 (U - D) - 149)) in *.
  assert (He1 : e1 <= ex).
  { subst e1. pose proof (bounded_elim _ _ Bx) as [C _].
    apply Z.le_trans with (fexp32 (Zdigits2 (Zpos mx) + ex)); [|lia].
    apply fexp32_mono.
    assert (Hm : Zdigits2 (U - D) <= Zdigits2 U) by (apply Zdigits2_mono; lia).
    assert (EdU : Zdigits2 U = Zdigits2 (Zpos mx) + (ex + 149)).
    { subst U. apply Zdigits2_mul_pow2; lia. }
    lia. }
  pose proof (fexp32_ge (Zdigits2 (U - D) - 149)) as Hge. fold e1 in Hge.
  assert (EU : U = Zpos mx * 2 ^ (ex - e1) * 2 ^ (e1 + 149)).
  { subst U. rewrite <- Z.mul_assoc, <- Z.pow_add_r by lia.
    f_equal. f_equal. lia. }
  pose proof (pow2_pos (e1 + 149) ltac:(lia)) as HG.
  set (G := 2 ^ (e1 + 149)) in *.
  assert (HRU : R <= U).
  { rewrite EU, HQ. apply Z.mul_le_mono_nonneg_r; [lia|].
    assert (Q * G < (Zpos mx * 2 ^ (ex - e1) + 1) * G) by lia.
    assert (Q < Zpos mx * 2 ^ (ex - e1) + 1) by nia. lia. }
  destruct (rounded_ord _ _ _ Hr ltac:(lia)) as [_ Er].
  rewrite Er. cbn [cond_Zopp]. exact HRU.
Qed.

(** Subtracting a finite number that is not negative does not increase. *)
Lemma SFsub_le x d :
  valid x = true -> valid d = true ->
  is_nan x = false -> 0 <= ord x ->
  is_finite d = true -> 0 <= ord d ->
  valid (SFsub 24 128 x d) = true
  /\ is_nan (SFsub 24 128 x d) = false
  /\ ord (SFsub 24 128 x d) <= ord x.
Proof.
  intros Vx Vd Nx Hx Fd Hd.
  assert (Hneg : forall m e, bounded 24 128 m e = true ->
                   ~ 0 <= ord (S754_finite true m e)).
  { intros m e B. pose proof (bounded_ulps_lt m e B).
    cbn [ord ulps cond_Zopp]. lia. }
  destruct d as [sd| | |sd md ed]; try discriminate.
  - (* minus a zero *)
    destruct x as [sx|sx| |sx mx ex]; try discriminate.
    + destruct sx, sd; cbn; repeat split; lia.
    + cbn. repeat split; lia.
    + cbn [SFsub]. repeat split; trivial; lia.
  - destruct sd; [exfalso; now apply (Hneg md ed)|].
    destruct x as [sx|sx| |sx mx ex]; try discriminate.
    + cbn [SFsub negb]. split; [exact Vd|]. split; [reflexivity|].
      pose proof (bounded_ulps_lt md ed Vd). cbn [ord ulps cond_Zopp]. lia.
    + destruct sx; [cbn in Hx; lia|]. cbn. repeat split; lia.
    + destruct sx; [exfalso; now apply (Hneg mx ex)|].
      now apply SFsub_le_pos.
Qed.


Lemma signed_as_not_nan sx r : signed_as sx r -> is_nan r = false.
Proof. intros [->|[->|(m & e & ->)]]; reflexivity. Qed.

Lemma finish_signed sx Q e : 0 <= Q -> signed_as sx (finish sx Q e).
Proof.
  intros HQ. unfold finish.
  destruct (shr_fexp_spec Q e loc_Exact HQ) as (A & _ & _).
  destruct (shr_fexp 24 128 Q e loc_Exact) as [mrs e'']. cbn [fst] in A.
  assert (0 <= shr_m mrs).
  { rewrite A. apply Z.div_pos; [exact HQ|]. apply pow2_pos. lia. }
  destruct (shr_m mrs) as [|m|m]; try lia.
  - left; reflexivity.
  - destruct (e'' <=? 104); [right; right; eauto|right; left; reflexivity].
Qed.

Lemma binary_round_aux_signed sx m e l :
  0 <= m -> signed_as sx (binary_round_aux 24 128 sx m e l).
Proof.
  intros Hm. rewrite binary_round_aux_finish. apply finish_signed.
  destruct (shr_fexp_spec m e l Hm) as (A & _ & _). rewrite A.
  pose proof (round_nearest_even_bounds
                (m / 2 ^ Z.max 0 (fexp32 (Zdigits2 m + e) - e))
                (loc_of_shr_record (fst (shr_fexp 24 128 m e l)))).
  assert (0 <= m / 2 ^ Z.max 0 (fexp32 (Zdigits2 m + e) - e)).
  { apply Z.div_pos; [exact Hm|]. apply pow2_pos. lia. }
  lia.
Qed.

Lemma binary_round_signed sx m e : signed_as sx (binary_round 24 128 sx m e).
Proof.
  unfold binary_round.
  destruct (shl_align m e (fexp 24 128 (Zpos (digits2_pos m) + e))) as [mz ez].
  apply binary_round_aux_signed. lia.
Qed.

Lemma binary_normalize_not_nan S e s :
  is_nan (binary_normalize 24 128 S e s) = false.
Proof.
  destruct S; cbn [binary_normalize]; [reflexivity| |];
    apply (signed_as_not_nan _ _ (binary_round_signed _ _ _)).
Qed.

Lemma Zdigits2_0 : Zdigits2 0 = 0.
Proof. reflexivity. Qed.

Lemma Zdigits2_nonneg m : 0 <= m -> 0 <= Zdigits2 m.
Proof. destruct m; cbn; lia. Qed.

Lemma Zdigits2_le0 m k : 0 <= m -> 0 <= k -> m < 2 ^ k -> Zdigits2 m <= k.
Proof.
  intros Hm Hk Hlt. destruct (Z.eq_dec m 0) as [->|]; [cbn; lia|].
  apply Zdigits2_le; lia.
Qed.

(** No overflow when the number rounded is below [2 ^ 127]. *)
Lemma binary_round_aux_no_overflow sx m e l :
  0 <= m -> e <= 103 -> Zdigits2 m + e <= 127 ->
  is_finite (binary_round_aux 24 128 sx m e l) = true.
Proof.
  intros Hm He Hd. rewrite binary_round_aux_finish.
  destruct (shr_fexp_spec m e l Hm) as (A & B & _).
  set (k := Z.max 0 (fexp32 (Zdigits2 m + e) - e)) in *.
  rewrite A, B.
  set (m1 := m / 2 ^ k).
  pose proof (round_nearest_even_bounds m1
                (loc_of_shr_record (fst (shr_fexp 24 128 m e l)))) as HQ.
  set (Q := round_nearest_even m1 _) in *.
  assert (Hk : 0 <= k) by (subst k; lia).
  assert (Hm1 : 0 <= m1) by (apply Z.div_pos; [exact Hm|apply pow2_pos; lia]).
  assert (He' : e + k <= 103) by (subst k; unfold fexp32; lia).
  assert (HdQ : Zdigits2 Q + (e + k) <= 128).
  { set (j := Z.max (Zdigits2 m - k) 0).
    assert (Hm1j : m1 < 2 ^ j).
    { destruct (Z.eq_dec m 0) as [->|Hnz].
      - subst m1. rewrite Z.div_0_l by (apply Z.pow_nonzero; lia).
        apply pow2_pos. subst j; lia.
      - pose proof (Zdigits2_bounds m ltac:(lia)) as [_ Hhi].
        subst m1. apply div_pow2_lt; [lia|subst j; lia|].
        apply Z.lt_le_trans with (1 := Hhi).
        apply Z.pow_le_mono_r; [lia|subst j; lia]. }
    assert (Q < 2 ^ (j + 1)).
    { rewrite Z.pow_add_r by (subst j; lia). change (2 ^ 1) with 2. lia. }
    assert (Zdigits2 Q <= j + 1) by (apply Zdigits2_le0; subst j; lia).
    pose proof (Zdigits2_nonneg m Hm). subst j. lia. }
  unfold finish.
  destruct (shr_fexp_spec Q (e + k) loc_Exact ltac:(lia)) as (A2 & B2 & _).
  destruct (shr_fexp 24 128 Q (e + k) loc_Exact) as [mrs e''].
  cbn [fst snd] in A2, B2.
  assert (0 <= shr_m mrs).
  { rewrite A2. apply Z.div_pos; [lia|]. apply pow2_pos. lia. }
  destruct (shr_m mrs) as [|m2|m2]; try lia; [reflexivity|].
  assert (e'' <= 104) by (rewrite B2; unfold fexp32; lia).
  apply Z.leb_le in H0. rewrite H0. reflexivity.
Qed.

Lemma SFdiv_core_bounds m1 e1 m2 e2 :
  0 < m1 -> 0 < m2 ->
  let '(q, e', _) := SFdiv_core_binary 24 128 m1 e1 m2 e2 in
  0 <= q /\ e' <= e1 - e2 /\ Zdigits2 q + e' <= Zdigits2 m1 + e1 - e2.
Proof.
  intros H1 H2. unfold SFdiv_core_binary.
  remember (Z.min (fexp 24 128 (Zdigits2 m1 + e1 - (Zdigits2 m2 + e2))) (e1 - e2))
    as e' eqn:Ee'.
  remember (e1 - e2 - e') as s eqn:Es.
  assert (Hs : 0 <= s) by lia.
  remember (match s with Zpos _ => Z.shiftl m1 s | Z0 => m1 | Zneg _ => 0 end)
    as m' eqn:Em.
  assert (Em' : m' = m1 * 2 ^ s).
  { rewrite Em. destruct s as [|p|p]; try lia.
    apply Z.shiftl_mul_pow2. lia. }
  pose proof (Z_div_mod m' m2 ltac:(lia)) as Hdm.
  destruct (Z.div_eucl m' m2) as [q r].
  destruct Hdm as [Eq Hr].
  pose proof (pow2_pos s Hs) as Hp.
  assert (Hq : 0 <= q) by nia.
  assert (Hqm : q <= m') by nia.
  split; [exact Hq|]. split; [lia|].
  destruct (Z.eq_dec q 0) as [->|Hnz].
  - cbn [Zdigits2]. pose proof (Zdigits2_pos m1 H1). lia.
  - assert (Hd : Zdigits2 q <= Zdigits2 m') by (apply Zdigits2_mono; lia).
    rewrite Em', Zdigits2_mul_pow2 in Hd by lia. lia.
Qed.

Lemma SFdiv_finite_no_overflow sx mx ex sy my ey :
  ex - ey <= 103 -> Zdigits2 (Zpos mx) + ex - ey <= 127 ->
  is_finite (SFdiv 24 128 (S754_finite sx mx ex) (S754_finite sy my ey)) = true.
Proof.
  intros He Hd. cbn [SFdiv].
  pose proof (SFdiv_core_bounds (Zpos mx) ex (Zpos my) ey eq_refl eq_refl) as Hc.
  destruct (SFdiv_core_binary 24 128 (Zpos mx) ex (Zpos my) ey) as [[q e'] l].
  destruct Hc as (Hq & He' & Hdq).
  apply binary_round_aux_no_overflow; lia.
Qed.

Lemma SFmul_finite_not_nan x y :
  is_finite x = true -> is_finite y = true -> is_nan (SFmul 24 128 x y) = false.
Proof.
  destruct x as [sx| | |sx mx ex], y as [sy| | |sy my ey]; try discriminate;
    intros _ _; try reflexivity.
  cbn [SFmul]. apply (signed_as_not_nan (xorb sx sy)).
  apply binary_round_aux_signed. lia.
Qed.

(** Multiplying by a finite number that is not zero. *)
Lemma SFmul_scale_not_nan x s m e :
  is_nan x = false -> is_nan (SFmul 24 128 x (S754_finite s m e)) = false.
Proof.
  destruct x as [sx|sx| |sx mx ex]; try discriminate; intros _; try reflexivity.
  cbn [SFmul]. apply (signed_as_not_nan (xorb sx s)).
  apply binary_round_aux_signed. lia.
Qed.

Lemma SFadd_finite_not_nan x y :
  is_finite x = true -> is_nan y = false -> is_nan (SFadd 24 128 x y) = false.
Proof.
  destruct x as [sx| | |sx mx ex], y as [sy|sy| |sy my ey]; try discriminate;
    intros _ _; try reflexivity.
  - cbn [SFadd]. destruct sx, sy; reflexivity.
  - cbn [SFadd]. apply binary_normalize_not_nan.
Qed.

Lemma SFcompare_antisym x y :
  SFcompare y x = option_map CompOpp (SFcompare x y).
Proof.
  destruct x as [sx|sx| |sx mx ex], y as [sy|sy| |sy my ey];
    cbn [SFcompare option_map]; try reflexivity;
    try (destruct sx; reflexivity); try (destruct sy; reflexivity);
    try (destruct sx, sy; reflexivity).
  f_equal. destruct sx, sy; try reflexivity.
  - rewrite (Z.compare_antisym ex ey).
    destruct (ex ?= ey); cbn [CompOpp]; try reflexivity.
    rewrite CompOpp_involutive.
    apply (Pos.compare_cont_antisym my mx Eq).
  - rewrite (Z.compare_antisym ex ey).
    destruct (ex ?= ey); cbn [CompOpp]; try reflexivity.
    symmetry. apply (Pos.compare_cont_antisym mx my Eq).
Qed.

Lemma SFcompare_not_nan x y :
  is_nan x = false -> is_nan y = false -> exists c, SFcompare x y = Some c.
Proof.
  destruct x, y; try discriminate; intros _ _; cbn [SFcompare]; eauto.
Qed.

(** Without a NaN, [not (a < b)] is [b <= a]. *)
Lemma SFltb_false_leb a b :
  is_nan a = false -> is_nan b = false ->
  SFltb a b = false -> SFleb b a = true.
Proof.
  intros Na Nb. unfold SFltb, SFleb. rewrite (SFcompare_antisym a b).
  destruct (SFcompare_not_nan a b Na Nb) as [c ->]. cbn [option_map].
  destruct c; cbn [CompOpp]; congruence.
Qed.

End F32Facts.
(* ------------------------------------------------------------------ *)
(** ** The step function depends on its three arguments only *)

Section Determinism.
Context `{CMath}.





End Determinism.

(* ------------------------------------------------------------------ *)
(** ** How the passes of [Update] touch the players *)

Section Passes.
Context `{CMath}.

Import GameSimulation.

Lemma get_set_same ps i p : get (set ps i p) i = p.
Proof. destruct i; reflexivity. Qed.

Lemma get_set_other ps i j p : i <> j -> get (set ps i p) j = get ps j.
Proof. destruct i, j; intros N; try reflexivity; contradiction. Qed.

(** The inner loop changes nothing, or hits one living player that is
    not the owner. *)
Lemma hit_scan_cases todo ps proj :
  hit_scan todo ps proj = (ps, proj)
  \/ exists i, In i todo
       /\ ProjectileState.ownerID proj <> index_Z i
       /\ PlayerState.alive (get ps i) = true
       /\ hit_scan todo ps proj
          = (set ps i (apply_hit (get ps i) proj),
             ProjectileState.set_active proj false).
Proof.
  induction todo as [|i rest IH]; cbn [hit_scan].
  - left; reflexivity.
  - destruct (ProjectileState.ownerID proj =? index_Z i) eqn:Eo.
    { destruct IH as [IH|(j & Hj & IH)]; [left; exact IH|].
      right; exists j; split; [right; exact Hj|exact IH]. }
    destruct (PlayerState.alive (get ps i)) eqn:Ea; cbn [negb].
    2:{ destruct IH as [IH|(j & Hj & IH)]; [left; exact IH|].
        right; exists j; split; [right; exact Hj|exact IH]. }
    match goal with |- context [if ?c then _ else _] => destruct c end.
    + right; exists i. split; [left; reflexivity|].
      split; [apply Z.eqb_neq; exact Eo|]. split; [exact Ea|reflexivity].
    + destruct IH as [IH|(j & Hj & IH)]; [left; exact IH|].
      right; exists j; split; [right; exact Hj|exact IH].
Qed.

(** An invariant of the players that every hit by a projectile of the
    list keeps is kept by the whole collision pass. *)
Lemma collide_invariant (P : Players -> Prop) (Q : ProjectileState.t -> Prop) :
  (forall ps i proj,
      P ps -> Q proj ->
      ProjectileState.ownerID proj <> index_Z i ->
      PlayerState.alive (get ps i) = true ->
      P (set ps i (apply_hit (get ps i) proj))) ->
  forall projs ps, Forall Q projs -> P ps -> P (fst (collide ps projs)).
Proof.
  intros Hhit projs. induction projs as [|proj rest IH]; intros ps HQ HP.
  - exact HP.
  - inversion HQ as [|? ? Hq Hrest]; subst.
    cbn [collide].
    destruct (negb (ProjectileState.active proj)).
    + specialize (IH ps Hrest HP).
      destruct (collide ps rest) as [ps2 rest2]. exact IH.
    + destruct (hit_scan_cases [Player0; Player1] ps proj)
        as [E|(i & _ & Ho & Ha & E)]; rewrite E.
      * specialize (IH ps Hrest HP).
        destruct (collide ps rest) as [ps2 rest2]. exact IH.
      * specialize (IH _ Hrest (Hhit ps i proj HP Hq Ho Ha)).
        destruct (collide _ rest) as [ps2 rest2]. exact IH.
Qed.


Lemma move_projectile_damage p :
  ProjectileState.damage (move_projectile p) = ProjectileState.damage p.
Proof.
  unfold move_projectile.
  destruct (negb (ProjectileState.active p)); [reflexivity|].
  match goal with |- context [if ?c then _ else _] => destruct c end; reflexivity.
Qed.



Lemma step_after_collisions e s i0 i1 :
  step e s i0 i1 = CheckWinConditions e (after_collisions e s i0 i1).
Proof. reflexivity. Qed.

Lemma after_collisions_players e s i0 i1 :
  GameState.players (after_collisions e s i0 i1)
  = fst (collide (players_before_collisions s i0 i1 e)
                 (projectiles_before_collisions s)).
Proof.
  unfold after_collisions, CheckCollisions, UpdateProjectiles,
    players_before_collisions, projectiles_before_collisions.
  destruct s as [[p0 p1] projs fn rt cr]; cbn.
  match goal with |- context [if ?c then _ else _] => destruct c end; cbn;
  match goal with |- context [collide ?a ?b] => destruct (collide a b) end;
  reflexivity.
Qed.

Lemma after_collisions_projectiles e s i0 i1 :
  GameState.projectiles (after_collisions e s i0 i1)
  = snd (collide (players_before_collisions s i0 i1 e)
                 (projectiles_before_collisions s)).
Proof.
  unfold after_collisions, CheckCollisions, UpdateProjectiles,
    players_before_collisions, projectiles_before_collisions.
  destruct s as [[p0 p1] projs fn rt cr]; cbn.
  match goal with |- context [if ?c then _ else _] => destruct c end; cbn;
  match goal with |- context [collide ?a ?b] => destruct (collide a b) end;
  reflexivity.
Qed.

Lemma player_get s i : GameState.player s i = get (GameState.players s) i.
Proof. destruct i; reflexivity. Qed.

Lemma same_but_roundWins_refl p : same_but_roundWins p p.
Proof. repeat split. Qed.

Lemma incr_roundWins_same s i j :
  same_but_roundWins (GameState.player (incr_roundWins s i) j) (GameState.player s j).
Proof.
  destruct s as [[p0 p1] projs fn rt cr], i, j; cbn; repeat split.
Qed.

Lemma CheckWinConditions_same e s j :
  same_but_roundWins (GameState.player (CheckWinConditions e s) j)
                     (GameState.player s j).
Proof.
  unfold CheckWinConditions.
  destruct (deadPlayer s).
  - apply incr_roundWins_same.
  - repeat match goal with |- context [if ?c then _ else _] => destruct c end;
      try apply incr_roundWins_same; apply same_but_roundWins_refl.
Qed.

Lemma CheckWinConditions_projectiles e s :
  GameState.projectiles (CheckWinConditions e s) = GameState.projectiles s.
Proof.
  unfold CheckWinConditions, incr_roundWins.
  destruct (deadPlayer s) as [[|]|];
    repeat match goal with |- context [if ?c then _ else _] => destruct c end;
    reflexivity.
Qed.

End Passes.

(* ------------------------------------------------------------------ *)
(** ** Dead players *)

Section DeadPlayers.
Context `{CMath}.

Import GameSimulation.

Lemma UpdatePlayer_dead e p input i :
  PlayerState.alive p = false -> UpdatePlayer e p input i = p.
Proof. intros Hd. unfold UpdatePlayer. now rewrite Hd. Qed.

Lemma players_before_collisions_get e s i0 i1 i :
  get (players_before_collisions s i0 i1 e) i
  = UpdatePlayer e (GameState.player s i) (match i with Player0 => i0 | Player1 => i1 end) i.
Proof. destruct i; reflexivity. Qed.

(** A player that is not alive comes out of the collision pass as it went
    in. *)
Lemma collide_dead_unchanged projs ps i :
  PlayerState.alive (get ps i) = false ->
  get (fst (collide ps projs)) i = get ps i.
Proof.
  intros Hd.
  apply (collide_invariant (fun ps' => get ps' i = get ps i) (fun _ => True)).
  - intros ps' j proj Hp _ _ Ha.
    rewrite get_set_other; [exact Hp|].
    intros ->. rewrite Hp, Hd in Ha. discriminate.
  - apply Forall_forall; intros; exact I.
  - reflexivity.
Qed.

Lemma after_collisions_dead e s i0 i1 i :
  PlayerState.alive (GameState.player s i) = false ->
  GameState.player (after_collisions e s i0 i1) i = GameState.player s i.
Proof.
  intros Hd.
  rewrite player_get, after_collisions_players.
  assert (Hpre : get (players_before_collisions s i0 i1 e) i = GameState.player s i).
  { rewrite players_before_collisions_get. now apply UpdatePlayer_dead. }
  rewrite collide_dead_unchanged; [exact Hpre|].
  now rewrite Hpre.
Qed.

(** C10.  A player that is not alive when [Update] is called has, in the
    state returned, the position, velocity, facing angle, hp, projectile
    cooldown and alive flag it had: only its [roundWins] can differ. *)
Theorem dead_player_frame :
  forall (e : GameSimulation.t) (s : GameState.t) (i0 i1 : InputState.t)
         (i : PlayerIndex),
    PlayerState.alive (GameState.player s i) = false ->
    let p := GameState.player s i in
    let p' := GameState.player (step e s i0 i1) i in
    PlayerState.position p' = PlayerState.position p
    /\ PlayerState.velocity p' = PlayerState.velocity p
    /\ PlayerState.facingAngle p' = PlayerState.facingAngle p
    /\ PlayerState.hp p' = PlayerState.hp p
    /\ PlayerState.projectileCooldown p' = PlayerState.projectileCooldown p
    /\ PlayerState.alive p' = PlayerState.alive p.
Proof.
  intros e s i0 i1 i Hd p p'. subst p p'.
  rewrite step_after_collisions.
  pose proof (CheckWinConditions_same e (after_collisions e s i0 i1) i) as Hs.
  rewrite (after_collisions_dead e s i0 i1 i Hd) in Hs.
  exact Hs.
Qed.

End DeadPlayers.

(* ------------------------------------------------------------------ *)
(** ** Round wins *)

Section RoundWins.
Context `{CMath}.

Import GameSimulation.

Lemma UpdatePlayer_roundWins e p input i :
  PlayerState.roundWins (UpdatePlayer e p input i) = PlayerState.roundWins p.
Proof.
  unfold UpdatePlayer.
  repeat match goal with |- context [if ?c then _ else _] => destruct c end;
    reflexivity.
Qed.

Lemma UpdatePlayer_alive e p input i :
  PlayerState.alive (UpdatePlayer e p input i) = PlayerState.alive p.
Proof.
  unfold UpdatePlayer.
  destruct (PlayerState.alive p) eqn:Ea; cbn [negb]; [|exact Ea].
  repeat match goal with |- context [if ?c then _ else _] => destruct c end;
    cbn; exact Ea.
Qed.

Lemma UpdatePlayer_hp e p input i :
  PlayerState.hp (UpdatePlayer e p input i) = PlayerState.hp p.
Proof.
  unfold UpdatePlayer.
  repeat match goal with |- context [if ?c then _ else _] => destruct c end;
    reflexivity.
Qed.

Lemma apply_hit_roundWins p proj :
  PlayerState.roundWins (apply_hit p proj) = PlayerState.roundWins p.
Proof.
  unfold apply_hit.
  match goal with |- context [if ?c then _ else _] => destruct c end; reflexivity.
Qed.

Lemma collide_roundWins projs ps j :
  PlayerState.roundWins (get (fst (collide ps projs)) j)
  = PlayerState.roundWins (get ps j).
Proof.
  apply (collide_invariant
           (fun ps' => PlayerState.roundWins (get ps' j)
                       = PlayerState.roundWins (get ps j))
           (fun _ => True)).
  - intros ps' i proj Hp _ _ _.
    destruct i, j; cbn [get set fst snd] in *;
      rewrite ?apply_hit_roundWins; exact Hp.
  - apply Forall_forall; intros; exact I.
  - reflexivity.
Qed.

Lemma after_collisions_roundWins e s i0 i1 j :
  PlayerState.roundWins (GameState.player (after_collisions e s i0 i1) j)
  = PlayerState.roundWins (GameState.player s j).
Proof.
  rewrite player_get, after_collisions_players, collide_roundWins.
  destruct j; cbn [get fst snd players_before_collisions];
    apply UpdatePlayer_roundWins.
Qed.

(** The win evaluation when the first player is not alive: the second
    player is credited, whatever its own state. *)
Lemma CheckWinConditions_first_dead e a :
  PlayerState.alive (GameState.player a Player0) = false ->
  PlayerState.roundWins (GameState.player (CheckWinConditions e a) Player1)
  = (PlayerState.roundWins (GameState.player a Player1) + 1) mod 256
  /\ PlayerState.roundWins (GameState.player (CheckWinConditions e a) Player0)
     = PlayerState.roundWins (GameState.player a Player0).
Proof.
  intros H0. unfold CheckWinConditions, deadPlayer. rewrite H0. cbn [negb other].
  destruct a as [[p0 p1] projs fn rt cr]. split; reflexivity.
Qed.


(** C3, as the code has it.  When both players are not alive after the
    collision pass of an [Update], the win evaluation takes the first of
    them as the dead player: the [roundWins] of player 1 goes up by one
    (modulo 256) on that tick and that of player 0 stays; the timeout
    branch is not looked at. *)
Theorem both_dead_credits_second_player :
  forall (e : GameSimulation.t) (s : GameState.t) (i0 i1 : InputState.t),
    PlayerState.alive (GameState.player (after_collisions e s i0 i1) Player0) = false ->
    PlayerState.alive (GameState.player (after_collisions e s i0 i1) Player1) = false ->
    PlayerState.roundWins (GameState.player (step e s i0 i1) Player1)
    = (PlayerState.roundWins (GameState.player s Player1) + 1) mod 256
    /\ PlayerState.roundWins (GameState.player (step e s i0 i1) Player0)
       = PlayerState.roundWins (GameState.player s Player0).
Proof.
  intros e s i0 i1 H0 _.
  rewrite step_after_collisions.
  destruct (CheckWinConditions_first_dead e _ H0) as [E1 E0].
  rewrite E1, E0, !after_collisions_roundWins. split; reflexivity.
Qed.




Lemma step_alive e s i0 i1 j :
  PlayerState.alive (GameState.player (step e s i0 i1) j)
  = PlayerState.alive (GameState.player (after_collisions e s i0 i1) j).
Proof.
  rewrite step_after_collisions.
  apply (CheckWinConditions_same e (after_collisions e s i0 i1) j).
Qed.

Lemma step_hp e s i0 i1 j :
  PlayerState.hp (GameState.player (step e s i0 i1) j)
  = PlayerState.hp (GameState.player (after_collisions e s i0 i1) j).
Proof.
  rewrite step_after_collisions.
  apply (CheckWinConditions_same e (after_collisions e s i0 i1) j).
Qed.



Lemma run_cons e s i0 i1 rest :
  run e s ((i0, i1) :: rest) = run e (step e s i0 i1) rest.
Proof. reflexivity. Qed.


End RoundWins.

(* ------------------------------------------------------------------ *)
(** ** Hit points *)

Section HitPoints.
Context `{CMath}.

Import GameSimulation.

Lemma geb_zero_ord x :
  F32.valid x = true -> F32.geb x F32.zero = true ->
  F32.is_nan x = false /\ 0 <= F32.ord x.
Proof.
  intros V G. unfold F32.geb, F32.leb in G.
  assert (N : F32.is_nan x = false).
  { destruct x; try reflexivity. discriminate. }
  split; [exact N|].
  rewrite (F32Facts.leb_ord F32.zero x) in G by trivial.
  apply Z.leb_le in G. exact G.
Qed.

Lemma gtb_zero_ord x :
  F32.valid x = true -> F32.is_nan x = false ->
  F32.gtb x F32.zero = (0 <? F32.ord x).
Proof.
  intros V N. unfold F32.gtb, F32.ltb.
  now rewrite (F32Facts.ltb_ord F32.zero x) by trivial.
Qed.

Lemma hp_invariant_within p :
  F32.valid (PlayerState.hp p) = true -> hp_invariant p = true ->
  hp_within (F32.ord (PlayerState.hp p)) p.
Proof.
  intros V I. unfold hp_invariant in I.
  apply andb_true_iff in I. destruct I as [G A].
  destruct (geb_zero_ord _ V G) as [N O].
  apply eqb_prop in A. rewrite gtb_zero_ord in A by assumption.
  repeat split; trivial; lia.
Qed.

Lemma hp_within_invariant bound p :
  hp_within bound p -> hp_invariant p = true.
Proof.
  intros (V & N & O & A). unfold hp_invariant.
  rewrite gtb_zero_ord by assumption. rewrite A, eqb_reflx, andb_true_r.
  unfold F32.geb, F32.leb.
  rewrite (F32Facts.leb_ord F32.zero _) by trivial.
  apply Z.leb_le. cbn. lia.
Qed.

(** A hit with a finite damage that is not negative keeps the hp in
    range, below what it was. *)
Lemma apply_hit_hp_within bound p proj :
  hp_within bound p -> finite_damage proj ->
  hp_within bound (apply_hit p proj).
Proof.
  intros (V & N & O & A) (Vd & Fd & Od).
  destruct (F32Facts.SFsub_le (PlayerState.hp p) (ProjectileState.damage proj))
    as (Vr & Nr & Or); trivial; try lia.
  unfold apply_hit. cbn [PlayerState.hp PlayerState.set_hp].
  fold (F32.sub (PlayerState.hp p) (ProjectileState.damage proj)) in Vr, Nr, Or.
  set (r := F32.sub (PlayerState.hp p) (ProjectileState.damage proj)) in *.
  unfold F32.leb. rewrite (F32Facts.leb_ord r F32.zero) by trivial.
  change (F32.ord F32.zero) with 0.
  destruct (Z.leb_spec (F32.ord r) 0) as [Le|Gt].
  - repeat split; cbn; trivial; lia.
  - repeat split; cbn [PlayerState.hp PlayerState.alive PlayerState.set_hp];
      trivial; try lia.
    rewrite A. symmetry. destruct (Z.ltb_spec 0 (F32.ord r)); [|lia].
    symmetry. apply Z.ltb_lt. lia.
Qed.

Lemma move_projectile_active p :
  ProjectileState.active (move_projectile p) = true ->
  ProjectileState.active p = true.
Proof.
  unfold move_projectile.
  destruct (ProjectileState.active p) eqn:E; cbn [negb]; [reflexivity|].
  rewrite E. trivial.
Qed.

(** The projectiles that reach the collision pass are active, so their
    damage is a finite number when every active projectile's is. *)
Lemma projectiles_before_collisions_damage s :
  Forall (fun p => sound_damage p = true) (GameState.projectiles s) ->
  Forall finite_damage (projectiles_before_collisions s).
Proof.
  intros HQ. apply Forall_forall. intros p Hin.
  unfold projectiles_before_collisions in Hin.
  apply filter_In in Hin. destruct Hin as [Hin Ha].
  apply in_map_iff in Hin. destruct Hin as (q & <- & Hq).
  rewrite Forall_forall in HQ. specialize (HQ q Hq).
  apply move_projectile_active in Ha.
  unfold sound_damage in HQ. rewrite Ha in HQ. cbn [negb orb] in HQ.
  apply andb_true_iff in HQ. destruct HQ as [HQ G].
  apply andb_true_iff in HQ. destruct HQ as [V F].
  unfold finite_damage. rewrite move_projectile_damage.
  destruct (geb_zero_ord _ V G) as [_ O]. repeat split; assumption.
Qed.

Lemma collide_hp_within bound projs ps i :
  Forall finite_damage projs ->
  hp_within bound (get ps i) ->
  hp_within bound (get (fst (collide ps projs)) i).
Proof.
  intros HQ HP.
  apply (collide_invariant (fun ps' => hp_within bound (get ps' i)) finite_damage);
    [|exact HQ|exact HP].
  intros ps' j proj Hp Hq _ _.
  destruct i, j; cbn [get set fst snd] in *; try exact Hp;
    now apply apply_hit_hp_within.
Qed.

Lemma hp_within_same bound p q :
  PlayerState.hp p = PlayerState.hp q ->
  PlayerState.alive p = PlayerState.alive q ->
  hp_within bound q -> hp_within bound p.
Proof. unfold hp_within. intros -> ->. trivial. Qed.

(** C4, as the code has it.  When the damage of every active projectile
    is a finite number that is not negative, a player whose hp is a
    binary32 number with [hp >= 0] and [alive == (hp > 0)] has, in the
    state [Update] returns, again [hp >= 0] and [alive == (hp > 0)], and
    an hp that is not above what it was. *)
Theorem hp_invariant_preserved :
  forall (e : GameSimulation.t) (s : GameState.t) (i0 i1 : InputState.t)
         (i : PlayerIndex),
    F32.valid (PlayerState.hp (GameState.player s i)) = true ->
    hp_invariant (GameState.player s i) = true ->
    Forall (fun p => sound_damage p = true) (GameState.projectiles s) ->
    let p' := GameState.player (step e s i0 i1) i in
    hp_invariant p' = true
    /\ F32.leb (PlayerState.hp p') (PlayerState.hp (GameState.player s i)) = true
    /\ F32.valid (PlayerState.hp p') = true.
Proof.
  intros e s i0 i1 i V I HQ p'.
  pose proof (hp_invariant_within _ V I) as W.
  set (bound := F32.ord (PlayerState.hp (GameState.player s i))) in *.
  assert (W' : hp_within bound p').
  { subst p'.
    apply (hp_within_same bound _ (GameState.player (after_collisions e s i0 i1) i)).
    - apply step_hp.
    - apply step_alive.
    - rewrite player_get, after_collisions_players.
      apply collide_hp_within.
      + now apply projectiles_before_collisions_damage.
      + rewrite players_before_collisions_get.
        apply (hp_within_same bound _ (GameState.player s i));
          [apply UpdatePlayer_hp|apply UpdatePlayer_alive|exact W]. }
  split; [exact (hp_within_invariant _ _ W')|].
  destruct W' as (V' & N' & O' & _). destruct W as (_ & N & _ & _).
  split; [|exact V'].
  unfold F32.leb. rewrite F32Facts.leb_ord by trivial.
  apply Z.leb_le. subst bound. lia.
Qed.

End HitPoints.

(* ------------------------------------------------------------------ *)
(** ** The arena *)

Section Arena.
Context `{CMath}.

Import GameSimulation.

Lemma UpdatePlayer_position_alive e p input i :
  PlayerState.alive p = true ->
  PlayerState.position (UpdatePlayer e p input i)
  = let moveDir :=
      glm.mkvec3 (InputState.moveX input) F32.zero (InputState.moveY input) in
    let pos :=
      if F32.gtb (glm.length moveDir) (F32.of_ratio 1 100)
      then glm.add (PlayerState.position p)
             (glm.scale (glm.scale (glm.normalize moveDir) GameConstants.PLAYER_SPEED)
                        FIXED_DT)
      else PlayerState.position p in
    glm.mkvec3 (clamp (glm.x pos) (F32.neg ARENA_HALF_SIZE) ARENA_HALF_SIZE)
               (glm.y pos)
               (clamp (glm.z pos) (F32.neg ARENA_HALF_SIZE) ARENA_HALF_SIZE).
Proof.
  intros Ha. unfold UpdatePlayer. rewrite Ha. cbn [negb].
  repeat match goal with |- context [if ?c then _ else _] => destruct c end;
    reflexivity.
Qed.




Lemma in_arena_finite v : in_arena v = true -> F32.is_finite v = true.
Proof.
  intros E. destruct v as [s|[|]| |s m e]; try reflexivity; vm_compute in E;
    discriminate.
Qed.

Lemma clamp_in_arena v :
  F32.is_nan v = false ->
  in_arena (clamp v (F32.neg ARENA_HALF_SIZE) ARENA_HALF_SIZE) = true.
Proof.
  intros N. unfold clamp.
  destruct (F32.ltb v (F32.neg ARENA_HALF_SIZE)) eqn:E1; [reflexivity|].
  destruct (F32.ltb ARENA_HALF_SIZE v) eqn:E2; [reflexivity|].
  unfold in_arena, F32.leb.
  rewrite (F32Facts.SFltb_false_leb v (F32.neg ARENA_HALF_SIZE) N eq_refl E1).
  rewrite (F32Facts.SFltb_false_leb ARENA_HALF_SIZE v eq_refl N E2).
  reflexivity.
Qed.

Lemma SFadd_nan_r x : SFadd 24 128 x S754_nan = S754_nan.
Proof. destruct x; reflexivity. Qed.

(** A length above the dead zone is a positive number, not tiny. *)
Lemma above_dead_zone len :
  F32.gtb len (F32.of_ratio 1 100) = true ->
  len = S754_infinity false
  \/ exists m e, len = S754_finite false m e /\ -30 <= e.
Proof.
  unfold F32.gtb, F32.ltb, SFltb.
  change (F32.of_ratio 1 100) with (S754_finite false 10737418 (-30)).
  destruct len as [s|[|]| |[|] m e]; cbn [SFcompare]; try discriminate; intros E.
  - left; reflexivity.
  - right. exists m, e. split; [reflexivity|].
    revert E. destruct (Z.compare_spec (-30) e); intros E;
      [lia|lia|discriminate E].
Qed.

Lemma inverse_of_length_finite len :
  F32.gtb len (F32.of_ratio 1 100) = true ->
  F32.is_finite (F32.div F32.one len) = true.
Proof.
  intros G. destruct (above_dead_zone len G) as [->|(m & e & -> & He)].
  - reflexivity.
  - apply (F32Facts.SFdiv_finite_no_overflow false 8388608 (-23) false m e).
    + lia.
    + change (Zdigits2 (Zpos 8388608)) with 24. lia.
Qed.

Lemma not_inf_finite_or_nan x :
  F32.is_inf x = false -> F32.is_finite x = true \/ x = S754_nan.
Proof. destruct x; try discriminate; auto. Qed.

(** The displacement of a tick has no NaN component when no input axis
    is infinite. *)
Lemma displacement_not_nan mx my :
  F32.is_inf mx = false -> F32.is_inf my = false ->
  let moveDir := glm.mkvec3 mx F32.zero my in
  F32.gtb (glm.length moveDir) (F32.of_ratio 1 100) = true ->
  let d :=
    glm.scale (glm.scale (glm.normalize moveDir) GameConstants.PLAYER_SPEED)
              FIXED_DT in
  F32.is_nan (glm.x d) = false /\ F32.is_nan (glm.z d) = false.
Proof.
  intros Ix Iy moveDir G d.
  assert (Fx : F32.is_finite mx = true).
  { destruct (not_inf_finite_or_nan mx Ix) as [F| ->]; [exact F|].
    exfalso. subst moveDir. cbn in G. discriminate. }
  assert (Fy : F32.is_finite my = true).
  { destruct (not_inf_finite_or_nan my Iy) as [F| ->]; [exact F|].
    exfalso. subst moveDir.
    unfold glm.length, glm.dot, F32.add, F32.mul in G.
    cbn [glm.x glm.y glm.z SFmul] in G.
    replace (SFmul 24 128 S754_nan S754_nan) with S754_nan in G by reflexivity.
    rewrite SFadd_nan_r in G. discriminate. }
  pose proof (inverse_of_length_finite _ G) as Finv.
  subst d. unfold glm.normalize, glm.inversesqrt, glm.scale.
  cbn [glm.x glm.y glm.z].
  fold (glm.length moveDir).
  set (inv := F32.div F32.one (glm.length moveDir)) in *.
  subst moveDir. cbn [glm.x glm.z].
  split.
  - apply (F32Facts.SFmul_scale_not_nan _ false 8947849 (-29)).
    apply (F32Facts.SFmul_scale_not_nan _ false 10485760 (-21)).
    now apply F32Facts.SFmul_finite_not_nan.
  - apply (F32Facts.SFmul_scale_not_nan _ false 8947849 (-29)).
    apply (F32Facts.SFmul_scale_not_nan _ false 10485760 (-21)).
    now apply F32Facts.SFmul_finite_not_nan.
Qed.

Lemma nan_not_finite x : F32.is_finite x = true -> F32.is_nan x = false.
Proof. destruct x; try discriminate; reflexivity. Qed.

Lemma UpdatePlayer_in_arena e p input i :
  PlayerState.alive p = true ->
  in_arena (glm.x (PlayerState.position p)) = true ->
  in_arena (glm.z (PlayerState.position p)) = true ->
  F32.is_inf (InputState.moveX input) = false ->
  F32.is_inf (InputState.moveY input) = false ->
  in_arena (glm.x (PlayerState.position (UpdatePlayer e p input i))) = true
  /\ in_arena (glm.z (PlayerState.position (UpdatePlayer e p input i))) = true.
Proof.
  intros Ha Ax Az Ix Iy.
  rewrite (UpdatePlayer_position_alive e p input i Ha). cbv zeta.
  pose proof (in_arena_finite _ Ax) as Fx.
  pose proof (in_arena_finite _ Az) as Fz.
  destruct (F32.gtb _ (F32.of_ratio 1 100)) eqn:G; cbn [glm.x glm.y glm.z].
  - destruct (displacement_not_nan _ _ Ix Iy G) as [Nx Nz].
    cbn [glm.add glm.x glm.z].
    split; apply clamp_in_arena; now apply F32Facts.SFadd_finite_not_nan.
  - split; apply clamp_in_arena; now apply nan_not_finite.
Qed.

(** *** Driving a player into a boundary *)










End Arena.

(* ------------------------------------------------------------------ *)
(** ** The codecs *)

Section Codec.

Lemma le_length n : forall v, List.length (Bytes.le n v) = n.
Proof. induction n as [|n IH]; intros v; cbn; [reflexivity|now rewrite IH]. Qed.

Lemma join_le n : forall v, Bytes.join (Bytes.le n v) = v mod 256 ^ Z.of_nat n.
Proof.
  induction n as [|n IH]; intros v.
  - cbn. now rewrite Z.mod_1_r.
  - cbn [Bytes.le Bytes.join]. rewrite IH, Nat2Z.inj_succ, Z.pow_succ_r by lia.
    symmetry. apply Z.rem_mul_r; [lia|]. apply Z.pow_pos_nonneg; lia.
Qed.

Lemma join_le_small n v :
  0 <= v < 256 ^ Z.of_nat n -> Bytes.join (Bytes.le n v) = v.
Proof. intros Hv. rewrite join_le. now apply Z.mod_small. Qed.

(** The sign, exponent and mantissa fields of a bit pattern. *)
Lemma bit_fields (s : bool) E M :
  0 <= E < 256 -> 0 <= M < 8388608 ->
  let b := (if s then 2147483648 else 0) + (E * 8388608 + M) in
  Z.odd (b / 2147483648) = s /\ (b / 8388608) mod 256 = E /\ b mod 8388608 = M
  /\ 0 <= b < 4294967296.
Proof.
  intros HE HM b.
  assert (Hq : b / 2147483648 = if s then 1 else 0).
  { subst b. symmetry. destruct s.
    - apply Z.div_unique with (E * 8388608 + M); lia.
    - apply Z.div_unique with (E * 8388608 + M); lia. }
  assert (Hq2 : b / 8388608 = (if s then 256 else 0) + E).
  { subst b. symmetry. destruct s; apply Z.div_unique with M; lia. }
  rewrite Hq, Hq2. repeat split.
  - destruct s; reflexivity.
  - destruct s.
    + symmetry. apply Z.mod_unique with 1; lia.
    + apply Z.mod_small. lia.
  - subst b. symmetry.
    apply Z.mod_unique with ((if s then 256 else 0) + E); destruct s; lia.
  - subst b. destruct s; lia.
  - subst b. destruct s; lia.
Qed.

Lemma bounded_shape m e :
  bounded 24 128 m e = true ->
  (Zpos m < 8388608 /\ e = -149)
  \/ (8388608 <= Zpos m < 16777216 /\ -149 <= e <= 104).
Proof.
  intros B. apply F32Facts.bounded_elim in B. destruct B as [C Hu].
  pose proof (F32Facts.Zdigits2_bounds (Zpos m) eq_refl) as [Hlo Hhi].
  pose proof (F32Facts.Zdigits2_pos (Zpos m) eq_refl) as Hd.
  unfold F32.fexp32 in C.
  destruct (Z.le_gt_cases (Zdigits2 (Zpos m)) 23) as [Hs|Hn].
  - left. split; [|lia].
    apply Z.lt_le_trans with (1 := Hhi).
    change 8388608 with (2 ^ 23). apply Z.pow_le_mono_r; lia.
  - right. assert (Ed : Zdigits2 (Zpos m) = 24) by lia.
    rewrite Ed in Hlo, Hhi. change (2 ^ (24 - 1)) with 8388608 in Hlo.
    change (2 ^ 24) with 16777216 in Hhi. lia.
Qed.

(** The fields of the bit pattern of a binary32 number. *)
Lemma to_bits_fields x :
  F32.valid x = true ->
  exists (s : bool) E M,
    0 <= E < 256 /\ 0 <= M < 8388608
    /\ F32.to_bits x = (if s then 2147483648 else 0) + (E * 8388608 + M)
    /\ x = (if E =? 0 then
              match M with
              | Zpos m => S754_finite s m (-149)
              | _ => S754_zero s
              end
            else if E =? 255 then
              (if M =? 0 then S754_infinity s else S754_nan)
            else
              match M + 8388608 with
              | Zpos m => S754_finite s m (E - 150)
              | _ => S754_nan
              end).
Proof.
  intros V. destruct x as [s|s| |s m e].
  - exists s, 0, 0. repeat split; try lia; destruct s; reflexivity.
  - exists s, 255, 0. repeat split; try lia; destruct s; reflexivity.
  - exists false, 255, 4194304. repeat split; try lia; reflexivity.
  - cbn [F32.valid valid_binary] in V.
    destruct (bounded_shape m e V) as [[Hm ->]|[Hm He]].
    + exists s, 0, (Zpos m). split; [lia|]. split; [lia|]. split; [|reflexivity].
      cbn [F32.to_bits]. change (2 ^ 31) with 2147483648.
      change (2 ^ 23) with 8388608.
      destruct (Z.ltb_spec (Zpos m) 8388608); lia.
    + exists s, (e + 150), (Zpos m - 8388608).
      split; [lia|]. split; [lia|]. split.
      * cbn [F32.to_bits]. change (2 ^ 31) with 2147483648.
        change (2 ^ 23) with 8388608.
        destruct (Z.ltb_spec (Zpos m) 8388608); lia.
      * destruct (Z.eqb_spec (e + 150) 0); [lia|].
        destruct (Z.eqb_spec (e + 150) 255); [lia|].
        replace (Zpos m - 8388608 + 8388608) with (Zpos m) by lia.
        f_equal. lia.
Qed.

Lemma of_to_bits x : F32.valid x = true -> F32.of_bits (F32.to_bits x) = x.
Proof.
  intros V. destruct (to_bits_fields x V) as (s & E & M & HE & HM & Eb & Ex).
  destruct (bit_fields s E M HE HM) as (A & B & C & _).
  unfold F32.of_bits. rewrite Eb.
  change (2 ^ 31) with 2147483648. change (2 ^ 23) with 8388608.
  cbv zeta in A, B, C. rewrite A, B, C. symmetry. exact Ex.
Qed.

Lemma to_bits_range x : F32.valid x = true -> 0 <= F32.to_bits x < 2 ^ 32.
Proof.
  intros V. destruct (to_bits_fields x V) as (s & E & M & HE & HM & Eb & _).
  destruct (bit_fields s E M HE HM) as (_ & _ & _ & R).
  rewrite Eb. exact R.
Qed.

Lemma f32_bytes v : F32.valid v = true -> Bytes.to_f32 (Bytes.of_f32 v) = v.
Proof.
  intros V. unfold Bytes.to_f32, Bytes.of_f32.
  rewrite join_le_small by (apply to_bits_range, V).
  now apply of_to_bits.
Qed.

Lemma u8_range v : u8 v = true -> 0 <= v < 256 ^ Z.of_nat 1.
Proof. unfold u8. intros E. apply andb_true_iff in E. lia. Qed.

Lemma u32_range v : u32 v = true -> 0 <= v < 256 ^ Z.of_nat 4.
Proof.
  unfold u32. intros E. apply andb_true_iff in E.
  change (256 ^ Z.of_nat 4) with (2 ^ 32). lia.
Qed.

Lemma bool_byte b : Bytes.to_bool (Bytes.join [Bytes.of_bool b]) = b.
Proof. destruct b; reflexivity. Qed.

(** *** Readers over what the writers wrote *)

Lemma slice_app pre bs post :
  Bytes.slice (pre ++ bs ++ post) (List.length pre) (List.length bs) = Some bs.
Proof.
  unfold Bytes.slice.
  assert (E : firstn (List.length bs) (skipn (List.length pre) (pre ++ bs ++ post)) = bs).
  { rewrite skipn_app, Nat.sub_diag, skipn_all. cbn [skipn app].
    rewrite firstn_app, Nat.sub_diag, firstn_all. cbn [firstn].
    apply app_nil_r. }
  rewrite E, Nat.eqb_refl. reflexivity.
Qed.

Lemma reads_read bs : reads (Bytes.read (List.length bs)) bs bs.
Proof. intros pre post. unfold Bytes.read. now rewrite slice_app. Qed.

Lemma reads_bind {A B} (r : Bytes.Reader A) (k : A -> Bytes.Reader B) bs1 bs2 a b :
  reads r bs1 a -> reads (k a) bs2 b -> reads (Bytes.bind r k) (bs1 ++ bs2) b.
Proof.
  intros H1 H2 pre post. unfold Bytes.bind.
  rewrite <- app_assoc, (H1 pre (bs2 ++ post)).
  specialize (H2 (pre ++ bs1) post).
  rewrite <- app_assoc, length_app in H2. rewrite H2.
  rewrite length_app. f_equal. f_equal. lia.
Qed.

Lemma reads_map {A B} (r : Bytes.Reader A) (f : A -> B) bs a :
  reads r bs a -> reads (Bytes.bind r (fun x => Bytes.ret (f x))) bs (f a).
Proof.
  intros H1 pre post. unfold Bytes.bind, Bytes.ret. now rewrite (H1 pre post).
Qed.

Lemma reads_f32 v : F32.valid v = true -> reads Bytes.read_f32 (Bytes.of_f32 v) v.
Proof.
  intros V. rewrite <- (f32_bytes v V) at 2.
  apply (reads_map (Bytes.read 4) Bytes.to_f32), (reads_read (Bytes.of_f32 v)).
Qed.

Lemma reads_u8 v : u8 v = true -> reads Bytes.read_u8 (Bytes.le 1 v) v.
Proof.
  intros V. rewrite <- (join_le_small 1 v (u8_range v V)) at 2.
  apply (reads_map (Bytes.read 1) Bytes.join), (reads_read (Bytes.le 1 v)).
Qed.

Lemma reads_u16 v : u16 v = true -> reads Bytes.read_u16 (Bytes.le 2 v) v.
Proof.
  intros V. rewrite <- (join_le_small 2 v) at 2.
  - apply (reads_map (Bytes.read 2) Bytes.join), (reads_read (Bytes.le 2 v)).
  - unfold u16 in V. apply andb_true_iff in V.
    change (256 ^ Z.of_nat 2) with 65536. lia.
Qed.

Lemma reads_u32 v : u32 v = true -> reads Bytes.read_u32 (Bytes.le 4 v) v.
Proof.
  intros V. rewrite <- (join_le_small 4 v (u32_range v V)) at 2.
  apply (reads_map (Bytes.read 4) Bytes.join), (reads_read (Bytes.le 4 v)).
Qed.

Lemma reads_bool b : reads Bytes.read_bool [Bytes.of_bool b] b.
Proof.
  rewrite <- (bool_byte b) at 2.
  apply (reads_map (Bytes.read 1) (fun bs => Bytes.to_bool (Bytes.join bs))),
        (reads_read [Bytes.of_bool b]).
Qed.

Lemma reads_vec3 v : wf_vec3 v = true -> reads Bytes.read_vec3 (Bytes.of_vec3 v) v.
Proof.
  destruct v as [a b c]. unfold wf_vec3. cbn [glm.x glm.y glm.z]. intros W.
  apply andb_true_iff in W. destruct W as [W Vc].
  apply andb_true_iff in W. destruct W as [Va Vb].
  unfold Bytes.read_vec3, Bytes.of_vec3. cbn [glm.x glm.y glm.z].
  apply reads_bind with (a := a); [now apply reads_f32|].
  apply reads_bind with (a := b); [now apply reads_f32|].
  apply (reads_map Bytes.read_f32 (fun c => glm.mkvec3 a b c)).
  now apply reads_f32.
Qed.

Lemma reads_player p :
  wf_player p = true -> reads PlayerState.Deserialize (PlayerState.Serialize p) p.
Proof.
  destruct p as [pos vel ang h cd w a]. unfold wf_player.
  cbn [PlayerState.position PlayerState.velocity PlayerState.facingAngle
       PlayerState.hp PlayerState.projectileCooldown PlayerState.roundWins].
  intros W. do 5 (apply andb_true_iff in W; destruct W as [W ?]).
  unfold PlayerState.Deserialize, PlayerState.Serialize.
  cbn [PlayerState.position PlayerState.velocity PlayerState.facingAngle
       PlayerState.hp PlayerState.projectileCooldown PlayerState.roundWins
       PlayerState.alive].
  apply reads_bind with (a := pos); [now apply reads_vec3|].
  apply reads_bind with (a := vel); [now apply reads_vec3|].
  apply reads_bind with (a := ang); [now apply reads_f32|].
  apply reads_bind with (a := h); [now apply reads_f32|].
  apply reads_bind with (a := cd); [now apply reads_f32|].
  apply reads_bind with (a := w); [now apply reads_u8|].
  apply (reads_map Bytes.read_bool (fun a => PlayerState.mk pos vel ang h cd w a)).
  apply reads_bool.
Qed.

Lemma reads_projectile p :
  wf_projectile p = true ->
  reads ProjectileState.Deserialize (ProjectileState.Serialize p) p.
Proof.
  destruct p as [pos vel own dmg act]. unfold wf_projectile.
  cbn [ProjectileState.position ProjectileState.velocity ProjectileState.ownerID
       ProjectileState.damage].
  intros W. do 3 (apply andb_true_iff in W; destruct W as [W ?]).
  unfold ProjectileState.Deserialize, ProjectileState.Serialize.
  cbn [ProjectileState.position ProjectileState.velocity ProjectileState.ownerID
       ProjectileState.damage ProjectileState.active].
  apply reads_bind with (a := pos); [now apply reads_vec3|].
  apply reads_bind with (a := vel); [now apply reads_vec3|].
  apply reads_bind with (a := own); [now apply reads_u8|].
  apply reads_bind with (a := dmg); [now apply reads_f32|].
  apply (reads_map Bytes.read_bool (fun a => ProjectileState.mk pos vel own dmg a)).
  apply reads_bool.
Qed.

Lemma reads_projectiles l :
  forallb wf_projectile l = true ->
  reads (GameState.read_projectiles (List.length l))
        (flat_map ProjectileState.Serialize l) l.
Proof.
  induction l as [|p l IH]; intros W.
  - intros pre post. cbn. now rewrite Nat.add_0_r.
  - cbn [forallb] in W. apply andb_true_iff in W. destruct W as [Wp Wl].
    cbn [List.length GameState.read_projectiles flat_map].
    apply reads_bind with (a := p); [now apply reads_projectile|].
    rewrite <- (app_nil_r (flat_map ProjectileState.Serialize l)).
    apply reads_bind with (a := l); [now apply IH|].
    intros pre post. cbn. now rewrite Nat.add_0_r.
Qed.

Lemma reads_state s :
  wf_state s = true ->
  Z.of_nat (List.length (GameState.projectiles s)) <= 65535 ->
  reads GameState.Deserialize (GameState.Serialize s) s.
Proof.
  destruct s as [[p0 p1] projs fn rt cr]. unfold wf_state.
  cbn [GameState.players GameState.projectiles GameState.frameNumber
       GameState.roundTimer GameState.currentRound fst snd].
  intros W Hn. do 5 (apply andb_true_iff in W; destruct W as [W ?]).
  unfold GameState.Deserialize, GameState.Serialize.
  cbn [GameState.players GameState.projectiles GameState.frameNumber
       GameState.roundTimer GameState.currentRound fst snd].
  rewrite Z.mod_small by lia.
  apply reads_bind with (a := p0); [now apply reads_player|].
  apply reads_bind with (a := p1); [now apply reads_player|].
  apply reads_bind with (a := Z.of_nat (List.length projs)).
  { apply reads_u16. unfold u16. apply andb_true_iff. split.
    - apply Z.leb_le. lia.
    - apply Z.ltb_lt. lia. }
  rewrite Nat2Z.id.
  apply reads_bind with (a := projs); [now apply reads_projectiles|].
  apply reads_bind with (a := fn); [now apply reads_u32|].
  apply reads_bind with (a := rt); [now apply reads_f32|].
  apply (reads_map Bytes.read_u8 (fun cr => GameState.mk (p0, p1) projs fn rt cr)).
  now apply reads_u8.
Qed.

Lemma state_round_trip s :
  wf_state s = true ->
  Z.of_nat (List.length (GameState.projectiles s)) <= 65535 ->
  GameState.decode (GameState.Serialize s) = Some s.
Proof.
  intros W Hn. unfold GameState.decode.
  pose proof (reads_state s W Hn [] []) as R.
  cbn [app List.length] in R. rewrite app_nil_r in R. now rewrite R.
Qed.

(** *** Inputs *)

Lemma input_round_trip self x :
  wf_input x = true ->
  InputState.Deserialize self (InputState.Serialize x) = x.
Proof.
  destruct x as [mx my tp fn]. unfold wf_input.
  cbn [InputState.moveX InputState.moveY InputState.frameNumber].
  intros W. do 2 (apply andb_true_iff in W; destruct W as [W ?]).
  unfold InputState.Deserialize, InputState.Serialize, Bytes.of_f32.
  cbn [InputState.moveX InputState.moveY InputState.throwProjectile
       InputState.frameNumber Bytes.le app List.length Nat.leb Nat.add
       skipn firstn].
  f_equal.
  - now apply f32_bytes.
  - now apply f32_bytes.
  - destruct tp; reflexivity.
  - apply (join_le_small 4). now apply u32_range.
Qed.

Lemma SFeqb_refl x : SFeqb x x = negb (F32.is_nan x).
Proof.
  unfold SFeqb. destruct x as [s|s| |s m e]; cbn [SFcompare F32.is_nan negb];
    try (destruct s; reflexivity); try reflexivity.
  rewrite Z.compare_refl.
  replace (Pos.compare_cont Eq m m) with Eq
    by (symmetry; apply Pos.compare_cont_refl).
  destruct s; reflexivity.
Qed.

Lemma input_eqb_refl x :
  InputState.eqb x x
  = negb (F32.is_nan (InputState.moveX x)) && negb (F32.is_nan (InputState.moveY x)).
Proof.
  unfold InputState.eqb, F32.eqb.
  rewrite !SFeqb_refl, eqb_reflx, Z.eqb_refl, !andb_true_r. reflexivity.
Qed.

(** C2, as the code has it.  For every input whose fields are binary32
    numbers and a 32-bit frame number, [Deserialize] of the bytes of
    [Serialize] gives back the input, field for field; it is equal to the
    original in the sense of [operator==] exactly when neither movement
    axis is a NaN.  For every game state (fields in the range of their
    types) with at most 65535 projectiles, [Deserialize] of the bytes of
    [Serialize] gives back the state, field for field. *)
Theorem codec_round_trip :
  (forall (self x : InputState.t),
      wf_input x = true ->
      let y := InputState.Deserialize self (InputState.Serialize x) in
      y = x
      /\ InputState.eqb y x
         = negb (F32.is_nan (InputState.moveX x))
           && negb (F32.is_nan (InputState.moveY x)))
  /\ (forall (s : GameState.t),
         wf_state s = true ->
         Z.of_nat (List.length (GameState.projectiles s)) <= 65535 ->
         GameState.decode (GameState.Serialize s) = Some s).
Proof.
  split.
  - intros self x W y. subst y. rewrite (input_round_trip self x W).
    split; [reflexivity|apply input_eqb_refl].
  - intros s W Hn. now apply state_round_trip.
Qed.

(** C6 at a buffer of one byte: the guard of the buttons is evaluated at
    offset 0, where the two reads before it left the offset, and the fire
    flag is read from the byte that belongs to [moveX].  So it is for
    every buffer of 1 to 3 bytes: the movement and the frame number keep
    the values of the object, and the fire flag is bit 0 of the first
    byte. *)
Theorem truncated_input_reads_buttons_early :
  InputState.Deserialize InputState.init [1]
  = InputState.mk F32.zero F32.zero true 0
  /\ forall (self : InputState.t) (b0 : Z) (rest : list Z),
       (List.length rest < 3)%nat ->
       InputState.Deserialize self (b0 :: rest)
       = InputState.mk (InputState.moveX self) (InputState.moveY self)
                       (negb (Z.land b0 1 =? 0)) (InputState.frameNumber self).
Proof.
  split; [reflexivity|].
  intros self b0 rest Hlen.
  destruct rest as [|b1 [|b2 [|b3 rest]]]; cbn [List.length] in Hlen; try lia;
    unfold InputState.Deserialize;
    cbn [List.length Nat.leb Nat.add skipn firstn Bytes.join
         InputState.moveX InputState.moveY InputState.throwProjectile
         InputState.frameNumber];
    rewrite Z.mul_0_r, Z.add_0_r; reflexivity.
Qed.

End Codec.

(* ------------------------------------------------------------------ *)
(** ** Spawning projectiles *)

Section Spawn.
Context `{CMath}.

Import GameSimulation.

Lemma player_set_player_same s i p :
  GameState.player (GameState.set_player s i p) i = p.
Proof. destruct i; reflexivity. Qed.

Lemma player_set_player_other s i p :
  GameState.player (GameState.set_player s i p) (other i)
  = GameState.player s (other i).
Proof. destruct i; reflexivity. Qed.

Lemma SpawnProjectile_refused s i :
  PlayerState.alive (GameState.player s i) = false
  \/ F32.gtb (PlayerState.projectileCooldown (GameState.player s i)) F32.zero = true ->
  SpawnProjectile s i = s.
Proof.
  intros [Hd|Hc]; unfold SpawnProjectile.
  - rewrite Hd. cbn [negb]. now rewrite orb_true_r.
  - now rewrite Hc.
Qed.

(** C7.  [SpawnProjectile] returns the state as it is when the player is
    not alive or its cooldown is positive.  Otherwise it appends one
    projectile -- owner the player, damage [PROJECTILE_DAMAGE], active,
    placed [PLAYER_RADIUS + PROJECTILE_RADIUS + 0.1] in front of the
    player along its facing angle, with velocity [PROJECTILE_SPEED] along
    that heading -- and sets the cooldown of the player to
    [PROJECTILE_COOLDOWN], nothing else; a second call right after is
    refused, so the two calls add exactly one projectile. *)
Theorem SpawnProjectile_gating :
  forall (s : GameState.t) (i : PlayerIndex),
    let p := GameState.player s i in
    (PlayerState.alive p = false
     \/ F32.gtb (PlayerState.projectileCooldown p) F32.zero = true ->
     SpawnProjectile s i = s)
    /\ (PlayerState.alive p = true ->
        F32.gtb (PlayerState.projectileCooldown p) F32.zero = false ->
        let s' := SpawnProjectile s i in
        let angleRad := glm.radians (PlayerState.facingAngle p) in
        let dir := glm.mkvec3 (sinf angleRad) F32.zero (F32.neg (cosf angleRad)) in
        GameState.projectiles s'
        = GameState.projectiles s
          ++ [ProjectileState.mk
                (glm.add (PlayerState.position p)
                   (glm.scale dir
                      (F32.add (F32.add PLAYER_RADIUS PROJECTILE_RADIUS)
                               (F32.of_ratio 1 10))))
                (glm.scale dir GameConstants.PROJECTILE_SPEED)
                (index_Z i) GameConstants.PROJECTILE_DAMAGE true]
        /\ GameState.player s' i
           = PlayerState.set_projectileCooldown p GameConstants.PROJECTILE_COOLDOWN
        /\ GameState.player s' (other i) = GameState.player s (other i)
        /\ GameState.frameNumber s' = GameState.frameNumber s
        /\ GameState.roundTimer s' = GameState.roundTimer s
        /\ GameState.currentRound s' = GameState.currentRound s
        /\ SpawnProjectile s' i = s'
        /\ List.length (GameState.projectiles (SpawnProjectile s' i))
           = S (List.length (GameState.projectiles s))).
Proof.
  intros s i p. split; [apply SpawnProjectile_refused|].
  intros Ha Hc s' angleRad dir.
  assert (Es : s' = GameState.set_player
                      (GameState.set_projectiles s
                         (GameState.projectiles s
                          ++ [ProjectileState.mk
                                (glm.add (PlayerState.position p)
                                   (glm.scale dir
                                      (F32.add (F32.add PLAYER_RADIUS PROJECTILE_RADIUS)
                                               (F32.of_ratio 1 10))))
                                (glm.scale dir GameConstants.PROJECTILE_SPEED)
                                (index_Z i) GameConstants.PROJECTILE_DAMAGE true]))
                      i
                      (PlayerState.set_projectileCooldown p
                         GameConstants.PROJECTILE_COOLDOWN)).
  { subst s'. unfold SpawnProjectile. fold p. rewrite Ha, Hc. cbn [negb orb].
    replace (index_Z i mod 256) with (index_Z i) by (destruct i; reflexivity).
    destruct i; reflexivity. }
  assert (Ep : GameState.player s' i
               = PlayerState.set_projectileCooldown p GameConstants.PROJECTILE_COOLDOWN).
  { rewrite Es. apply player_set_player_same. }
  assert (Er : SpawnProjectile s' i = s').
  { apply SpawnProjectile_refused. right. rewrite Ep. reflexivity. }
  match goal with |- ?A /\ _ => assert (El : A) end.
  { rewrite Es. destruct i; reflexivity. }
  split; [exact El|]. split; [exact Ep|].
  split; [rewrite Es; destruct i; reflexivity|].
  split; [rewrite Es; destruct i; reflexivity|].
  split; [rewrite Es; destruct i; reflexivity|].
  split; [rewrite Es; destruct i; reflexivity|].
  split; [exact Er|].
  rewrite Er, El, length_app. cbn [List.length]. lia.
Qed.

End Spawn.

(* ------------------------------------------------------------------ *)
(** ** Slots of the server *)

Section Slots.

Import ServerNetwork.

Lemma count_occupied_le s : (count_occupied s <= 2)%nat.
Proof.
  unfold count_occupied.
  destruct (occupied s Player0), (occupied s Player1); cbn; lia.
Qed.

(** C9.  On a connection event the server first empties the slots whose
    peer ENet reports as disconnected, dropping their queued inputs.
    Then the connection takes slot 0 if it is free, else slot 1 if it is
    free, and the client is sent [PLAYER_JOINED] with that slot index;
    [GAME_START] is sent -- to both peers -- exactly when the two slots
    are occupied after the assignment; with no free slot the state is
    left as it is and the connection is disconnected.  Never more than 2
    slots are occupied. *)
Theorem connect_assigns_lowest_free_slot :
  forall (disconnected : Peer -> bool) (s : ServerNetwork.t) (peer : Peer),
    let s0 := reap disconnected (reap disconnected s Player0) Player1 in
    let s' := fst (on_connect disconnected s peer) in
    let acts := snd (on_connect disconnected s peer) in
    (forall i,
        peer_at s0 i = live_peer disconnected (peer_at s i)
        /\ (peer_at s0 i <> peer_at s i -> queue_at s0 i = []))
    /\ match peer_at s0 Player0, peer_at s0 Player1 with
       | None, o1 =>
           peer_at s' Player0 = Some peer /\ peer_at s' Player1 = o1
           /\ In (Send peer [NetPacketType.PLAYER_JOINED; 0]) acts
       | Some p0, None =>
           peer_at s' Player0 = Some p0 /\ peer_at s' Player1 = Some peer
           /\ In (Send peer [NetPacketType.PLAYER_JOINED; 1]) acts
       | Some _, Some _ =>
           s' = s0 /\ acts = [PeerDisconnect peer]
       end
    /\ pendingInputs s' = pendingInputs s0
    /\ existsb is_game_start acts
       = HasBothPlayers s' && negb (HasBothPlayers s0)
    /\ (existsb is_game_start acts = true ->
        forall i q, peer_at s' i = Some q ->
                    In (Send q [NetPacketType.GAME_START]) acts)
    /\ (count_occupied s' <= 2)%nat
    /\ forall evs, (count_occupied (fst (Update s evs)) <= 2)%nat.
Proof.
  intros disconnected s peer s0 s' acts.
  split; [|split; [|split; [|split; [|split; [|split]]]]].
  - intros i. subst s0. destruct s as [[[p0|] [p1|]] [q0 q1]], i;
      unfold reap, peer_at, set_peer, set_queue, queue_at, live_peer; cbn;
      repeat match goal with
             | |- context [disconnected ?p] => destruct (disconnected p); cbn
             end;
      split; try reflexivity; intros N; try reflexivity; exfalso; now apply N.
  - subst s0 s' acts. destruct s as [[[p0|] [p1|]] [q0 q1]];
      unfold on_connect, reap, peer_at, set_peer, set_queue; cbn;
      repeat match goal with
             | |- context [disconnected ?p] => destruct (disconnected p); cbn
             end;
      repeat split; auto.
  - subst s0 s'. destruct s as [[[p0|] [p1|]] [q0 q1]];
      unfold on_connect, reap, peer_at, set_peer, set_queue; cbn;
      repeat match goal with
             | |- context [disconnected ?p] => destruct (disconnected p); cbn
             end;
      reflexivity.
  - subst s0 s' acts. destruct s as [[[p0|] [p1|]] [q0 q1]];
      unfold on_connect, reap, peer_at, set_peer, set_queue; cbn;
      repeat match goal with
             | |- context [disconnected ?p] => destruct (disconnected p); cbn
             end;
      reflexivity.
  - subst s' acts. destruct s as [[[p0|] [p1|]] [q0 q1]];
      unfold on_connect, reap, peer_at, set_peer, set_queue; cbn;
      repeat match goal with
             | |- context [disconnected ?p] => destruct (disconnected p); cbn
             end;
      intros E i q; try discriminate; destruct i; cbn; intros Eq;
      inversion Eq; subst; auto.
  - apply count_occupied_le.
  - intros evs. apply count_occupied_le.
Qed.

End Slots.

(* ------------------------------------------------------------------ *)
(** ** The properties at concrete inputs *)

Section Examples.

Import GameSimulation.

(** C10 at the knocked-out player 1 of [knocked_out]. *)
Lemma dead_player_frame_witness :
  PlayerState.alive (GameState.player knocked_out Player1) = false
  /\ (let p := GameState.player knocked_out Player1 in
      let p' := GameState.player (step0 knocked_out eastward eastward) Player1 in
      PlayerState.position p' = PlayerState.position p
      /\ PlayerState.velocity p' = PlayerState.velocity p
      /\ PlayerState.facingAngle p' = PlayerState.facingAngle p
      /\ PlayerState.hp p' = PlayerState.hp p
      /\ PlayerState.projectileCooldown p' = PlayerState.projectileCooldown p
      /\ PlayerState.alive p' = PlayerState.alive p).
Proof.
  split; [vm_compute; reflexivity|].
  apply (@dead_player_frame flat_math GameSimulation.init knocked_out
           eastward eastward Player1).
  vm_compute; reflexivity.
Defined.

(** C3 fails at [double_ko]: both players are alive before the tick and
    not alive after its collision pass, and the [roundWins] of player 1
    has changed. *)
Lemma both_dead_tick_is_not_a_draw :
  PlayerState.alive
    (GameState.player (@after_collisions flat_math GameSimulation.init
                         double_ko idle idle) Player0) = false
  /\ PlayerState.alive
       (GameState.player (@after_collisions flat_math GameSimulation.init
                            double_ko idle idle) Player1) = false
  /\ PlayerState.roundWins (GameState.player double_ko Player1) = 0
  /\ PlayerState.roundWins (GameState.player (step0 double_ko idle idle) Player1) = 1.
Proof. vm_compute. repeat split. Qed.

Lemma both_dead_credits_second_player_witness :
  PlayerState.alive
    (GameState.player (@after_collisions flat_math GameSimulation.init
                         double_ko idle idle) Player0) = false
  /\ PlayerState.alive
       (GameState.player (@after_collisions flat_math GameSimulation.init
                            double_ko idle idle) Player1) = false
  /\ (PlayerState.roundWins (GameState.player (step0 double_ko idle idle) Player1)
      = (PlayerState.roundWins (GameState.player double_ko Player1) + 1) mod 256
      /\ PlayerState.roundWins (GameState.player (step0 double_ko idle idle) Player0)
         = PlayerState.roundWins (GameState.player double_ko Player0)).
Proof.
  split; [vm_compute; reflexivity|]. split; [vm_compute; reflexivity|].
  apply (@both_dead_credits_second_player flat_math GameSimulation.init
           double_ko idle idle); vm_compute; reflexivity.
Defined.

(** C4 fails at [healing_shot]: both players satisfy [hp >= 0] and
    [alive == (hp > 0)], and the hp of player 1 after the tick is not
    below or equal to its hp before. *)
Lemma negative_damage_raises_hp :
  hp_invariant (GameState.player healing_shot Player0) = true
  /\ hp_invariant (GameState.player healing_shot Player1) = true
  /\ F32.leb
       (PlayerState.hp (GameState.player (step0 healing_shot idle idle) Player1))
       (PlayerState.hp (GameState.player healing_shot Player1)) = false.
Proof. vm_compute. repeat split. Qed.

Lemma hp_invariant_preserved_witness :
  F32.valid (PlayerState.hp (GameState.player one_shot Player1)) = true
  /\ hp_invariant (GameState.player one_shot Player1) = true
  /\ Forall (fun p => sound_damage p = true) (GameState.projectiles one_shot)
  /\ (let p' := GameState.player (step0 one_shot idle idle) Player1 in
      hp_invariant p' = true
      /\ F32.leb (PlayerState.hp p') (PlayerState.hp (GameState.player one_shot Player1))
         = true
      /\ F32.valid (PlayerState.hp p') = true).
Proof.
  assert (HQ : Forall (fun p => sound_damage p = true) (GameState.projectiles one_shot)).
  { repeat constructor. }
  split; [reflexivity|]. split; [reflexivity|]. split; [exact HQ|].
  apply (@hp_invariant_preserved flat_math GameSimulation.init one_shot idle idle
           Player1); [reflexivity|reflexivity|exact HQ].
Defined.





(** C2 fails at [nan_input]: the bytes decode to the same fields, and
    [operator==] of the decoded input and the original is false. *)
Lemma nan_input_differs_from_itself :
  wf_input nan_input = true
  /\ InputState.Deserialize InputState.init (InputState.Serialize nan_input)
     = nan_input
  /\ InputState.eqb
       (InputState.Deserialize InputState.init (InputState.Serialize nan_input))
       nan_input = false.
Proof. vm_compute. repeat split. Qed.

Lemma codec_round_trip_witness :
  wf_input sample_input = true
  /\ InputState.Deserialize InputState.init (InputState.Serialize sample_input)
     = sample_input
  /\ InputState.eqb
       (InputState.Deserialize InputState.init (InputState.Serialize sample_input))
       sample_input = true
  /\ wf_state one_shot = true
  /\ Z.of_nat (List.length (GameState.projectiles one_shot)) <= 65535
  /\ GameState.decode (GameState.Serialize one_shot) = Some one_shot.
Proof.
  destruct codec_round_trip as [Hi Hs].
  assert (Wi : wf_input sample_input = true) by reflexivity.
  assert (Ws : wf_state one_shot = true) by reflexivity.
  assert (Hn : Z.of_nat (List.length (GameState.projectiles one_shot)) <= 65535)
    by (cbn; lia).
  destruct (Hi InputState.init sample_input Wi) as [E1 E2].
  split; [exact Wi|]. split; [exact E1|]. split; [exact E2|].
  split; [exact Ws|]. split; [exact Hn|].
  exact (Hs one_shot Ws Hn).
Defined.

Lemma truncated_input_reads_buttons_early_witness :
  (List.length [0; 0] < 3)%nat
  /\ InputState.Deserialize sample_input [3; 0; 0]
     = InputState.mk (InputState.moveX sample_input) (InputState.moveY sample_input)
                     (negb (Z.land 3 1 =? 0)) (InputState.frameNumber sample_input).
Proof.
  split; [cbn; lia|].
  destruct truncated_input_reads_buttons_early as [_ Hg].
  apply (Hg sample_input 3 [0; 0]). cbn; lia.
Defined.

Lemma SpawnProjectile_gating_witness :
  PlayerState.alive (GameState.player fresh_round Player0) = true
  /\ F32.gtb (PlayerState.projectileCooldown (GameState.player fresh_round Player0))
             F32.zero = false
  /\ List.length
       (GameState.projectiles
          (@SpawnProjectile flat_math
             (@SpawnProjectile flat_math fresh_round Player0) Player0))
     = S (List.length (GameState.projectiles fresh_round)).
Proof.
  split; [reflexivity|]. split; [reflexivity|].
  destruct (@SpawnProjectile_gating flat_math fresh_round Player0) as [_ Hs].
  apply Hs; reflexivity.
Defined.

Lemma connect_assigns_lowest_free_slot_witness :
  let taken := ServerNetwork.mk (Some 7%nat, None) ([], []) in
  ServerNetwork.peer_at
    (fst (ServerNetwork.on_connect (fun _ => false) taken 9%nat)) Player1
  = Some 9%nat
  /\ existsb is_game_start
       (snd (ServerNetwork.on_connect (fun _ => false) taken 9%nat)) = true.
Proof.
  intros taken.
  destruct (connect_assigns_lowest_free_slot (fun _ => false) taken 9%nat)
    as (_ & Hslot & _ & Hstart & _).
  cbn in Hslot. destruct Hslot as (_ & H1 & _).
  split; [exact H1|exact Hstart].
Defined.

End Examples.

(* ------------------------------------------------------------------ *)
(** ** Sizes of the serialized forms, bounds of the reads *)

Section Sizes.

Lemma le_bytes n : forall v, Forall byte (Bytes.le n v).
Proof.
  induction n as [|n IH]; intros v; cbn [Bytes.le]; constructor.
  - unfold byte. apply Z.mod_pos_bound. lia.
  - apply IH.
Qed.

Lemma of_f32_length v : List.length (Bytes.of_f32 v) = 4%nat.
Proof. apply le_length. Qed.

Lemma of_vec3_length v : List.length (Bytes.of_vec3 v) = 12%nat.
Proof.
  unfold Bytes.of_vec3. rewrite !length_app, !of_f32_length. reflexivity.
Qed.

Lemma of_vec3_bytes v : Forall byte (Bytes.of_vec3 v).
Proof.
  unfold Bytes.of_vec3, Bytes.of_f32.
  repeat (apply Forall_app; split); apply le_bytes.
Qed.

Lemma of_bool_byte b : byte (Bytes.of_bool b).
Proof. destruct b; cbn; unfold byte; lia. Qed.

Lemma PlayerState_Serialize_length p :
  List.length (PlayerState.Serialize p) = PlayerState.SerializedSize.
Proof.
  unfold PlayerState.Serialize.
  rewrite !length_app, !of_vec3_length, !of_f32_length, le_length.
  reflexivity.
Qed.

Lemma PlayerState_Serialize_bytes p : Forall byte (PlayerState.Serialize p).
Proof.
  unfold PlayerState.Serialize, Bytes.of_f32.
  repeat (apply Forall_app; split);
    try apply of_vec3_bytes; try apply le_bytes.
  constructor; [apply of_bool_byte|constructor].
Qed.

Lemma ProjectileState_Serialize_length p :
  List.length (ProjectileState.Serialize p) = ProjectileState.SerializedSize.
Proof.
  unfold ProjectileState.Serialize.
  rewrite !length_app, !of_vec3_length, !of_f32_length, le_length.
  reflexivity.
Qed.

Lemma ProjectileState_Serialize_bytes p :
  Forall byte (ProjectileState.Serialize p).
Proof.
  unfold ProjectileState.Serialize, Bytes.of_f32.
  repeat (apply Forall_app; split);
    try apply of_vec3_bytes; try apply le_bytes.
  constructor; [apply of_bool_byte|constructor].
Qed.

Lemma projectiles_Serialize_length l :
  List.length (flat_map ProjectileState.Serialize l)
  = (ProjectileState.SerializedSize * List.length l)%nat.
Proof.
  induction l as [|p l IH]; [reflexivity|].
  cbn [flat_map List.length].
  rewrite length_app, ProjectileState_Serialize_length, IH. lia.
Qed.

Lemma projectiles_Serialize_bytes l :
  Forall byte (flat_map ProjectileState.Serialize l).
Proof.
  induction l as [|p l IH]; [constructor|].
  cbn [flat_map]. apply Forall_app. split;
    [apply ProjectileState_Serialize_bytes|exact IH].
Qed.

Lemma GameState_Serialize_length s :
  List.length (GameState.Serialize s) = GameState.MaxSerializedSize s.
Proof.
  unfold GameState.Serialize, GameState.MaxSerializedSize.
  rewrite !length_app, !PlayerState_Serialize_length,
    projectiles_Serialize_length, !le_length, of_f32_length.
  lia.
Qed.

(** X1.  The bytes [GameState::Serialize] writes are as many as
    [MaxSerializedSize] announces, for every state, and each is a byte;
    so the packet [SendGameState] builds fills the buffer of
    [MaxSerializedSize() + 1] bytes it allocates, exactly. *)
Theorem Serialize_fills_MaxSerializedSize :
  forall s : GameState.t,
    List.length (GameState.Serialize s) = GameState.MaxSerializedSize s
    /\ Forall byte (GameState.Serialize s)
    /\ forall self a,
         In a (ServerNetwork.SendGameState self s) ->
         exists p packet,
           a = ServerNetwork.Send p packet
           /\ List.length packet = (GameState.MaxSerializedSize s + 1)%nat.
Proof.
  intros s. split; [apply GameState_Serialize_length|]. split.
  - unfold GameState.Serialize, Bytes.of_f32.
    apply Forall_app; split; [apply PlayerState_Serialize_bytes|].
    apply Forall_app; split; [apply PlayerState_Serialize_bytes|].
    apply Forall_app; split; [apply le_bytes|].
    apply Forall_app; split; [apply projectiles_Serialize_bytes|].
    apply Forall_app; split; [apply le_bytes|].
    apply Forall_app; split; apply le_bytes.
  - intros self a Ha. unfold ServerNetwork.SendGameState in Ha.
    destruct (ServerNetwork.state self); try contradiction.
    apply in_app_or in Ha.
    destruct Ha as [Ha|Ha];
      [destruct (ServerNetwork.peer_at (ServerNetwork.members self) Player0)
         as [p|]
      |destruct (ServerNetwork.peer_at (ServerNetwork.members self) Player1)
         as [p|]];
      try contradiction;
      destruct Ha as [<-|[]];
      exists p, (NetPacketType.GAME_STATE :: GameState.Serialize s);
      (split; [reflexivity|]);
      cbn [List.length]; rewrite GameState_Serialize_length; lia.
Qed.

(** *** What [GameState::Deserialize] reads *)

Lemma takes_eq {A} n n' (P : A -> Prop) r :
  n = n' -> takes n P r -> takes n' P r.
Proof. intros <-. exact (fun H => H). Qed.

Lemma bind_Some {A B} (r : Bytes.Reader A) (k : A -> Bytes.Reader B)
    buf off a off' :
  r buf off = Some (a, off') -> Bytes.bind r k buf off = k a buf off'.
Proof. intros E. unfold Bytes.bind. now rewrite E. Qed.

Lemma bind_None {A B} (r : Bytes.Reader A) (k : A -> Bytes.Reader B) buf off :
  r buf off = None -> Bytes.bind r k buf off = None.
Proof. intros E. unfold Bytes.bind. now rewrite E. Qed.

Lemma firstn_shorter {A} (l l' : list A) i j :
  (i <= j)%nat -> firstn j l' = firstn j l -> firstn i l' = firstn i l.
Proof.
  intros Hij E.
  replace i with (Nat.min i j) by lia.
  rewrite <- !firstn_firstn. now rewrite E.
Qed.

Lemma firstn_same_length {A} (l l' : list A) n :
  (n <= List.length l)%nat -> firstn n l' = firstn n l ->
  (n <= List.length l')%nat.
Proof.
  intros Hl E. apply (f_equal (@List.length A)) in E.
  rewrite !length_firstn in E. lia.
Qed.

Lemma read_value n buf off :
  (off + n <= List.length buf)%nat ->
  Bytes.read n buf off = Some (firstn n (skipn off buf), (off + n)%nat).
Proof.
  intros Hl. unfold Bytes.read, Bytes.slice.
  assert (L : List.length (firstn n (skipn off buf)) = n).
  { rewrite length_firstn, length_skipn. lia. }
  rewrite L, Nat.eqb_refl. reflexivity.
Qed.

Lemma read_fails n buf off :
  (off <= List.length buf < off + n)%nat -> Bytes.read n buf off = None.
Proof.
  intros Hl. unfold Bytes.read, Bytes.slice.
  assert (L : List.length (firstn n (skipn off buf)) <> n).
  { rewrite length_firstn, length_skipn. lia. }
  apply Nat.eqb_neq in L. now rewrite L.
Qed.

Lemma takes_read n : takes n (fun _ => True) (Bytes.read n).
Proof.
  intros buf off. split; intros Hl.
  - eexists. split; [now apply read_value|]. split; [exact I|].
    intros buf' E.
    rewrite read_value by (now apply (firstn_same_length buf)).
    now rewrite !firstn_skipn_comm, E.
  - now apply read_fails.
Qed.

Lemma takes_ret {A} (P : A -> Prop) a : P a -> takes 0 P (Bytes.ret a).
Proof.
  intros Pa buf off. split; intros Hl; [|lia].
  exists a. unfold Bytes.ret. rewrite Nat.add_0_r. now repeat split.
Qed.

Lemma takes_bind {A B} n m (P : A -> Prop) (Q : B -> Prop)
    (r : Bytes.Reader A) (k : A -> Bytes.Reader B) :
  takes n P r -> (forall a, P a -> takes m Q (k a)) ->
  takes (n + m) Q (Bytes.bind r k).
Proof.
  intros Hr Hk buf off. destruct (Hr buf off) as [Hok Hfail]. split; intros Hl.
  - destruct Hok as (a & Ea & Pa & La); [lia|].
    rewrite (bind_Some _ _ _ _ _ _ Ea).
    destruct (Hk a Pa buf (off + n)%nat) as [Hok2 _].
    destruct Hok2 as (b & Eb & Qb & Lb); [lia|].
    exists b. rewrite Eb, Nat.add_assoc. split; [reflexivity|].
    split; [exact Qb|].
    intros buf' E.
    assert (E1 : firstn (off + n) buf' = firstn (off + n) buf).
    { apply (firstn_shorter buf buf' (off + n) (off + n + m)); [lia|exact E]. }
    rewrite (bind_Some _ _ _ _ _ _ (La buf' E1)).
    now apply Lb.
  - destruct (le_lt_dec (off + n) (List.length buf)) as [Hn|Hn].
    + destruct Hok as (a & Ea & Pa & _); [exact Hn|].
      rewrite (bind_Some _ _ _ _ _ _ Ea).
      destruct (Hk a Pa buf (off + n)%nat) as [_ Hfail2].
      apply Hfail2. lia.
    + apply bind_None. apply Hfail. lia.
Qed.

Lemma takes_f32 : takes 4 (fun _ => True) Bytes.read_f32.
Proof.
  apply (takes_bind 4 0 (fun _ => True)); [apply takes_read|].
  intros bs _. now apply takes_ret.
Qed.

Lemma takes_u8 : takes 1 (fun _ => True) Bytes.read_u8.
Proof.
  apply (takes_bind 1 0 (fun _ => True)); [apply takes_read|].
  intros bs _. now apply takes_ret.
Qed.

Lemma takes_u32 : takes 4 (fun _ => True) Bytes.read_u32.
Proof.
  apply (takes_bind 4 0 (fun _ => True)); [apply takes_read|].
  intros bs _. now apply takes_ret.
Qed.

Lemma takes_bool : takes 1 (fun _ => True) Bytes.read_bool.
Proof.
  apply (takes_bind 1 0 (fun _ => True)); [apply takes_read|].
  intros bs _. now apply takes_ret.
Qed.

Lemma takes_vec3 : takes 12 (fun _ => True) Bytes.read_vec3.
Proof.
  apply (takes_eq (4 + (4 + (4 + 0)))); [reflexivity|].
  unfold Bytes.read_vec3.
  repeat (eapply takes_bind; [apply takes_f32|intros ? _]).
  now apply takes_ret.
Qed.

Lemma takes_player : takes 38 (fun _ => True) PlayerState.Deserialize.
Proof.
  apply (takes_eq (12 + (12 + (4 + (4 + (4 + (1 + (1 + 0)))))))); [reflexivity|].
  unfold PlayerState.Deserialize.
  repeat (eapply takes_bind;
          [first [apply takes_vec3|apply takes_f32|apply takes_u8|apply takes_bool]
          |intros ? _]).
  now apply takes_ret.
Qed.

Lemma takes_projectile : takes 30 (fun _ => True) ProjectileState.Deserialize.
Proof.
  apply (takes_eq (12 + (12 + (1 + (4 + (1 + 0)))))); [reflexivity|].
  unfold ProjectileState.Deserialize.
  repeat (eapply takes_bind;
          [first [apply takes_vec3|apply takes_f32|apply takes_u8|apply takes_bool]
          |intros ? _]).
  now apply takes_ret.
Qed.

Lemma takes_projectiles k :
  takes (30 * k) (fun l => List.length l = k) (GameState.read_projectiles k).
Proof.
  induction k as [|k IH].
  - cbn [GameState.read_projectiles Nat.mul]. now apply takes_ret.
  - apply (takes_eq (30 + (30 * k + 0))); [lia|].
    cbn [GameState.read_projectiles].
    eapply takes_bind; [apply takes_projectile|intros p _].
    eapply takes_bind; [apply IH|intros l Hl].
    apply takes_ret. cbn [List.length]. now rewrite Hl.
Qed.

(** The reads behind the count [c]. *)
Lemma takes_behind_count p0 p1 (c : Z) :
  takes (30 * Z.to_nat c + 9)
    (fun s => List.length (GameState.projectiles s) = Z.to_nat c)
    (projs <- GameState.read_projectiles (Z.to_nat c) ;;
     fn <- Bytes.read_u32 ;;
     rt <- Bytes.read_f32 ;;
     cr <- Bytes.read_u8 ;;
     Bytes.ret (GameState.mk (p0, p1) projs fn rt cr)).
Proof.
  apply (takes_eq (30 * Z.to_nat c + (4 + (4 + (1 + 0))))); [lia|].
  eapply takes_bind; [apply takes_projectiles|intros projs Hl].
  eapply takes_bind; [apply takes_u32|intros fn _].
  eapply takes_bind; [apply takes_f32|intros rt _].
  eapply takes_bind; [apply takes_u8|intros cr _].
  now apply takes_ret.
Qed.

Lemma read_u16_value buf off :
  (off + 2 <= List.length buf)%nat ->
  Bytes.read_u16 buf off
  = Some (Bytes.join (firstn 2 (skipn off buf)), (off + 2)%nat).
Proof.
  intros Hl. unfold Bytes.read_u16.
  rewrite (bind_Some _ _ _ _ _ _ (read_value 2 buf off Hl)).
  reflexivity.
Qed.

Lemma Deserialize_bounds buffer :
  ((bytes_read buffer <= List.length buffer)%nat ->
   exists s,
     GameState.Deserialize buffer O = Some (s, bytes_read buffer)
     /\ List.length (GameState.projectiles s) = announced_projectiles buffer
     /\ forall buf',
          firstn (bytes_read buffer) buf' = firstn (bytes_read buffer) buffer ->
          GameState.Deserialize buf' O = Some (s, bytes_read buffer))
  /\ ((List.length buffer < bytes_read buffer)%nat ->
      GameState.Deserialize buffer O = None).
Proof.
  unfold bytes_read, announced_projectiles, GameState.Deserialize.
  set (c := Bytes.join (firstn 2 (skipn 76 buffer))).
  destruct (le_lt_dec 78 (List.length buffer)) as [H78|H78].
  - destruct (takes_player buffer O) as [Hok _].
    destruct Hok as (p0 & E0 & _ & L0); [lia|].
    rewrite (bind_Some _ _ _ _ _ _ E0).
    destruct (takes_player buffer (0 + 38)%nat) as [Hok _].
    destruct Hok as (p1 & E1 & _ & L1); [cbn; lia|].
    rewrite (bind_Some _ _ _ _ _ _ E1).
    rewrite (bind_Some _ _ _ _ _ _ (read_u16_value buffer 76 H78)).
    fold c. change (76 + 2)%nat with 78%nat.
    destruct (takes_behind_count p0 p1 c buffer 78%nat) as [Hok Hfail].
    split; intros Hl.
    + destruct Hok as (s & Es & Hs & Ls); [lia|].
      replace (78 + (30 * Z.to_nat c + 9))%nat
        with (87 + 30 * Z.to_nat c)%nat in * by lia.
      exists s. split; [exact Es|]. split; [exact Hs|].
      intros buf' E.
      assert (E38 : firstn (0 + 38) buf' = firstn (0 + 38) buffer).
      { apply (firstn_shorter buffer buf' _ (87 + 30 * Z.to_nat c));
          [cbn; lia|exact E]. }
      assert (E76 : firstn (0 + 38 + 38) buf' = firstn (0 + 38 + 38) buffer).
      { apply (firstn_shorter buffer buf' _ (87 + 30 * Z.to_nat c));
          [cbn; lia|exact E]. }
      assert (E78 : firstn (76 + 2) buf' = firstn (76 + 2) buffer).
      { apply (firstn_shorter buffer buf' _ (87 + 30 * Z.to_nat c));
          [cbn; lia|exact E]. }
      assert (H78' : (76 + 2 <= List.length buf')%nat).
      { apply (firstn_same_length buffer); [exact H78|exact E78]. }
      rewrite (bind_Some _ _ _ _ _ _ (L0 buf' E38)).
      rewrite (bind_Some _ _ _ _ _ _ (L1 buf' E76)).
      rewrite (bind_Some _ _ _ _ _ _ (read_u16_value buf' 76 H78')).
      assert (Ec : Bytes.join (firstn 2 (skipn 76 buf')) = c).
      { unfold c. rewrite !firstn_skipn_comm. now rewrite E78. }
      rewrite Ec. now apply Ls.
    + apply Hfail. lia.
  - split; intros Hl; [lia|].
    destruct (le_lt_dec 38 (List.length buffer)) as [H38|H38].
    + destruct (takes_player buffer O) as [Hok _].
      destruct Hok as (p0 & E0 & _); [lia|].
      rewrite (bind_Some _ _ _ _ _ _ E0).
      destruct (le_lt_dec 76 (List.length buffer)) as [H76|H76].
      * destruct (takes_player buffer (0 + 38)%nat) as [Hok _].
        destruct Hok as (p1 & E1 & _); [cbn; lia|].
        rewrite (bind_Some _ _ _ _ _ _ E1).
        apply bind_None. unfold Bytes.read_u16.
        apply bind_None. apply read_fails. cbn. lia.
      * apply bind_None.
        destruct (takes_player buffer (0 + 38)%nat) as [_ Hfail].
        apply Hfail. cbn. lia.
    + apply bind_None.
      destruct (takes_player buffer O) as [_ Hfail].
      apply Hfail. lia.
Qed.

(** X2.  [GameState::Deserialize] does not look at [size]: it reads the
    two players, the 16-bit count at offset 76, as many projectiles as the
    count announces, and nine more bytes.  The reads stay inside the
    buffer exactly when the buffer has these [87 + 30 * count] bytes; the
    state then has [count] projectiles, its [MaxSerializedSize()] is the
    number of bytes read, and what follows them in the buffer is not
    looked at. *)
Theorem Deserialize_reads_what_the_count_announces :
  forall buffer : list Z,
    ((bytes_read buffer <= List.length buffer)%nat ->
     exists s,
       GameState.decode buffer = Some s
       /\ List.length (GameState.projectiles s) = announced_projectiles buffer
       /\ GameState.MaxSerializedSize s = bytes_read buffer
       /\ GameState.decode (firstn (bytes_read buffer) buffer) = Some s)
    /\ ((List.length buffer < bytes_read buffer)%nat ->
        GameState.decode buffer = None).
Proof.
  intros buffer. destruct (Deserialize_bounds buffer) as [Hok Hfail].
  split; intros Hl.
  - destruct (Hok Hl) as (s & Es & Hs & Ls).
    exists s. unfold GameState.decode. rewrite Es.
    split; [reflexivity|]. split; [exact Hs|]. split.
    + unfold GameState.MaxSerializedSize, bytes_read. rewrite Hs.
      change PlayerState.SerializedSize with 38%nat.
      change ProjectileState.SerializedSize with 30%nat. lia.
    + rewrite (Ls (firstn (bytes_read buffer) buffer)); [reflexivity|].
      rewrite firstn_firstn. now rewrite Nat.min_id.
  - unfold GameState.decode. now rewrite (Hfail Hl).
Qed.

Lemma InputState_Serialize_length i :
  List.length (InputState.Serialize i) = InputState.SerializedSize.
Proof.
  unfold InputState.Serialize.
  rewrite !length_app, !of_f32_length, le_length. reflexivity.
Qed.

(** X3.  [InputState::Serialize] writes [SerializedSize()] = 13 bytes for
    every input, each a byte; the packet [SendInput] builds has 14 bytes
    and fits its buffer of 64. *)
Theorem InputState_Serialize_size :
  forall i : InputState.t,
    List.length (InputState.Serialize i) = InputState.SerializedSize
    /\ InputState.SerializedSize = 13%nat
    /\ Forall byte (InputState.Serialize i)
    /\ forall self a,
         In a (ClientNetwork.SendInput self i) ->
         exists p packet,
           a = ClientNetwork.Send p packet
           /\ List.length packet = 14%nat /\ (List.length packet <= 64)%nat.
Proof.
  intros i. split; [apply InputState_Serialize_length|].
  split; [reflexivity|]. split.
  - unfold InputState.Serialize, Bytes.of_f32.
    repeat (apply Forall_app; split); try apply le_bytes.
    constructor; [|constructor].
    destruct (InputState.throwProjectile i); cbn; unfold byte; lia.
  - intros self a Ha. unfold ClientNetwork.SendInput in Ha.
    destruct (ClientNetwork.state self); try contradiction.
    destruct (ClientNetwork.peer self) as [p|]; try contradiction.
    destruct Ha as [<-|[]].
    exists p, (NetPacketType.INPUT :: InputState.Serialize i).
    split; [reflexivity|].
    cbn [List.length]. rewrite InputState_Serialize_length.
    cbn. lia.
Qed.

End Sizes.

(* ------------------------------------------------------------------ *)
(** ** The resets *)

Section Resets.
Import GameSimulation.

(** X4.  Whatever the state, [ResetRound] leaves a round that can be
    played: both players alive at full hit points, inside the arena and
    able to shoot, no projectile, the timer at [ROUND_TIME].  The wins,
    the frame number and the round number are kept. *)
Theorem ResetRound_starts_a_sound_round :
  forall (s : GameState.t) (i : PlayerIndex),
    let r := GameState.ResetRound s in
    let p := GameState.player r i in
    PlayerState.alive p = true
    /\ PlayerState.hp p = GameConstants.STARTING_HP
    /\ hp_invariant p = true
    /\ in_arena (glm.x (PlayerState.position p)) = true
    /\ in_arena (glm.z (PlayerState.position p)) = true
    /\ CanShoot p = true
    /\ PlayerState.roundWins p = PlayerState.roundWins (GameState.player s i)
    /\ GameState.projectiles r = []
    /\ GameState.roundTimer r = GameConstants.ROUND_TIME
    /\ GameState.frameNumber r = GameState.frameNumber s
    /\ GameState.currentRound r = GameState.currentRound s.
Proof.
  intros [[p0 p1] projs fn rt cr] i r p.
  destruct i; repeat split; reflexivity.
Qed.

(** X5.  [ResetMatch] keeps nothing of the state it is called on: it
    returns the same state from any two.  A [ResetRound] before or after
    it changes nothing, and [ResetRound] done twice is [ResetRound]. *)
Theorem ResetMatch_forgets_the_state :
  forall s s' : GameState.t,
    GameState.ResetMatch s = GameState.ResetMatch s'
    /\ GameState.ResetRound (GameState.ResetMatch s) = GameState.ResetMatch s
    /\ GameState.ResetMatch (GameState.ResetRound s) = GameState.ResetMatch s
    /\ GameState.ResetRound (GameState.ResetRound s) = GameState.ResetRound s.
Proof.
  intros [[p0 p1] projs fn rt cr] [[q0 q1] projs' fn' rt' cr'].
  repeat split; reflexivity.
Qed.

End Resets.

(* ------------------------------------------------------------------ *)
(** ** [InputState::Deserialize] by the length of the buffer *)

Section InputLengths.

Ltac uncons l :=
  destruct l as [|? l]; [cbn [List.length] in *; try lia|].

Ltac run_Deserialize :=
  unfold InputState.Deserialize;
  cbn [List.length Nat.leb Nat.add skipn firstn nth
       InputState.moveX InputState.moveY InputState.throwProjectile
       InputState.frameNumber];
  try (cbn [Bytes.join]; rewrite Z.mul_0_r, Z.add_0_r);
  try reflexivity.

(** X6.  On a buffer of 5, 6 or 7 bytes [moveX] is read from the first
    four, [moveY] is not read, and the fire flag is read from bit 0 of
    byte 4, a byte of [moveY] on the wire; the frame number is kept. *)
Theorem Deserialize_five_to_seven_bytes :
  forall (self : InputState.t) (b0 b1 b2 b3 b4 : Z) (rest : list Z),
    (List.length rest < 3)%nat ->
    InputState.Deserialize self (b0 :: b1 :: b2 :: b3 :: b4 :: rest)
    = InputState.mk (Bytes.to_f32 [b0; b1; b2; b3])
                    (InputState.moveY self)
                    (negb (Z.land b4 1 =? 0))
                    (InputState.frameNumber self).
Proof.
  intros self b0 b1 b2 b3 b4 rest Hl.
  destruct rest as [|b5 [|b6 [|b7 rest]]]; cbn [List.length] in Hl; try lia;
    run_Deserialize.
Qed.

(** X7.  On a buffer that ends where a field ends, or inside the frame
    number, the fields that are there are read and the others kept:
    nothing on the empty buffer, [moveX] on 4 bytes, the two axes on 8,
    the axes and the fire flag on 9 to 12 bytes.  On 13 bytes or more
    every field is overwritten, from the first 13 bytes: the result
    depends neither on the object nor on the bytes that follow. *)
Theorem Deserialize_reads_complete_fields :
  forall self : InputState.t,
    InputState.Deserialize self [] = self
    /\ (forall b0 b1 b2 b3,
          InputState.Deserialize self [b0; b1; b2; b3]
          = InputState.mk (Bytes.to_f32 [b0; b1; b2; b3])
                          (InputState.moveY self)
                          (InputState.throwProjectile self)
                          (InputState.frameNumber self))
    /\ (forall b0 b1 b2 b3 b4 b5 b6 b7,
          InputState.Deserialize self [b0; b1; b2; b3; b4; b5; b6; b7]
          = InputState.mk (Bytes.to_f32 [b0; b1; b2; b3])
                          (Bytes.to_f32 [b4; b5; b6; b7])
                          (InputState.throwProjectile self)
                          (InputState.frameNumber self))
    /\ (forall buffer,
          (9 <= List.length buffer < 13)%nat ->
          InputState.Deserialize self buffer
          = InputState.mk (Bytes.to_f32 (firstn 4 buffer))
                          (Bytes.to_f32 (firstn 4 (skipn 4 buffer)))
                          (negb (Z.land (nth 8 buffer 0) 1 =? 0))
                          (InputState.frameNumber self))
    /\ (forall buffer,
          (13 <= List.length buffer)%nat ->
          InputState.Deserialize self buffer
          = InputState.mk (Bytes.to_f32 (firstn 4 buffer))
                          (Bytes.to_f32 (firstn 4 (skipn 4 buffer)))
                          (negb (Z.land (nth 8 buffer 0) 1 =? 0))
                          (Bytes.join (firstn 4 (skipn 9 buffer)))).
Proof.
  intros self. split; [now destruct self|].
  split; [intros; run_Deserialize|].
  split; [intros; run_Deserialize|].
  split.
  - intros buffer Hl.
    do 9 (uncons buffer).
    destruct buffer as [|b9 [|b10 [|b11 [|b12 rest]]]];
      cbn [List.length] in Hl; try lia; run_Deserialize.
  - intros buffer Hl.
    do 13 (uncons buffer).
    run_Deserialize.
Qed.

Lemma SFeqb_sym x y : SFeqb x y = SFeqb y x.
Proof.
  unfold SFeqb. rewrite (F32Facts.SFcompare_antisym x y).
  destruct (SFcompare x y) as [[]|]; reflexivity.
Qed.

(** X8.  [operator==] is symmetric, and [operator!=] is true of an input
    and itself exactly when one of its axes is a NaN. *)
Theorem input_equality_is_symmetric :
  forall a b : InputState.t,
    InputState.eqb a b = InputState.eqb b a
    /\ InputState.neqb a b = InputState.neqb b a
    /\ InputState.neqb a a
       = F32.is_nan (InputState.moveX a) || F32.is_nan (InputState.moveY a).
Proof.
  intros a b.
  assert (E : InputState.eqb a b = InputState.eqb b a).
  { unfold InputState.eqb, F32.eqb.
    rewrite (SFeqb_sym (InputState.moveX a)), (SFeqb_sym (InputState.moveY a)).
    rewrite (Z.eqb_sym (InputState.frameNumber a)).
    destruct (InputState.throwProjectile a), (InputState.throwProjectile b);
      reflexivity. }
  split; [exact E|]. split.
  - unfold InputState.neqb. now rewrite E.
  - unfold InputState.neqb. rewrite input_eqb_refl.
    destruct (F32.is_nan (InputState.moveX a)),
             (F32.is_nan (InputState.moveY a)); reflexivity.
Qed.

End InputLengths.

(* ------------------------------------------------------------------ *)
(** ** The GLFW helpers *)

Section Keyboard.
Context `{CMath}.
Import GameSimulation.

Lemma keyboard_axes window frameNumber :
  let i := GetInputStateFromKeyboard window frameNumber in
  F32.valid (InputState.moveX i) = true
  /\ F32.valid (InputState.moveY i) = true
  /\ F32.is_finite (InputState.moveX i) = true
  /\ F32.is_finite (InputState.moveY i) = true
  /\ F32.leb (F32.abs (InputState.moveX i)) F32.one = true
  /\ F32.leb (F32.abs (InputState.moveY i)) F32.one = true.
Proof.
  destruct window as [[] [] [] [] sp]; vm_compute; repeat split.
Qed.

(** X9.  Whatever keys are down, [GetInputStateFromKeyboard] returns an
    input whose axes are finite binary32 numbers of magnitude at most 1;
    opposite keys cancel; the fire flag is the space key and the frame
    number the one given.  An alive player inside the arena that is
    updated with such an input is inside the arena afterwards. *)
Theorem keyboard_input_is_bounded :
  forall (window : GLFW.Keys) (frameNumber : Z),
    let i := GetInputStateFromKeyboard window frameNumber in
    F32.valid (InputState.moveX i) = true
    /\ F32.valid (InputState.moveY i) = true
    /\ F32.is_finite (InputState.moveX i) = true
    /\ F32.is_finite (InputState.moveY i) = true
    /\ F32.leb (F32.abs (InputState.moveX i)) F32.one = true
    /\ F32.leb (F32.abs (InputState.moveY i)) F32.one = true
    /\ (GLFW.KEY_A window = GLFW.KEY_D window ->
        InputState.moveX i = F32.zero)
    /\ (GLFW.KEY_W window = GLFW.KEY_S window ->
        InputState.moveY i = F32.zero)
    /\ InputState.throwProjectile i = GLFW.KEY_SPACE window
    /\ InputState.frameNumber i = frameNumber
    /\ forall e p idx,
         PlayerState.alive p = true ->
         in_arena (glm.x (PlayerState.position p)) = true ->
         in_arena (glm.z (PlayerState.position p)) = true ->
         in_arena (glm.x (PlayerState.position (UpdatePlayer e p i idx))) = true
         /\ in_arena (glm.z (PlayerState.position (UpdatePlayer e p i idx)))
            = true.
Proof.
  intros window frameNumber i.
  destruct (keyboard_axes window frameNumber)
    as (Vx & Vy & Fx & Fy & Lx & Ly).
  fold i in Vx, Vy, Fx, Fy, Lx, Ly.
  repeat (split; [assumption|]).
  split.
  { subst i. destruct window as [[] [] [] [] sp]; cbn [GLFW.KEY_A GLFW.KEY_D];
      intros E; try discriminate E; vm_compute; reflexivity. }
  split.
  { subst i. destruct window as [[] [] [] [] sp]; cbn [GLFW.KEY_W GLFW.KEY_S];
      intros E; try discriminate E; vm_compute; reflexivity. }
  split; [subst i; destruct window as [[] [] [] [] sp]; reflexivity|].
  split; [subst i; destruct window as [[] [] [] [] sp]; reflexivity|].
  intros e p idx Ha Hx Hz.
  apply UpdatePlayer_in_arena; try assumption.
  - destruct (InputState.moveX i); try reflexivity; discriminate Fx.
  - destruct (InputState.moveY i); try reflexivity; discriminate Fy.
Qed.

Lemma clamp_id v :
  in_arena v = true -> clamp v (F32.neg ARENA_HALF_SIZE) ARENA_HALF_SIZE = v.
Proof.
  unfold in_arena, clamp, F32.leb, F32.ltb, SFleb, SFltb.
  intros E. apply andb_true_iff in E. destruct E as [Elo Ehi].
  rewrite (F32Facts.SFcompare_antisym (F32.neg ARENA_HALF_SIZE) v).
  rewrite (F32Facts.SFcompare_antisym v ARENA_HALF_SIZE).
  destruct (SFcompare (F32.neg ARENA_HALF_SIZE) v) as [[]|];
    try discriminate Elo;
    destruct (SFcompare v ARENA_HALF_SIZE) as [[]|];
    try discriminate Ehi; reflexivity.
Qed.

(** X10.  With no gamepad, or with both axes of the stick inside the dead
    zone, [GetInputStateFromGamepad] returns an input whose two axes are
    zero, with the frame number given; [UpdatePlayer] with such an input
    leaves a player that is inside the arena where it is. *)
Theorem stick_at_rest_does_not_move :
  forall (gamepad : option GLFW.GLFWgamepadstate) (frameNumber : Z)
         (deadzone : F32.t) (e : GameSimulation.t) (p : PlayerState.t)
         (idx : PlayerIndex),
    (forall st,
       gamepad = Some st ->
       F32.ltb (F32.abs (GLFW.AXIS_LEFT_X st)) deadzone = true
       /\ F32.ltb (F32.abs (GLFW.AXIS_LEFT_Y st)) deadzone = true) ->
    in_arena (glm.x (PlayerState.position p)) = true ->
    in_arena (glm.z (PlayerState.position p)) = true ->
    let i := GetInputStateFromGamepad gamepad frameNumber deadzone in
    InputState.moveX i = F32.zero
    /\ InputState.moveY i = F32.zero
    /\ InputState.frameNumber i = frameNumber
    /\ PlayerState.position (UpdatePlayer e p i idx) = PlayerState.position p.
Proof.
  intros gamepad frameNumber deadzone e p idx Hd Hx Hz i.
  assert (Ex : InputState.moveX i = F32.zero).
  { subst i. unfold GetInputStateFromGamepad.
    destruct gamepad as [st|]; [|reflexivity].
    destruct (Hd st eq_refl) as [-> _]. reflexivity. }
  assert (Ey : InputState.moveY i = F32.zero).
  { subst i. unfold GetInputStateFromGamepad.
    destruct gamepad as [st|]; [|reflexivity].
    destruct (Hd st eq_refl) as [_ ->]. reflexivity. }
  split; [exact Ex|]. split; [exact Ey|]. split.
  { subst i. unfold GetInputStateFromGamepad.
    destruct gamepad; reflexivity. }
  destruct (PlayerState.alive p) eqn:Ea.
  - rewrite (UpdatePlayer_position_alive e p i idx Ea). cbv zeta.
    rewrite Ex, Ey.
    change (F32.gtb (glm.length (glm.mkvec3 F32.zero F32.zero F32.zero))
                    (F32.of_ratio 1 100)) with false.
    cbv iota. rewrite (clamp_id _ Hx), (clamp_id _ Hz).
    now destruct (PlayerState.position p).
  - now rewrite (UpdatePlayer_dead e p i idx Ea).
Qed.

End Keyboard.

(* ------------------------------------------------------------------ *)
(** ** Shooting: [CanShoot] and [SpawnProjectile] *)

Section Shooting.
Context `{CMath}.
Import GameSimulation.

Lemma leb_zero_not_gtb c :
  F32.is_nan c = false -> F32.leb c F32.zero = negb (F32.gtb c F32.zero).
Proof.
  intros Hn. unfold F32.leb, F32.gtb, SFleb, SFltb.
  rewrite (F32Facts.SFcompare_antisym c F32.zero).
  destruct (F32Facts.SFcompare_not_nan c F32.zero Hn eq_refl) as [cmp E].
  rewrite E. destruct cmp; reflexivity.
Qed.

Lemma SpawnProjectile_fires s i :
  F32.gtb (PlayerState.projectileCooldown (GameState.player s i)) F32.zero
  = false ->
  PlayerState.alive (GameState.player s i) = true ->
  exists proj,
    GameState.projectiles (SpawnProjectile s i)
    = GameState.projectiles s ++ [proj].
Proof.
  intros Hc Ha. unfold SpawnProjectile. rewrite Hc, Ha. cbn [orb negb].
  eexists. destruct i; reflexivity.
Qed.

(** X11.  [CanShoot] tells what [SpawnProjectile] will do whenever the
    cooldown is a number: true when a projectile is appended, false when
    the state is returned as it is.  On a cooldown that is a NaN the two
    disagree: [CanShoot] is false and [SpawnProjectile] fires. *)
Theorem CanShoot_agrees_with_SpawnProjectile :
  forall (s : GameState.t) (i : PlayerIndex),
    let p := GameState.player s i in
    (F32.is_nan (PlayerState.projectileCooldown p) = false ->
     (CanShoot p = true ->
      exists proj,
        GameState.projectiles (SpawnProjectile s i)
        = GameState.projectiles s ++ [proj])
     /\ (CanShoot p = false -> SpawnProjectile s i = s))
    /\ (F32.is_nan (PlayerState.projectileCooldown p) = true ->
        PlayerState.alive p = true ->
        CanShoot p = false
        /\ exists proj,
             GameState.projectiles (SpawnProjectile s i)
             = GameState.projectiles s ++ [proj]).
Proof.
  intros s i p. split.
  - intros Hn. unfold CanShoot. rewrite (leb_zero_not_gtb _ Hn). split.
    + intros Hc. apply andb_true_iff in Hc. destruct Hc as [Ha Hc].
      apply negb_true_iff in Hc. now apply SpawnProjectile_fires.
    + intros Hc. apply SpawnProjectile_refused. fold p.
      destruct (PlayerState.alive p); [right|now left].
      cbn [andb] in Hc. now apply negb_false_iff in Hc.
  - intros Hn Ha.
    destruct (PlayerState.projectileCooldown p) eqn:Ec; try discriminate Hn.
    split.
    + unfold CanShoot. rewrite Ec, Ha. reflexivity.
    + apply SpawnProjectile_fires; [|exact Ha]. fold p. now rewrite Ec.
Qed.

End Shooting.

(* ------------------------------------------------------------------ *)
(** ** What [Update] leaves alone, and what it does to the projectiles *)

Section Frame.
Context `{CMath}.
Import GameSimulation.

Lemma CheckWinConditions_frame e s :
  GameState.frameNumber (CheckWinConditions e s) = GameState.frameNumber s
  /\ GameState.currentRound (CheckWinConditions e s) = GameState.currentRound s
  /\ GameState.roundTimer (CheckWinConditions e s) = GameState.roundTimer s.
Proof.
  unfold CheckWinConditions, incr_roundWins.
  destruct (deadPlayer s) as [[]|];
    repeat match goal with |- context [if ?c then _ else _] => destruct c end;
    repeat split; reflexivity.
Qed.

Lemma after_collisions_frame e s i0 i1 :
  GameState.frameNumber (after_collisions e s i0 i1)
  = (GameState.frameNumber s + 1) mod 2 ^ 32
  /\ GameState.currentRound (after_collisions e s i0 i1)
     = GameState.currentRound s
  /\ GameState.roundTimer (after_collisions e s i0 i1)
     = tick_timer (GameState.roundTimer s).
Proof.
  unfold after_collisions, CheckCollisions, UpdateProjectiles, tick_timer.
  match goal with |- context [collide ?a ?b] => destruct (collide a b) end.
  cbn [GameState.roundTimer GameState.set_roundTimer GameState.set_frameNumber].
  destruct (F32.ltb (F32.sub (GameState.roundTimer s) FIXED_DT) F32.zero);
    repeat split; reflexivity.
Qed.

(** A field of the players that a hit does not write comes out of the
    collision pass as it went in. *)
Lemma collide_field {A} (f : PlayerState.t -> A) :
  (forall p proj, f (apply_hit p proj) = f p) ->
  forall projs ps j, f (get (fst (collide ps projs)) j) = f (get ps j).
Proof.
  intros Hf projs ps j.
  apply (collide_invariant (fun ps' => f (get ps' j) = f (get ps j))
                           (fun _ => True)).
  - intros ps' i proj Hp _ _ _.
    destruct i, j; cbn [get set fst snd] in *; rewrite ?Hf; exact Hp.
  - apply Forall_forall; intros; exact I.
  - reflexivity.
Qed.

Lemma apply_hit_velocity p proj :
  PlayerState.velocity (apply_hit p proj) = PlayerState.velocity p.
Proof.
  unfold apply_hit.
  match goal with |- context [if ?c then _ else _] => destruct c end;
    reflexivity.
Qed.

Lemma apply_hit_cooldown p proj :
  PlayerState.projectileCooldown (apply_hit p proj)
  = PlayerState.projectileCooldown p.
Proof.
  unfold apply_hit.
  match goal with |- context [if ?c then _ else _] => destruct c end;
    reflexivity.
Qed.

Lemma UpdatePlayer_velocity e p input i :
  PlayerState.velocity (UpdatePlayer e p input i) = PlayerState.velocity p.
Proof.
  unfold UpdatePlayer.
  repeat match goal with |- context [if ?c then _ else _] => destruct c end;
    reflexivity.
Qed.

Lemma step_field {A} (f : PlayerState.t -> A) e s i0 i1 j :
  (forall p q, same_but_roundWins p q -> f p = f q) ->
  (forall p proj, f (apply_hit p proj) = f p) ->
  f (GameState.player (step e s i0 i1) j)
  = f (UpdatePlayer e (GameState.player s j) (input_of j (i0, i1)) j).
Proof.
  intros Hw Hh.
  rewrite step_after_collisions.
  rewrite (Hw _ _ (CheckWinConditions_same e _ j)).
  rewrite player_get, after_collisions_players, (collide_field f Hh).
  rewrite players_before_collisions_get. now destruct j.
Qed.

(** X12.  [Update] adds one to the frame number, modulo [2 ^ 32]; it
    never writes the round number, nor the velocity of a player. *)
Theorem Update_frame :
  forall (e : GameSimulation.t) (s : GameState.t) (i0 i1 : InputState.t),
    GameState.frameNumber (step e s i0 i1)
    = (GameState.frameNumber s + 1) mod 2 ^ 32
    /\ GameState.currentRound (step e s i0 i1) = GameState.currentRound s
    /\ forall j,
         PlayerState.velocity (GameState.player (step e s i0 i1) j)
         = PlayerState.velocity (GameState.player s j).
Proof.
  intros e s i0 i1.
  destruct (CheckWinConditions_frame e (after_collisions e s i0 i1))
    as (Ef & Er & _).
  destruct (after_collisions_frame e s i0 i1) as (Ef' & Er' & _).
  rewrite step_after_collisions, Ef, Er. repeat split; try assumption.
  intros j. rewrite <- step_after_collisions.
  rewrite (step_field PlayerState.velocity).
  - apply UpdatePlayer_velocity.
  - now intros p q (_ & Ev & _).
  - apply apply_hit_velocity.
Qed.

(** The collision pass returns the projectiles it was given, one for
    one, some of them deactivated. *)
Lemma collide_projectiles_pointwise projs :
  forall ps,
    Forall2 (fun a b => b = a \/ b = ProjectileState.set_active a false)
            projs (snd (collide ps projs)).
Proof.
  induction projs as [|proj rest IH]; intros ps; cbn [collide].
  - constructor.
  - destruct (negb (ProjectileState.active proj)).
    + specialize (IH ps). destruct (collide ps rest) as [ps2 rest2].
      cbn [snd] in *. constructor; [now left|exact IH].
    + destruct (hit_scan_cases [Player0; Player1] ps proj)
        as [E|(i & _ & _ & _ & E)]; rewrite E.
      * specialize (IH ps). destruct (collide ps rest) as [ps2 rest2].
        cbn [snd] in *. constructor; [now left|exact IH].
      * specialize (IH (set ps i (apply_hit (get ps i) proj))).
        destruct (collide (set ps i (apply_hit (get ps i) proj)) rest)
          as [ps2 rest2].
        cbn [snd] in *. constructor; [now right|exact IH].
Qed.

Lemma Forall2_sources {A B} (R : A -> B -> Prop) l l' :
  Forall2 R l l' -> Forall (fun b => exists a, In a l /\ R a b) l'.
Proof.
  induction 1 as [|a b l l' Hab _ IH]; constructor.
  - exists a. split; [now left|exact Hab].
  - eapply Forall_impl; [|exact IH].
    intros b' (a' & Hin & HR). exists a'. split; [now right|exact HR].
Qed.

Lemma move_projectile_moved p :
  ProjectileState.active (move_projectile p) = true ->
  moved_from p (move_projectile p) /\ out_of_bounds (move_projectile p) = false.
Proof.
  intros Ha. pose proof (move_projectile_active p Ha) as Hp.
  revert Ha. unfold move_projectile, out_of_bounds. rewrite Hp. cbn [negb].
  match goal with |- context [if ?c then _ else _] => destruct c eqn:E end.
  - cbn. discriminate.
  - intros _. split; [|exact E].
    unfold moved_from. now repeat split.
Qed.

(** X13.  [Update] creates no projectile.  Every projectile of the state
    it returns is one that was active before, moved by its velocity for
    one tick, with the owner, the velocity and the damage it had; none of
    them is beyond [ARENA_HALF_SIZE + 5] on x or z; and there are no more
    of them than before. *)
Theorem Update_moves_and_drops_projectiles :
  forall (e : GameSimulation.t) (s : GameState.t) (i0 i1 : InputState.t),
    Forall (fun p' =>
              out_of_bounds p' = false
              /\ exists p, In p (GameState.projectiles s) /\ moved_from p p')
           (GameState.projectiles (step e s i0 i1))
    /\ (List.length (GameState.projectiles (step e s i0 i1))
        <= List.length (GameState.projectiles s))%nat.
Proof.
  intros e s i0 i1.
  rewrite step_after_collisions, CheckWinConditions_projectiles,
    after_collisions_projectiles.
  pose proof (collide_projectiles_pointwise
                (projectiles_before_collisions s)
                (players_before_collisions s i0 i1 e)) as HF.
  split.
  - eapply Forall_impl; [|exact (Forall2_sources _ _ _ HF)].
    intros b (a & Hin & Hab).
    unfold projectiles_before_collisions in Hin.
    apply filter_In in Hin. destruct Hin as [Hin Hact].
    apply in_map_iff in Hin. destruct Hin as (p & <- & Hp).
    destruct (move_projectile_moved p Hact) as [Hm Ho].
    assert (Hpos : ProjectileState.position b
                   = ProjectileState.position (move_projectile p)
                   /\ ProjectileState.velocity b
                      = ProjectileState.velocity (move_projectile p)
                   /\ ProjectileState.ownerID b
                      = ProjectileState.ownerID (move_projectile p)
                   /\ ProjectileState.damage b
                      = ProjectileState.damage (move_projectile p)).
    { destruct Hab as [->| ->]; repeat split; reflexivity. }
    destruct Hpos as (Ep & Ev & Eo & Ed).
    split.
    + unfold out_of_bounds in *. now rewrite Ep.
    + exists p. split; [exact Hp|].
      destruct Hm as (H1 & H2 & H3 & H4 & H5).
      unfold moved_from. rewrite Ep, Ev, Eo, Ed. now repeat split.
  - rewrite <- (Forall2_length HF). unfold projectiles_before_collisions.
    etransitivity; [apply filter_length_le|]. now rewrite length_map.
Qed.

Lemma filter_move_filter l :
  filter ProjectileState.active
    (map move_projectile (filter ProjectileState.active l))
  = filter ProjectileState.active (map move_projectile l).
Proof.
  induction l as [|p l IH]; [reflexivity|].
  cbn [filter map].
  destruct (ProjectileState.active p) eqn:Ea.
  - cbn [map filter]. now rewrite IH.
  - assert (Em : move_projectile p = p).
    { unfold move_projectile. now rewrite Ea. }
    rewrite Em, Ea. exact IH.
Qed.

(** X14.  A projectile that is not active has no effect: [Update]
    returns the same state with the inactive projectiles of the state and
    without them. *)
Theorem inactive_projectiles_are_inert :
  forall (e : GameSimulation.t) (s : GameState.t) (i0 i1 : InputState.t),
    step e
      (GameState.set_projectiles s
         (filter ProjectileState.active (GameState.projectiles s)))
      i0 i1
    = step e s i0 i1.
Proof.
  intros e [ps projs fn rt cr] i0 i1.
  rewrite !step_after_collisions. f_equal.
  unfold after_collisions, UpdateProjectiles.
  cbn [GameState.set_projectiles GameState.projectiles GameState.players
       GameState.frameNumber GameState.roundTimer GameState.currentRound
       GameState.set_frameNumber GameState.set_roundTimer].
  destruct (F32.ltb (F32.sub rt FIXED_DT) F32.zero);
    cbn [GameState.set_projectiles GameState.projectiles GameState.players
         GameState.frameNumber GameState.roundTimer GameState.currentRound
         GameState.set_frameNumber GameState.set_roundTimer
         GameState.set_player GameState.set_players GameState.player];
    now rewrite filter_move_filter.
Qed.

End Frame.

(* ------------------------------------------------------------------ *)
(** ** The round timer and the cooldown *)

Section Clocks.
Context `{CMath}.
Import GameSimulation.

Lemma step_roundTimer e s i0 i1 :
  GameState.roundTimer (step e s i0 i1) = tick_timer (GameState.roundTimer s).
Proof.
  destruct (CheckWinConditions_frame e (after_collisions e s i0 i1))
    as (_ & _ & Et).
  destruct (after_collisions_frame e s i0 i1) as (_ & _ & Et').
  now rewrite step_after_collisions, Et.
Qed.

Lemma run_roundTimer e inputs :
  forall s,
    GameState.roundTimer (snd (run e s inputs))
    = Nat.iter (List.length inputs) tick_timer (GameState.roundTimer s).
Proof.
  induction inputs as [|[i0 i1] rest IH]; intros s; [reflexivity|].
  rewrite run_cons, IH, step_roundTimer.
  cbn [List.length]. now rewrite Nat.iter_succ_r.
Qed.

Lemma positive_for_spec f n :
  forall t,
    positive_for f n t = true ->
    forall k, (k < n)%nat -> F32.gtb (Nat.iter k f t) F32.zero = true.
Proof.
  induction n as [|n IH]; intros t Hp k Hk; [lia|].
  cbn [positive_for] in Hp. apply andb_true_iff in Hp. destruct Hp as [H0 Hn].
  destruct k as [|k]; [exact H0|].
  rewrite Nat.iter_succ_r. apply IH; [exact Hn|lia].
Qed.

Lemma iter_fixed {A} (f : A -> A) x n : f x = x -> Nat.iter n f x = x.
Proof.
  intros E. induction n as [|n IH]; [reflexivity|].
  now rewrite Nat.iter_succ, IH.
Qed.

Lemma iter_reaches {A} (f : A -> A) x z n m :
  Nat.iter n f x = z -> f z = z -> (n <= m)%nat -> Nat.iter m f x = z.
Proof.
  intros En Ez Hm. replace m with ((m - n) + n)%nat by lia.
  rewrite Nat.iter_add, En. now apply iter_fixed.
Qed.

(** X15.  The round timer after a run of [Update] depends on the timer
    before and on the number of calls alone.  From [ROUND_TIME] it is
    above zero after fewer than 5940 calls and is zero from the 5940th
    on, which is the first whose win evaluation sees the time out.  The
    time the server lets pass between two calls, [TICK_DURATION], is the
    [FIXED_DT] the timer is decreased by. *)
Theorem round_times_out_after_5940_ticks :
  forall (e : GameSimulation.t) (s : GameState.t)
         (inputs : list (InputState.t * InputState.t)),
    let t := GameState.roundTimer (snd (run e s inputs)) in
    t = Nat.iter (List.length inputs) tick_timer (GameState.roundTimer s)
    /\ ServerMain.TICK_DURATION = FIXED_DT
    /\ (GameState.roundTimer s = GameConstants.ROUND_TIME ->
        ((List.length inputs < round_ticks)%nat -> F32.gtb t F32.zero = true)
        /\ ((round_ticks <= List.length inputs)%nat -> t = F32.zero)).
Proof.
  intros e s inputs t. subst t. rewrite run_roundTimer.
  split; [reflexivity|]. split; [reflexivity|]. intros ->. split; intros Hl.
  - apply (positive_for_spec tick_timer round_ticks); [|exact Hl].
    vm_compute. reflexivity.
  - apply (iter_reaches tick_timer _ _ round_ticks); [| |exact Hl];
      vm_compute; reflexivity.
Qed.

Lemma UpdatePlayer_cooldown e p input i :
  PlayerState.alive p = true ->
  PlayerState.projectileCooldown (UpdatePlayer e p input i)
  = cool (PlayerState.projectileCooldown p).
Proof.
  intros Ha. unfold UpdatePlayer, cool. rewrite Ha. cbn [negb].
  match goal with |- context [if F32.gtb (glm.length ?v) ?c then _ else _] =>
    destruct (F32.gtb (glm.length v) c) end;
    cbn [PlayerState.projectileCooldown PlayerState.set_position
         PlayerState.set_facingAngle PlayerState.set_projectileCooldown];
    destruct (F32.gtb (PlayerState.projectileCooldown p) F32.zero);
    cbn [PlayerState.projectileCooldown PlayerState.set_position
         PlayerState.set_facingAngle PlayerState.set_projectileCooldown];
    try reflexivity;
    destruct (F32.ltb (F32.sub (PlayerState.projectileCooldown p) FIXED_DT)
                      F32.zero);
    reflexivity.
Qed.

Lemma step_cooldown e s i0 i1 j :
  PlayerState.alive (GameState.player s j) = true ->
  PlayerState.projectileCooldown (GameState.player (step e s i0 i1) j)
  = cool (PlayerState.projectileCooldown (GameState.player s j)).
Proof.
  intros Ha. rewrite (step_field PlayerState.projectileCooldown).
  - now apply UpdatePlayer_cooldown.
  - now intros p q (_ & _ & _ & _ & Ec & _).
  - apply apply_hit_cooldown.
Qed.

Lemma step_alive_before e s i0 i1 j :
  PlayerState.alive (GameState.player (step e s i0 i1) j) = true ->
  PlayerState.alive (GameState.player s j) = true.
Proof.
  intros Ha. destruct (PlayerState.alive (GameState.player s j)) eqn:Eb;
    [reflexivity|].
  rewrite step_alive, (after_collisions_dead e s i0 i1 j Eb) in Ha.
  congruence.
Qed.

Lemma run_alive_before e inputs j :
  forall s,
    PlayerState.alive (GameState.player (snd (run e s inputs)) j) = true ->
    PlayerState.alive (GameState.player s j) = true.
Proof.
  induction inputs as [|[i0 i1] rest IH]; intros s Ha; [exact Ha|].
  rewrite run_cons in Ha. apply IH in Ha. now apply step_alive_before in Ha.
Qed.

Lemma run_cooldown e inputs j :
  forall s,
    PlayerState.alive (GameState.player (snd (run e s inputs)) j) = true ->
    PlayerState.projectileCooldown (GameState.player (snd (run e s inputs)) j)
    = Nat.iter (List.length inputs) cool
        (PlayerState.projectileCooldown (GameState.player s j)).
Proof.
  induction inputs as [|[i0 i1] rest IH]; intros s Ha; [reflexivity|].
  rewrite run_cons in *. rewrite (IH _ Ha).
  apply run_alive_before in Ha. apply step_alive_before in Ha.
  rewrite (step_cooldown _ _ _ _ _ Ha).
  cbn [List.length]. now rewrite Nat.iter_succ_r.
Qed.

(** X16.  A player whose cooldown is [PROJECTILE_COOLDOWN], as a shot
    leaves it, and who is alive after a run of [Update] cannot shoot
    after fewer than 30 calls and can from the 30th on. *)
Theorem shot_cools_down_in_30_ticks :
  forall (e : GameSimulation.t) (s : GameState.t)
         (inputs : list (InputState.t * InputState.t)) (i : PlayerIndex),
    PlayerState.projectileCooldown (GameState.player s i)
    = GameConstants.PROJECTILE_COOLDOWN ->
    PlayerState.alive (GameState.player (snd (run e s inputs)) i) = true ->
    CanShoot (GameState.player (snd (run e s inputs)) i)
    = (cooldown_ticks <=? List.length inputs)%nat.
Proof.
  intros e s inputs i Ec Ha.
  unfold CanShoot. rewrite Ha, (run_cooldown _ _ _ _ Ha), Ec. cbn [andb].
  destruct (Nat.leb_spec cooldown_ticks (List.length inputs)) as [Hl|Hl].
  - rewrite (iter_reaches cool _ F32.zero cooldown_ticks); try exact Hl;
      vm_compute; reflexivity.
  - assert (Hp : F32.gtb (Nat.iter (List.length inputs) cool
                            GameConstants.PROJECTILE_COOLDOWN) F32.zero = true).
    { apply (positive_for_spec cool cooldown_ticks); [|exact Hl].
      vm_compute. reflexivity. }
    rewrite leb_zero_not_gtb; [now rewrite Hp|].
    destruct (Nat.iter (List.length inputs) cool
                GameConstants.PROJECTILE_COOLDOWN); try reflexivity.
    discriminate Hp.
Qed.

Lemma incr_roundWins_wins s i j :
  PlayerState.roundWins (GameState.player (incr_roundWins s i) j)
  = if Z.eqb (index_Z i) (index_Z j)
    then (PlayerState.roundWins (GameState.player s j) + 1) mod 256
    else PlayerState.roundWins (GameState.player s j).
Proof. destruct s as [[p0 p1] projs fn rt cr], i, j; reflexivity. Qed.


End Clocks.

(* ------------------------------------------------------------------ *)
(** ** The server's packets and queues *)

Section Queues.
Import ServerNetwork.

Lemma slot_of_set_queue s i q peer :
  slot_of (set_queue s i q) peer = slot_of s peer.
Proof. reflexivity. Qed.

Lemma queue_at_set_queue s i q : queue_at (set_queue s i q) i = q.
Proof. destruct i; reflexivity. Qed.

Lemma queue_at_set_queue_other s i q :
  queue_at (set_queue s i q) (other i) = queue_at s (other i).
Proof. destruct i; reflexivity. Qed.

Lemma ProcessPacket_INPUT s peer i payload :
  slot_of s peer = Some i ->
  ProcessPacket s peer (NetPacketType.INPUT :: payload)
  = (set_queue s i
       (queue_at s i ++ [InputState.Deserialize InputState.init payload]),
     [OnInputReceived (InputState.Deserialize InputState.init payload)
                      (index_Z i)]).
Proof. intros E. unfold ProcessPacket. now rewrite E. Qed.

(** X18.  [ProcessPacket] of the server drops a packet that is empty,
    that comes from a peer in no slot, or whose type is not [INPUT]: the
    server is unchanged and no callback is invoked. *)
Theorem server_drops_what_it_cannot_use :
  forall (s : ServerNetwork.t) (peer : Peer) (data : list Z),
    data = []
    \/ slot_of s peer = None
    \/ (exists tag payload,
          data = tag :: payload /\ tag <> NetPacketType.INPUT) ->
    ProcessPacket s peer data = (s, []).
Proof.
  intros s peer data [->|[E|(tag & payload & -> & Ht)]].
  - reflexivity.
  - unfold ProcessPacket. destruct data; [reflexivity|]. now rewrite E.
  - unfold ProcessPacket. destruct (slot_of s peer); [|reflexivity].
    apply Z.eqb_neq in Ht. now rewrite Ht.
Qed.

Lemma receive_inputs peer i payloads :
  forall s,
    slot_of s peer = Some i ->
    slot_of (receive s peer (map (cons NetPacketType.INPUT) payloads)) peer
    = Some i
    /\ queue_at (receive s peer (map (cons NetPacketType.INPUT) payloads)) i
       = queue_at s i
         ++ map (InputState.Deserialize InputState.init) payloads
    /\ queue_at (receive s peer (map (cons NetPacketType.INPUT) payloads))
                (other i)
       = queue_at s (other i)
    /\ peers (receive s peer (map (cons NetPacketType.INPUT) payloads))
       = peers s.
Proof.
  induction payloads as [|payload rest IH]; intros s E.
  - cbn. rewrite app_nil_r. now repeat split.
  - unfold receive in *. cbn [map fold_left].
    rewrite (ProcessPacket_INPUT s peer i payload E). cbn [fst].
    destruct (IH (set_queue s i
                    (queue_at s i
                     ++ [InputState.Deserialize InputState.init payload])))
      as (E1 & E2 & E3 & E4); [exact E|].
    rewrite E1, E2, E3, E4, queue_at_set_queue, queue_at_set_queue_other.
    rewrite <- app_assoc. now repeat split.
Qed.

Lemma GetPendingInput_front s i front rest out :
  queue_at s i = front :: rest ->
  GetPendingInput s (index_Z i) out = (true, front, set_queue s i rest).
Proof.
  intros E. unfold GetPendingInput.
  destruct i; cbn [index_Z Z.ltb Z.compare orb Z.eqb]; now rewrite E.
Qed.

Lemma GetPendingInput_empty s i out :
  queue_at s i = [] -> GetPendingInput s (index_Z i) out = (false, out, s).
Proof.
  intros E. unfold GetPendingInput.
  destruct i; cbn [index_Z Z.ltb Z.compare orb Z.eqb]; now rewrite E.
Qed.

Lemma drain_queue i q :
  forall s,
    queue_at s i = q ->
    fst (drain (List.length q) s (index_Z i)) = q
    /\ queue_at (snd (drain (List.length q) s (index_Z i))) i = []
    /\ queue_at (snd (drain (List.length q) s (index_Z i))) (other i)
       = queue_at s (other i)
    /\ peers (snd (drain (List.length q) s (index_Z i))) = peers s.
Proof.
  induction q as [|x q IH]; intros s E.
  - cbn. now repeat split.
  - cbn [List.length drain].
    rewrite (GetPendingInput_front s i x q _ E).
    destruct (IH (set_queue s i q) (queue_at_set_queue s i q))
      as (E1 & E2 & E3 & E4).
    destruct (drain (List.length q) (set_queue s i q) (index_Z i)) as [l s2].
    cbn [fst snd] in *. rewrite E1, E2, E3, E4, queue_at_set_queue_other.
    now repeat split.
Qed.

(** X19.  The inputs of a player are handed out in the order their
    packets came in: after the [INPUT] packets of the peer of slot [i],
    the queue of the slot holds what it held and the inputs decoded from
    the packets, in order; as many calls of [GetPendingInput] return
    them one by one and leave the queue empty, so that the next call
    returns false.  The other queue and the slots are not touched. *)
Theorem pending_inputs_are_first_in_first_out :
  forall (s : ServerNetwork.t) (peer : Peer) (i : PlayerIndex)
         (payloads : list (list Z)),
    slot_of s peer = Some i ->
    let s1 := receive s peer (map (cons NetPacketType.INPUT) payloads) in
    let q := queue_at s i
             ++ map (InputState.Deserialize InputState.init) payloads in
    let '(handed, s2) := drain (List.length q) s1 (index_Z i) in
    queue_at s1 i = q
    /\ handed = q
    /\ (forall out, GetPendingInput s2 (index_Z i) out = (false, out, s2))
    /\ queue_at s2 (other i) = queue_at s (other i)
    /\ peers s2 = peers s.
Proof.
  intros s peer i payloads E s1 q.
  destruct (receive_inputs peer i payloads s E) as (_ & E2 & E3 & E4).
  fold s1 q in E2, E3, E4.
  destruct (drain_queue i q s1 E2) as (D1 & D2 & D3 & D4).
  destruct (drain (List.length q) s1 (index_Z i)) as [handed s2].
  cbn [fst snd] in *.
  split; [exact E2|]. split; [exact D1|]. split.
  - intros out. now apply GetPendingInput_empty.
  - now rewrite D3, D4, E3, E4.
Qed.

(** X20.  [GetPendingInput] returns false, and leaves its argument and
    the server as they are, for an index that is not 0 or 1 and for a
    slot whose queue is empty. *)
Theorem GetPendingInput_refuses :
  forall (s : ServerNetwork.t) (playerIndex : Z) (out : InputState.t),
    playerIndex < 0 \/ 1 < playerIndex
    \/ (exists i, playerIndex = index_Z i /\ queue_at s i = []) ->
    GetPendingInput s playerIndex out = (false, out, s).
Proof.
  intros s playerIndex out [Hn|[Hp|(i & -> & E)]].
  - unfold GetPendingInput. apply Z.ltb_lt in Hn. now rewrite Hn.
  - unfold GetPendingInput. apply Z.ltb_lt in Hp. rewrite Hp.
    now rewrite orb_true_r.
  - now apply GetPendingInput_empty.
Qed.

End Queues.

(* ------------------------------------------------------------------ *)
(** ** From one end of the wire to the other *)

Section Wire.
Import ServerNetwork.

(** X21.  An input sent by a connected client and received by the server
    from a peer that holds a slot is queued for that slot as it was sent,
    field for field, and handed to [OnInputReceived] with the index of
    the slot. *)
Theorem input_reaches_the_server :
  forall (c : ClientNetwork.t) (to : Peer) (x : InputState.t)
         (s : ServerNetwork.t) (from : Peer) (i : PlayerIndex),
    ClientNetwork.state c = CONNECTED ->
    ClientNetwork.peer c = Some to ->
    wf_input x = true ->
    slot_of s from = Some i ->
    exists packet,
      ClientNetwork.SendInput c x = [ClientNetwork.Send to packet]
      /\ ProcessPacket s from packet
         = (set_queue s i (queue_at s i ++ [x]),
            [OnInputReceived x (index_Z i)]).
Proof.
  intros c to x s from i Hs Hp Hx Hi.
  exists (NetPacketType.INPUT :: InputState.Serialize x). split.
  - unfold ClientNetwork.SendInput. now rewrite Hs, Hp.
  - rewrite (ProcessPacket_INPUT s from i _ Hi).
    now rewrite (input_round_trip InputState.init x Hx).
Qed.

(** X22.  [SendGameState] of a server that is not [CONNECTED] sends
    nothing.  Otherwise it sends one packet to the peer of every slot
    that holds one, and to nobody else; a client that processes the
    packet hands to [OnGameStateReceived] the state that was sent, when
    its [float]s are binary32 numbers, its integers in range and its
    projectiles at most 65535. *)
Theorem game_state_reaches_the_clients :
  forall (self : ServerNetwork.object) (gs : GameState.t),
    (ServerNetwork.state self <> CONNECTED -> SendGameState self gs = [])
    /\ (ServerNetwork.state self = CONNECTED ->
        (forall a,
           In a (SendGameState self gs)
           <-> exists i p,
                 peer_at (members self) i = Some p
                 /\ a = Send p (NetPacketType.GAME_STATE
                                :: GameState.Serialize gs))
        /\ (wf_state gs = true ->
            Z.of_nat (List.length (GameState.projectiles gs)) <= 65535 ->
            forall (c : ClientNetwork.t),
              ClientNetwork.ProcessPacket c
                (NetPacketType.GAME_STATE :: GameState.Serialize gs)
              = Some (c, [ClientNetwork.OnGameStateReceived gs]))).
Proof.
  intros self gs. split.
  - intros Hs. unfold SendGameState.
    destruct (ServerNetwork.state self); try reflexivity. now elim Hs.
  - intros Hs. split.
    + intros a. unfold SendGameState. rewrite Hs. rewrite in_app_iff. split.
      * intros [Ha|Ha].
        -- destruct (peer_at (members self) Player0) as [p|] eqn:E;
             [|contradiction].
           destruct Ha as [<-|[]]. now exists Player0, p.
        -- destruct (peer_at (members self) Player1) as [p|] eqn:E;
             [|contradiction].
           destruct Ha as [<-|[]]. now exists Player1, p.
      * intros (i & p & E & ->). destruct i; rewrite E; [left|right]; now left.
    + intros Hw Hl c. unfold ClientNetwork.ProcessPacket.
      cbn [Z.eqb NetPacketType.GAME_STATE Pos.eqb].
      now rewrite (state_round_trip gs Hw Hl).
Qed.

Lemma find_slot_cases s peer :
  (peer_at s Player0 = None
   /\ find_slot s peer = (Some Player0, set_peer s Player0 (Some peer)))
  \/ (peer_at s Player0 <> None /\ peer_at s Player1 = None
      /\ find_slot s peer = (Some Player1, set_peer s Player1 (Some peer)))
  \/ (peer_at s Player0 <> None /\ peer_at s Player1 <> None
      /\ find_slot s peer = (None, s)).
Proof.
  unfold find_slot.
  destruct (peer_at s Player0) as [a|]; [|now left].
  destruct (peer_at s Player1) as [b|]; right; [right|left];
    repeat split; congruence.
Qed.

Lemma broadcast_start_cases s :
  (HasBothPlayers s = true
   /\ exists a b,
        peers s = (Some a, Some b)
        /\ broadcast_start s
           = [Send a [NetPacketType.GAME_START];
              Send b [NetPacketType.GAME_START];
              OnGameStart])
  \/ (HasBothPlayers s = false /\ broadcast_start s = []).
Proof.
  unfold broadcast_start, HasBothPlayers, occupied, peer_at.
  destruct (peers s) as [[a|] [b|]]; cbn [fst snd andb];
    [left|right|right|right]; try (split; reflexivity).
  split; [reflexivity|]. now exists a, b.
Qed.

(** X23.  What the server sends on a connection is what the client
    understands: the [PLAYER_JOINED] packet goes to the new peer, and a
    client that processes it sets its player index to the slot the peer
    was given and invokes [OnPlayerJoined] with it; the [GAME_START]
    packets go out only when both slots are held, and a client that
    processes one invokes [OnGameStart] and changes nothing. *)
Theorem join_and_start_reach_the_client :
  forall (disconnected : Peer -> bool) (s : ServerNetwork.t) (peer : Peer)
         (c : ClientNetwork.t) (to : Peer) (packet : list Z),
    In (Send to packet) (snd (on_connect disconnected s peer)) ->
    let s' := fst (on_connect disconnected s peer) in
    (exists i,
       to = peer /\ peer_at s' i = Some peer
       /\ ClientNetwork.ProcessPacket c packet
          = Some (ClientNetwork.mk (ClientNetwork.client c)
                                   (ClientNetwork.peer c)
                                   (ClientNetwork.state c) (index_Z i),
                  [ClientNetwork.OnPlayerJoined (index_Z i)]))
    \/ (HasBothPlayers s' = true
        /\ (exists i, peer_at s' i = Some to)
        /\ ClientNetwork.ProcessPacket c packet
           = Some (c, [ClientNetwork.OnGameStart])).
Proof.
  intros d s peer c to packet.
  unfold on_connect.
  set (s0 := reap d (reap d s Player0) Player1).
  assert (Hstart : forall s1,
            In (Send to packet) (broadcast_start s1) ->
            HasBothPlayers s1 = true
            /\ (exists i, peer_at s1 i = Some to)
            /\ ClientNetwork.ProcessPacket c packet
               = Some (c, [ClientNetwork.OnGameStart])).
  { intros s1 Hin.
    destruct (broadcast_start_cases s1) as [(Hb & a & b & Ep & Es)|[_ Es]];
      rewrite Es in Hin; [|contradiction].
    split; [exact Hb|].
    destruct Hin as [Hin|[Hin|[Hin|[]]]]; try discriminate Hin;
      injection Hin as <- <-; (split; [|reflexivity]).
    - exists Player0. unfold peer_at. now rewrite Ep.
    - exists Player1. unfold peer_at. now rewrite Ep. }
  destruct (find_slot_cases s0 peer)
    as [[_ E]|[(_ & _ & E)|(_ & _ & E)]]; rewrite E; cbn [fst snd].
  - intros [Hin|[Hin|Hin]]; try discriminate Hin.
    + injection Hin as <- <-. left. exists Player0.
      split; [reflexivity|]. split; [reflexivity|]. reflexivity.
    + right. now apply Hstart.
  - intros [Hin|[Hin|Hin]]; try discriminate Hin.
    + injection Hin as <- <-. left. exists Player1.
      split; [reflexivity|]. split; [reflexivity|]. reflexivity.
    + right. now apply Hstart.
  - intros [Hin|[]]. discriminate Hin.
Qed.

Lemma on_connect_join_or_start d s peer :
  Forall join_or_start (snd (on_connect d s peer)).
Proof.
  unfold on_connect.
  set (s0 := reap d (reap d s Player0) Player1).
  assert (Hstart : forall s1, Forall join_or_start (broadcast_start s1)).
  { intros s1.
    destruct (broadcast_start_cases s1) as [(_ & a & b & _ & Es)|[_ Es]];
      rewrite Es; [|constructor].
    constructor; [cbn; auto|]. constructor; [cbn; auto|].
    constructor; [exact I|constructor]. }
  destruct (find_slot_cases s0 peer)
    as [[_ E]|[(_ & _ & E)|(_ & _ & E)]]; rewrite E; cbn [fst snd].
  - constructor; [cbn; auto|]. constructor; [exact I|]. apply Hstart.
  - constructor; [cbn; auto|]. constructor; [exact I|]. apply Hstart.
  - constructor; [exact I|constructor].
Qed.

Lemma handle_join_or_start d s ev :
  Forall join_or_start (snd (handle d s ev)).
Proof.
  destruct ev as [peer|peer data|peer|]; cbn [handle].
  - apply on_connect_join_or_start.
  - unfold ProcessPacket. destruct data as [|tag payload]; [constructor|].
    destruct (slot_of s peer); [|constructor].
    destruct (tag =? NetPacketType.INPUT); repeat constructor.
  - unfold on_disconnect. destruct (slot_of s peer); repeat constructor.
  - constructor.
Qed.

(** X24.  Whatever events ENet delivers, the only packets the server's
    [Update] sends are [PLAYER_JOINED] with slot 0 or 1 and [GAME_START]:
    never [ROUND_END] nor [MATCH_END], which the client would handle. *)
Theorem server_sends_join_and_start_only :
  forall (evs : list ((Peer -> bool) * ENetEvent)) (s : ServerNetwork.t),
    Forall join_or_start (snd (ServerNetwork.Update s evs)).
Proof.
  induction evs as [|[d ev] rest IH]; intros s; cbn [ServerNetwork.Update].
  - constructor.
  - pose proof (handle_join_or_start d s ev) as H1.
    destruct (handle d s ev) as [s1 a1].
    specialize (IH s1). destruct (ServerNetwork.Update s1 rest) as [s2 a2].
    cbn [snd] in *. apply Forall_app. now split.
Qed.

Lemma reap_None d s i j :
  peer_at s j = None ->
  peer_at (reap d s i) j = None /\ queue_at (reap d s i) j = queue_at s j.
Proof.
  intros E. unfold reap.
  destruct (peer_at s i) as [p|] eqn:Ei; [|now split].
  destruct (d p); [|now split].
  destruct i, j; cbn in *; try congruence; now split.
Qed.

Lemma find_slot_queues s peer :
  pendingInputs (snd (find_slot s peer)) = pendingInputs s.
Proof.
  unfold find_slot.
  destruct (peer_at s Player0); [destruct (peer_at s Player1)|]; reflexivity.
Qed.

Lemma on_connect_queue_of_free_slot d s peer j :
  peer_at s j = None ->
  queue_at (fst (on_connect d s peer)) j = queue_at s j.
Proof.
  intros E. unfold on_connect.
  destruct (reap_None d s Player0 j E) as [E0 Q0].
  destruct (reap_None d (reap d s Player0) Player1 j E0) as [E1 Q1].
  pose proof (find_slot_queues (reap d (reap d s Player0) Player1) peer) as Hq.
  destruct (find_slot (reap d (reap d s Player0) Player1) peer) as [[i|] s1];
    cbn [fst snd] in *;
    (transitivity (queue_at (reap d (reap d s Player0) Player1) j);
     [unfold queue_at; now rewrite Hq|now rewrite Q1, Q0]).
Qed.

(** X25.  The [DISCONNECT] case frees the slot of the peer, invokes
    [OnDisconnected] with its index and leaves both queues as they are:
    the inputs still pending for the slot are not discarded.  The
    clean-up of the next [CONNECT] does not discard them either, since
    the slot is already empty: whoever is given the slot finds them
    queued. *)
Theorem disconnect_keeps_pending_inputs :
  forall (d d' : Peer -> bool) (s : ServerNetwork.t) (p q : Peer)
         (i : PlayerIndex),
    slot_of s p = Some i ->
    let s1 := fst (handle d s (DISCONNECT p)) in
    let s2 := fst (handle d' s1 (CONNECT q)) in
    snd (handle d s (DISCONNECT p)) = [OnDisconnected (index_Z i)]
    /\ peer_at s1 i = None
    /\ peer_at s1 (other i) = peer_at s (other i)
    /\ pendingInputs s1 = pendingInputs s
    /\ queue_at s2 i = queue_at s i
    /\ (i = Player0 -> peer_at s2 Player0 = Some q).
Proof.
  intros d d' s p q i Hi s1 s2. subst s1 s2.
  cbn [handle]. unfold on_disconnect. rewrite Hi. cbn [fst snd].
  split; [reflexivity|].
  assert (E1 : peer_at (set_peer s i None) i = None) by now destruct i.
  split; [exact E1|].
  split; [now destruct i|]. split; [reflexivity|]. split.
  - rewrite (on_connect_queue_of_free_slot d' _ q i E1). now destruct i.
  - intros ->. unfold on_connect.
    destruct (reap_None d' (set_peer s Player0 None) Player0 Player0 E1)
      as [E0 _].
    destruct (reap_None d' _ Player1 Player0 E0) as [E2 _].
    unfold find_slot. rewrite E2. reflexivity.
Qed.

(** X26.  Nothing is sent by a side that is not connected.  A client
    sends its inputs while it is connected and at no other time: not
    between [Connect] and the [CONNECT] event, not after a [DISCONNECT]
    event, not after [Disconnect], after which [Update] handles no event
    either.  A server sends no state before [Connect] has succeeded nor
    after [Disconnect], which asks the peer of every slot to disconnect,
    empties the slots and keeps the queues of inputs. *)
Theorem nothing_is_sent_unless_connected :
  forall (c : ClientNetwork.t) (p from : Peer) (x : InputState.t)
         (evs : list ENetEvent) (self : ServerNetwork.object)
         (gs : GameState.t),
    let c1 := snd (ClientNetwork.Connect c true (Some p)) in
    let packet := NetPacketType.INPUT :: InputState.Serialize x in
    let gone := fst (ServerNetwork.Disconnect self) in
    (ClientNetwork.SendInput ClientNetwork.new x = []
     /\ ClientNetwork.SendInput c1 x = []
     /\ (forall c2 a,
           ClientNetwork.handle c1 (CONNECT from) = Some (c2, a) ->
           ClientNetwork.SendInput c2 x = [ClientNetwork.Send p packet]
           /\ forall c3 a',
                ClientNetwork.handle c2 (DISCONNECT from) = Some (c3, a') ->
                ClientNetwork.SendInput c3 x = []
                /\ a' = [ClientNetwork.OnDisconnected (-1)])
     /\ ClientNetwork.SendInput (fst (ClientNetwork.Disconnect c)) x = []
     /\ ClientNetwork.Update (fst (ClientNetwork.Disconnect c)) evs
        = Some (fst (ClientNetwork.Disconnect c), []))
    /\ (SendGameState ServerNetwork.new gs = []
        /\ fst (ServerNetwork.Connect ServerNetwork.new false) = false
        /\ SendGameState (snd (ServerNetwork.Connect ServerNetwork.new false)) gs
           = []
        /\ ServerNetwork.state (snd (ServerNetwork.Connect self true))
           = CONNECTED
        /\ SendGameState gone gs = []
        /\ peers (members gone) = (None, None)
        /\ pendingInputs (members gone) = pendingInputs (members self)
        /\ forall q,
             In (PeerDisconnect q) (snd (ServerNetwork.Disconnect self))
             <-> exists i, peer_at (members self) i = Some q).
Proof.
  intros c p from x evs self gs c1 packet gone. split.
  - split; [reflexivity|]. split; [reflexivity|]. split.
    + intros c2 a E. cbn in E. injection E as <- <-.
      split; [reflexivity|].
      intros c3 a' E'. cbn in E'. injection E' as <- <-. now split.
    + split; reflexivity.
  - subst gone. unfold ServerNetwork.Disconnect.
    destruct self as [srv st [[[a|] [b|]] qs]];
      cbn [fst snd members peer_at set_peer peers pendingInputs app];
      repeat (split; [reflexivity|]);
      intros q;
      (split;
       [cbn [In]; intros F;
        repeat (destruct F as [F|F];
                [injection F as <-;
                 first [now exists Player0|now exists Player1]|]);
        contradiction
       |intros ([] & E); cbn in E; try discriminate E;
        injection E as <-; cbn [In]; auto]).
Qed.

End Wire.

(* ------------------------------------------------------------------ *)
(** ** The loop of [main] *)

Section Main.
Context `{CMath}.
Import GameSimulation.

Lemma round_over_false g :
  fst (ServerMain.round_over g) = false ->
  PlayerState.alive (GameState.player g Player0) = true
  /\ PlayerState.alive (GameState.player g Player1) = true
  /\ F32.leb (GameState.roundTimer g) F32.zero = false.
Proof.
  unfold ServerMain.round_over.
  destruct (PlayerState.alive (GameState.player g Player0));
    destruct (PlayerState.alive (GameState.player g Player1));
    destruct (F32.leb (GameState.roundTimer g) F32.zero);
    cbn; intros E; try discriminate E; now repeat split.
Qed.



Lemma ResetMatch_roundWins g i :
  PlayerState.roundWins (GameState.player (GameState.ResetMatch g) i) = 0.
Proof. destruct g as [[p0 p1] projs fn rt cr], i; reflexivity. Qed.

Lemma ResetRound_roundWins g i :
  PlayerState.roundWins (GameState.player (GameState.ResetRound g) i)
  = PlayerState.roundWins (GameState.player g i).
Proof. destruct g as [[p0 p1] projs fn rt cr], i; reflexivity. Qed.

(** The state that [Update] returns in a pass of the loop: the spawns of
    the players whose fire flag is set, then the step. *)
Lemma tick_unfold sim m :
  exists g,
    (exists g0,
       g = step sim g0 (fst (ServerMain.playerInputs m))
                       (snd (ServerMain.playerInputs m))
       /\ forall i,
            PlayerState.roundWins (GameState.player g0 i)
            = PlayerState.roundWins
                (GameState.player (ServerMain.gameState m) i))
    /\ ServerMain.tick sim m
       = let m1 := ServerMain.mk (ServerMain.gameStarted m) g
                                 (ServerMain.playerInputs m) in
         if fst (ServerMain.round_over g) then
           let m2 := fst (ServerMain.match_end m1) in
           (sim,
            if ServerMain.gameStarted m2 then
              ServerMain.mk (ServerMain.gameStarted m2)
                (GameState.ResetRound
                   (GameState.set_currentRound (ServerMain.gameState m2)
                      ((GameState.currentRound (ServerMain.gameState m2) + 1)
                       mod 256)))
                (ServerMain.playerInputs m2)
            else m2,
            [ServerMain.RoundOver (GameState.currentRound g)
                                  (snd (ServerMain.round_over g))]
            ++ snd (ServerMain.match_end m1))
         else (sim, m1, []).
Proof.
  unfold ServerMain.tick. cbv zeta.
  set (g1 := if InputState.throwProjectile (fst (ServerMain.playerInputs m))
             then SpawnProjectile (ServerMain.gameState m) Player0
             else ServerMain.gameState m).
  set (g2 := if InputState.throwProjectile (snd (ServerMain.playerInputs m))
             then SpawnProjectile g1 Player1 else g1).
  exists (step sim g2 (fst (ServerMain.playerInputs m))
                      (snd (ServerMain.playerInputs m))).
  split.
  - exists g2. split; [reflexivity|].
    assert (Hs : forall g j i,
              PlayerState.roundWins (GameState.player (SpawnProjectile g j) i)
              = PlayerState.roundWins (GameState.player g i)).
    { intros g j i. unfold SpawnProjectile.
      match goal with |- context [if ?c then _ else _] => destruct c end;
        [reflexivity|].
      destruct g as [[p0 p1] projs fn rt cr], j, i; reflexivity. }
    intros i. subst g2 g1.
    destruct (InputState.throwProjectile (snd (ServerMain.playerInputs m)));
      destruct (InputState.throwProjectile (fst (ServerMain.playerInputs m)));
      now rewrite ?Hs.
  - change (Update sim g2 (fst (ServerMain.playerInputs m))
                   (snd (ServerMain.playerInputs m)))
      with (sim, step sim g2 (fst (ServerMain.playerInputs m))
                      (snd (ServerMain.playerInputs m))).
    cbv beta iota.
    generalize (step sim g2 (fst (ServerMain.playerInputs m))
                     (snd (ServerMain.playerInputs m))).
    intros g. destruct (ServerMain.round_over g) as [ro w].
    cbn [fst snd]. destruct ro; [|reflexivity].
    destruct (ServerMain.match_end
                (ServerMain.mk (ServerMain.gameStarted m) g
                               (ServerMain.playerInputs m))) as [m2 o2].
    reflexivity.
Qed.

Lemma step_no_win e s i0 i1 j :
  PlayerState.alive (GameState.player (step e s i0 i1) Player0) = true ->
  PlayerState.alive (GameState.player (step e s i0 i1) Player1) = true ->
  F32.leb (GameState.roundTimer (step e s i0 i1)) F32.zero = false ->
  PlayerState.roundWins (GameState.player (step e s i0 i1) j)
  = PlayerState.roundWins (GameState.player s j).
Proof.
  rewrite !step_alive.
  destruct (CheckWinConditions_frame e (after_collisions e s i0 i1))
    as (_ & _ & Et).
  rewrite step_after_collisions, Et.
  intros A0 A1 Ht.
  unfold CheckWinConditions, deadPlayer. rewrite A0, A1, Ht. cbn [negb].
  apply after_collisions_roundWins.
Qed.


Lemma step_roundWins_cases e s i0 i1 :
  let w j := PlayerState.roundWins (GameState.player s j) in
  let w' j := PlayerState.roundWins (GameState.player (step e s i0 i1) j) in
  (w' Player0 = w Player0 /\ w' Player1 = w Player1)
  \/ (w' Player0 = (w Player0 + 1) mod 256 /\ w' Player1 = w Player1)
  \/ (w' Player0 = w Player0 /\ w' Player1 = (w Player1 + 1) mod 256).
Proof.
  intros w w'. subst w w'. cbv beta.
  rewrite step_after_collisions.
  rewrite <- !(after_collisions_roundWins e s i0 i1).
  unfold CheckWinConditions.
  destruct (deadPlayer (after_collisions e s i0 i1)) as [[]|].
  - right. right. rewrite !incr_roundWins_wins. cbn. now split.
  - right. left. rewrite !incr_roundWins_wins. cbn. now split.
  - repeat match goal with |- context [if ?c then _ else _] => destruct c end;
      rewrite ?incr_roundWins_wins; cbn; auto.
Qed.

Lemma tick_wins sim m :
  0 <= wins_of m Player0 < 2 ->
  0 <= wins_of m Player1 < 2 ->
  let m' := after_tick sim m in
  0 <= wins_of m' Player0 < 2
  /\ 0 <= wins_of m' Player1 < 2
  /\ (ServerMain.gameStarted m = true ->
      ServerMain.gameStarted m' = false ->
      (exists i, In (ServerMain.MatchOver i) (printed sim m))
      /\ ServerMain.gameState m' = fresh_round).
Proof.
  intros H0 H1 m'. subst m'. unfold after_tick, printed, wins_of in *.
  destruct (tick_unfold sim m) as (g & (g0 & -> & Hw) & ->). cbv zeta.
  pose proof (step_roundWins_cases sim g0 (fst (ServerMain.playerInputs m))
                (snd (ServerMain.playerInputs m))) as Hc.
  cbv beta zeta in Hc. rewrite !Hw in Hc.
  set (g := step sim g0 (fst (ServerMain.playerInputs m))
                 (snd (ServerMain.playerInputs m))) in *.
  assert (B0 : 0 <= PlayerState.roundWins (GameState.player g Player0) <= 2
               /\ 0 <= PlayerState.roundWins (GameState.player g Player1) <= 2).
  { assert (M0 : (PlayerState.roundWins
                    (GameState.player (ServerMain.gameState m) Player0) + 1)
                 mod 256
                 = PlayerState.roundWins
                     (GameState.player (ServerMain.gameState m) Player0) + 1)
      by (apply Z.mod_small; lia).
    assert (M1 : (PlayerState.roundWins
                    (GameState.player (ServerMain.gameState m) Player1) + 1)
                 mod 256
                 = PlayerState.roundWins
                     (GameState.player (ServerMain.gameState m) Player1) + 1)
      by (apply Z.mod_small; lia).
    rewrite M0, M1 in Hc. lia. }
  destruct B0 as [B0 B1].
  destruct (fst (ServerMain.round_over g)) eqn:Ero; cbn [fst snd].
  - unfold ServerMain.match_end.
    cbn [ServerMain.gameState ServerMain.gameStarted ServerMain.playerInputs].
    destruct (Z.leb_spec 2 (PlayerState.roundWins (GameState.player g Player0)))
      as [L0|L0];
      [|destruct (Z.leb_spec 2
                    (PlayerState.roundWins (GameState.player g Player1)))
          as [L1|L1]];
      cbn [fst snd ServerMain.gameState ServerMain.gameStarted
           ServerMain.playerInputs].
    + rewrite !ResetMatch_roundWins.
      split; [lia|]. split; [lia|]. intros _ _. split.
      * exists Player0. right. now left.
      * destruct g as [[p0 p1] projs fn rt cr]. reflexivity.
    + rewrite !ResetMatch_roundWins.
      split; [lia|]. split; [lia|]. intros _ _. split.
      * exists Player1. right. now left.
      * destruct g as [[p0 p1] projs fn rt cr]. reflexivity.
    + assert (E : forall i r,
                PlayerState.roundWins
                  (GameState.player (GameState.set_currentRound g r) i)
                = PlayerState.roundWins (GameState.player g i))
        by (intros i r; destruct g as [[p0 p1] projs fn rt cr], i; reflexivity).
      destruct (ServerMain.gameStarted m);
        cbn [ServerMain.gameState ServerMain.gameStarted];
        rewrite ?ResetRound_roundWins, ?E;
        (split; [lia|]); (split; [lia|]); intros E1 E2;
        first [discriminate E1|discriminate E2].
  - cbn [ServerMain.gameState ServerMain.gameStarted].
    destruct (round_over_false g Ero) as (A0 & A1 & Ht).
    subst g. rewrite !step_no_win, !Hw by assumption.
    split; [lia|]. split; [lia|]. intros E1 E2. congruence.
Qed.

Lemma ticks_wins n :
  forall sim m,
    0 <= wins_of m Player0 < 2 ->
    0 <= wins_of m Player1 < 2 ->
    0 <= wins_of (snd (fst (ServerMain.ticks n sim m))) Player0 < 2
    /\ 0 <= wins_of (snd (fst (ServerMain.ticks n sim m))) Player1 < 2.
Proof.
  induction n as [|n IH]; intros sim m H0 H1; [now split|].
  cbn [ServerMain.ticks].
  destruct (tick_wins sim m H0 H1) as (W0 & W1 & _).
  unfold after_tick in W0, W1.
  destruct (ServerMain.tick sim m) as [[sim1 m1] o1]. cbn [fst snd] in W0, W1.
  specialize (IH sim1 m1 W0 W1).
  destruct (ServerMain.ticks n sim1 m1) as [[sim2 m2] o2]. exact IH.
Qed.

(** X28.  A match is won with the second win, and the wins are not kept
    beyond it: when both players hold fewer than two wins, both hold
    fewer than two after any number of passes of the simulation loop,
    whether the match is on or not.  A pass of a match that is on, after
    which it is off, has printed the winner of the match and left the
    state [ResetMatch] returns, with no win. *)
Theorem wins_stay_below_two :
  forall (n : nat) (sim : GameSimulation.t) (m : ServerMain.t),
    0 <= wins_of m Player0 < 2 ->
    0 <= wins_of m Player1 < 2 ->
    (0 <= wins_of (snd (fst (ServerMain.ticks n sim m))) Player0 < 2
     /\ 0 <= wins_of (snd (fst (ServerMain.ticks n sim m))) Player1 < 2)
    /\ (ServerMain.gameStarted m = true ->
        ServerMain.gameStarted (after_tick sim m) = false ->
        (exists i, In (ServerMain.MatchOver i) (printed sim m))
        /\ ServerMain.gameState (after_tick sim m) = fresh_round).
Proof.
  intros n sim m H0 H1. split.
  - now apply ticks_wins.
  - destruct (tick_wins sim m H0 H1) as (_ & _ & Hm). exact Hm.
Qed.

Lemma after_collisions_hp_within e s i0 i1 i :
  F32.valid (PlayerState.hp (GameState.player s i)) = true ->
  hp_invariant (GameState.player s i) = true ->
  Forall (fun p => sound_damage p = true) (GameState.projectiles s) ->
  hp_within (F32.ord (PlayerState.hp (GameState.player s i)))
            (GameState.player (after_collisions e s i0 i1) i).
Proof.
  intros V I HQ.
  rewrite (player_get (after_collisions e s i0 i1)), after_collisions_players.
  apply collide_hp_within.
  - now apply projectiles_before_collisions_damage.
  - rewrite players_before_collisions_get.
    apply (hp_within_same _ _ (GameState.player s i));
      [apply UpdatePlayer_hp|apply UpdatePlayer_alive|].
    now apply hp_invariant_within.
Qed.

(** X29.  The winner [main] works out from the state [Update] returned
    is the player [Update] credited, and a draw is a round in which it
    credited nobody, also when both players went down in the same tick
    (player 1 then).  This holds when the hit points going in are
    numbers with [hp >= 0] and [alive == (hp > 0)] and no projectile has
    a negative damage. *)
Theorem announced_winner_is_the_credited_player :
  forall (e : GameSimulation.t) (s : GameState.t) (i0 i1 : InputState.t),
    (forall i,
       F32.valid (PlayerState.hp (GameState.player s i)) = true
       /\ hp_invariant (GameState.player s i) = true) ->
    Forall (fun p => sound_damage p = true) (GameState.projectiles s) ->
    let g := step e s i0 i1 in
    let wins (x : GameState.t) j :=
      PlayerState.roundWins (GameState.player x j) in
    match snd (ServerMain.round_over g) with
    | Some w =>
        wins g w = (wins s w + 1) mod 256
        /\ wins g (other w) = wins s (other w)
    | None => forall j, wins g j = wins s j
    end.
Proof.
  intros e s i0 i1 Hp HQ g wins. subst g wins. cbv beta.
  set (a := after_collisions e s i0 i1).
  destruct (Hp Player0) as [V0 I0]. destruct (Hp Player1) as [V1 I1].
  destruct (after_collisions_hp_within e s i0 i1 Player0 V0 I0 HQ)
    as (V0' & N0 & O0 & A0).
  destruct (after_collisions_hp_within e s i0 i1 Player1 V1 I1 HQ)
    as (V1' & N1 & O1 & A1).
  fold a in V0', N0, O0, A0, V1', N1, O1, A1.
  assert (G01 : F32.gtb (PlayerState.hp (GameState.player a Player0))
                        (PlayerState.hp (GameState.player a Player1))
                = (F32.ord (PlayerState.hp (GameState.player a Player1))
                   <? F32.ord (PlayerState.hp (GameState.player a Player0)))).
  { unfold F32.gtb, F32.ltb. now apply F32Facts.ltb_ord. }
  assert (G10 : F32.gtb (PlayerState.hp (GameState.player a Player1))
                        (PlayerState.hp (GameState.player a Player0))
                = (F32.ord (PlayerState.hp (GameState.player a Player0))
                   <? F32.ord (PlayerState.hp (GameState.player a Player1)))).
  { unfold F32.gtb, F32.ltb. now apply F32Facts.ltb_ord. }
  destruct (CheckWinConditions_frame e a) as (_ & _ & Et).
  unfold ServerMain.round_over.
  rewrite !step_alive, !step_hp. fold a.
  rewrite step_after_collisions. fold a. rewrite Et.
  unfold CheckWinConditions, deadPlayer.
  rewrite A0, A1, G01, G10.
  assert (Hw : forall j, PlayerState.roundWins (GameState.player a j)
                         = PlayerState.roundWins (GameState.player s j))
    by (intros j; apply after_collisions_roundWins).
  destruct (F32.leb (GameState.roundTimer a) F32.zero);
    destruct (Z.ltb_spec 0 (F32.ord (PlayerState.hp (GameState.player a Player0))));
    destruct (Z.ltb_spec 0 (F32.ord (PlayerState.hp (GameState.player a Player1))));
    destruct (Z.ltb_spec (F32.ord (PlayerState.hp (GameState.player a Player1)))
                         (F32.ord (PlayerState.hp (GameState.player a Player0))));
    destruct (Z.ltb_spec (F32.ord (PlayerState.hp (GameState.player a Player0)))
                         (F32.ord (PlayerState.hp (GameState.player a Player1))));
    try lia; cbn [negb fst snd other];
    rewrite ?incr_roundWins_wins; cbn [index_Z Z.eqb];
    rewrite ?Hw; try (split; reflexivity); try (intros j; apply Hw).
Qed.

End Main.

(* ------------------------------------------------------------------ *)
(** ** The callbacks of [main] on what the server invokes *)

Section Callbacks.
Import ServerNetwork.

(** An action is not, or is, in a list of actions written out. *)
Ltac absent :=
  cbn [app In]; intros F;
  repeat (destruct F as [F|F]; [discriminate F|]); exact F.

Ltac present := cbn [app In]; auto 10.

(** X30.  What the events do to the variables of [main].  A connection
    that completes the pair starts the match on the state [ResetMatch]
    returns, whatever the state was; any other connection changes
    nothing.  The disconnection of a player stops the match and leaves
    the state as it is.  An [INPUT] packet of the player of a slot
    replaces the input of that slot by the one decoded from the packet,
    which then stays until the next packet of the slot. *)
Theorem main_reacts_to_events :
  forall (d : Peer -> bool) (s : ServerNetwork.t) (m : ServerMain.t),
    (forall peer,
       let acts := snd (handle d s (CONNECT peer)) in
       let s' := fst (handle d s (CONNECT peer)) in
       (In OnGameStart acts
        <-> HasBothPlayers s' = true /\ ~ In (PeerDisconnect peer) acts)
       /\ (In OnGameStart acts ->
           ServerMain.callbacks m acts
           = ServerMain.mk true (GameState.ResetMatch (ServerMain.gameState m))
                           (ServerMain.playerInputs m))
       /\ (~ In OnGameStart acts -> ServerMain.callbacks m acts = m))
    /\ (forall peer i,
          slot_of s peer = Some i ->
          ServerMain.callbacks m (snd (handle d s (DISCONNECT peer)))
          = ServerMain.mk false (ServerMain.gameState m)
                          (ServerMain.playerInputs m))
    /\ (forall peer i payload,
          slot_of s peer = Some i ->
          ServerMain.callbacks m
            (snd (handle d s (RECEIVE peer (NetPacketType.INPUT :: payload))))
          = with_input m i (InputState.Deserialize InputState.init payload)).
Proof.
  intros d s m. split; [|split].
  - intros peer acts s'. subst acts s'. cbn [handle]. unfold on_connect.
    set (s0 := reap d (reap d s Player0) Player1).
    destruct (find_slot_cases s0 peer)
      as [[_ E]|[(_ & _ & E)|(_ & _ & E)]]; rewrite E; cbn [fst snd].
    + destruct (broadcast_start_cases (set_peer s0 Player0 (Some peer)))
        as [(Hb & a & b & _ & Es)|[Hb Es]]; rewrite Es, Hb.
      * split; [split|split].
        -- intros _. split; [reflexivity|]. absent.
        -- intros _. present.
        -- intros _. reflexivity.
        -- intros F. elim F. present.
      * split; [split|split].
        -- intros F. exfalso. revert F. absent.
        -- intros [F _]. discriminate F.
        -- intros F. exfalso. revert F. absent.
        -- intros _. reflexivity.
    + destruct (broadcast_start_cases (set_peer s0 Player1 (Some peer)))
        as [(Hb & a & b & _ & Es)|[Hb Es]]; rewrite Es, Hb.
      * split; [split|split].
        -- intros _. split; [reflexivity|]. absent.
        -- intros _. present.
        -- intros _. reflexivity.
        -- intros F. elim F. present.
      * split; [split|split].
        -- intros F. exfalso. revert F. absent.
        -- intros [F _]. discriminate F.
        -- intros F. exfalso. revert F. absent.
        -- intros _. reflexivity.
    + split; [split|split].
      * intros F. exfalso. revert F. absent.
      * intros [_ F]. elim F. present.
      * intros F. exfalso. revert F. absent.
      * intros _. reflexivity.
  - intros peer i E. cbn [handle]. unfold on_disconnect. now rewrite E.
  - intros peer i payload E. cbn [handle].
    rewrite (ProcessPacket_INPUT s peer i payload E). cbn [snd].
    destruct i; reflexivity.
Qed.

End Callbacks.

(* ------------------------------------------------------------------ *)
(** ** The further properties at concrete inputs *)

Section MoreExamples.
Import GameSimulation.

(** X2 at the bytes of [one_shot]: they are all read, and give back a
    state with one projectile. *)
Lemma Deserialize_reads_what_the_count_announces_witness :
  (bytes_read (GameState.Serialize one_shot)
   <= List.length (GameState.Serialize one_shot))%nat
  /\ exists s,
       GameState.decode (GameState.Serialize one_shot) = Some s
       /\ List.length (GameState.projectiles s) = 1%nat.
Proof.
  assert (Hl : (bytes_read (GameState.Serialize one_shot)
                <= List.length (GameState.Serialize one_shot))%nat)
    by (vm_compute; repeat constructor).
  split; [exact Hl|].
  destruct (Deserialize_reads_what_the_count_announces
              (GameState.Serialize one_shot)) as [Hok _].
  destruct (Hok Hl) as (s & Es & En & _).
  exists s. split; [exact Es|]. rewrite En. vm_compute. reflexivity.
Defined.

(** X6 at [five_bytes]: the fire flag comes out set. *)
Lemma Deserialize_five_to_seven_bytes_witness :
  (List.length (@nil Z) < 3)%nat
  /\ InputState.Deserialize InputState.init five_bytes
     = InputState.mk (Bytes.to_f32 [0; 0; 128; 63]) F32.zero true 0.
Proof.
  assert (Hl : (List.length (@nil Z) < 3)%nat) by (cbn; lia).
  split; [exact Hl|].
  exact (Deserialize_five_to_seven_bytes InputState.init 0 0 128 63 1 [] Hl).
Defined.

(** X10 without a gamepad, at player 0 of the start of a match. *)
Lemma stick_at_rest_does_not_move_witness :
  in_arena (glm.x (PlayerState.position (GameState.player fresh_round Player0)))
  = true
  /\ in_arena
       (glm.z (PlayerState.position (GameState.player fresh_round Player0)))
     = true
  /\ PlayerState.position
       (@UpdatePlayer flat_math GameSimulation.init
          (GameState.player fresh_round Player0)
          (GetInputStateFromGamepad None 5 default_deadzone) Player0)
     = PlayerState.position (GameState.player fresh_round Player0).
Proof.
  assert (Hx : in_arena (glm.x (PlayerState.position
                                  (GameState.player fresh_round Player0)))
               = true) by (vm_compute; reflexivity).
  assert (Hz : in_arena (glm.z (PlayerState.position
                                  (GameState.player fresh_round Player0)))
               = true) by (vm_compute; reflexivity).
  split; [exact Hx|]. split; [exact Hz|].
  refine (proj2 (proj2 (proj2
            (@stick_at_rest_does_not_move flat_math None 5 default_deadzone
               GameSimulation.init (GameState.player fresh_round Player0)
               Player0 _ Hx Hz)))).
  intros st E. discriminate E.
Defined.

(** X11 at player 0 of the start of a match: it can shoot, and
    [SpawnProjectile] appends a projectile. *)
Lemma CanShoot_agrees_with_SpawnProjectile_witness :
  F32.is_nan
    (PlayerState.projectileCooldown (GameState.player fresh_round Player0))
  = false
  /\ CanShoot (GameState.player fresh_round Player0) = true
  /\ exists proj,
       GameState.projectiles (@SpawnProjectile flat_math fresh_round Player0)
       = GameState.projectiles fresh_round ++ [proj].
Proof.
  split; [reflexivity|]. split; [reflexivity|].
  exact (proj1 (proj1 (@CanShoot_agrees_with_SpawnProjectile flat_math
                         fresh_round Player0) eq_refl) eq_refl).
Defined.

(** X15 at three calls from the start of a match: the timer is above
    zero. *)
Lemma round_times_out_after_5940_ticks_witness :
  GameState.roundTimer fresh_round = GameConstants.ROUND_TIME
  /\ (List.length (repeat (idle, idle) 3) < round_ticks)%nat
  /\ F32.gtb
       (GameState.roundTimer
          (snd (@run flat_math GameSimulation.init fresh_round
                  (repeat (idle, idle) 3))))
       F32.zero = true.
Proof.
  assert (Hl : (List.length (repeat (idle, idle) 3) < round_ticks)%nat)
    by (apply Nat.ltb_lt; vm_compute; reflexivity).
  split; [reflexivity|]. split; [exact Hl|].
  destruct (@round_times_out_after_5940_ticks flat_math GameSimulation.init
              fresh_round (repeat (idle, idle) 3)) as (_ & _ & H).
  exact (proj1 (H eq_refl) Hl).
Defined.

(** X16 at [just_fired]: player 0 cannot shoot after 29 calls and can
    after 30. *)
Lemma shot_cools_down_in_30_ticks_witness :
  PlayerState.projectileCooldown (GameState.player just_fired Player0)
  = GameConstants.PROJECTILE_COOLDOWN
  /\ CanShoot
       (GameState.player
          (snd (@run flat_math GameSimulation.init just_fired
                  (repeat (idle, idle) 29))) Player0) = false
  /\ CanShoot
       (GameState.player
          (snd (@run flat_math GameSimulation.init just_fired
                  (repeat (idle, idle) 30))) Player0) = true.
Proof.
  assert (Ec : PlayerState.projectileCooldown
                 (GameState.player just_fired Player0)
               = GameConstants.PROJECTILE_COOLDOWN) by (vm_compute; reflexivity).
  split; [exact Ec|]. split.
  - rewrite (@shot_cools_down_in_30_ticks flat_math GameSimulation.init
               just_fired (repeat (idle, idle) 29) Player0 Ec);
      vm_compute; reflexivity.
  - rewrite (@shot_cools_down_in_30_ticks flat_math GameSimulation.init
               just_fired (repeat (idle, idle) 30) Player0 Ec);
      vm_compute; reflexivity.
Defined.


(** X18 at a packet of peer 8, that holds no slot of [one_peer]. *)
Lemma server_drops_what_it_cannot_use_witness :
  ServerNetwork.slot_of one_peer 8%nat = None
  /\ ServerNetwork.ProcessPacket one_peer 8%nat
       (NetPacketType.INPUT :: InputState.Serialize eastward)
     = (one_peer, []).
Proof.
  assert (E : ServerNetwork.slot_of one_peer 8%nat = None) by reflexivity.
  split; [exact E|].
  apply server_drops_what_it_cannot_use. right. left. exact E.
Defined.

(** X19 at two packets of peer 7 on [one_peer]: the input that was
    pending comes out first, then the two of the packets. *)
Lemma pending_inputs_are_first_in_first_out_witness :
  ServerNetwork.slot_of one_peer 7%nat = Some Player0
  /\ (let s1 :=
        receive one_peer 7%nat
          (map (cons NetPacketType.INPUT)
               [InputState.Serialize eastward; InputState.Serialize idle]) in
      let q :=
        ServerNetwork.queue_at one_peer Player0
        ++ map (InputState.Deserialize InputState.init)
               [InputState.Serialize eastward; InputState.Serialize idle] in
      let '(handed, s2) := drain (List.length q) s1 (index_Z Player0) in
      ServerNetwork.queue_at s1 Player0 = q
      /\ handed = q
      /\ (forall out,
            ServerNetwork.GetPendingInput s2 (index_Z Player0) out
            = (false, out, s2))
      /\ ServerNetwork.queue_at s2 (other Player0)
         = ServerNetwork.queue_at one_peer (other Player0)
      /\ ServerNetwork.peers s2 = ServerNetwork.peers one_peer).
Proof.
  assert (E : ServerNetwork.slot_of one_peer 7%nat = Some Player0)
    by reflexivity.
  split; [exact E|].
  exact (pending_inputs_are_first_in_first_out one_peer 7%nat Player0
           [InputState.Serialize eastward; InputState.Serialize idle] E).
Defined.

(** X20 at the index 2. *)
Lemma GetPendingInput_refuses_witness :
  1 < 2
  /\ ServerNetwork.GetPendingInput one_peer 2 idle = (false, idle, one_peer).
Proof.
  assert (H : 1 < 2) by lia.
  split; [exact H|].
  apply GetPendingInput_refuses. right. left. exact H.
Defined.

(** X21 at [sample_input], sent by [connected_client] and received from
    peer 7 by [one_peer]. *)
Lemma input_reaches_the_server_witness :
  ClientNetwork.state connected_client = CONNECTED
  /\ ClientNetwork.peer connected_client = Some 3%nat
  /\ wf_input sample_input = true
  /\ ServerNetwork.slot_of one_peer 7%nat = Some Player0
  /\ exists packet,
       ClientNetwork.SendInput connected_client sample_input
       = [ClientNetwork.Send 3%nat packet]
       /\ ServerNetwork.ProcessPacket one_peer 7%nat packet
          = (ServerNetwork.set_queue one_peer Player0
               (ServerNetwork.queue_at one_peer Player0 ++ [sample_input]),
             [ServerNetwork.OnInputReceived sample_input (index_Z Player0)]).
Proof.
  assert (Hw : wf_input sample_input = true) by (vm_compute; reflexivity).
  split; [reflexivity|]. split; [reflexivity|]. split; [exact Hw|].
  split; [reflexivity|].
  exact (input_reaches_the_server connected_client 3%nat sample_input
           one_peer 7%nat Player0 eq_refl eq_refl Hw eq_refl).
Defined.

(** X22 at [one_shot], sent by [serving]: the packet goes to peer 7, and
    a client that reads it is handed [one_shot]. *)
Lemma game_state_reaches_the_clients_witness :
  ServerNetwork.state serving = CONNECTED
  /\ wf_state one_shot = true
  /\ Z.of_nat (List.length (GameState.projectiles one_shot)) <= 65535
  /\ In (ServerNetwork.Send 7%nat
           (NetPacketType.GAME_STATE :: GameState.Serialize one_shot))
        (ServerNetwork.SendGameState serving one_shot)
  /\ ClientNetwork.ProcessPacket connected_client
       (NetPacketType.GAME_STATE :: GameState.Serialize one_shot)
     = Some (connected_client, [ClientNetwork.OnGameStateReceived one_shot]).
Proof.
  assert (Hw : wf_state one_shot = true) by (vm_compute; reflexivity).
  assert (Hl : Z.of_nat (List.length (GameState.projectiles one_shot)) <= 65535)
    by (vm_compute; discriminate).
  split; [reflexivity|]. split; [exact Hw|]. split; [exact Hl|].
  destruct (proj2 (game_state_reaches_the_clients serving one_shot) eq_refl)
    as [Hin Hc].
  split.
  - apply Hin. now exists Player0, 7%nat.
  - exact (Hc Hw Hl connected_client).
Defined.

(** X23 at the connection of peer 9 to [one_peer]: it is given slot 1,
    and the client that reads the packet takes 1 as its index. *)
Lemma join_and_start_reach_the_client_witness :
  In (ServerNetwork.Send 9%nat [NetPacketType.PLAYER_JOINED; 1])
     (snd (ServerNetwork.on_connect all_live one_peer 9%nat))
  /\ ClientNetwork.ProcessPacket connected_client
       [NetPacketType.PLAYER_JOINED; 1]
     = Some (ClientNetwork.mk true (Some 3%nat) CONNECTED 1,
             [ClientNetwork.OnPlayerJoined 1]).
Proof.
  assert (Hin : In (ServerNetwork.Send 9%nat [NetPacketType.PLAYER_JOINED; 1])
                   (snd (ServerNetwork.on_connect all_live one_peer 9%nat)))
    by (left; reflexivity).
  split; [exact Hin|].
  destruct (join_and_start_reach_the_client all_live one_peer 9%nat
              connected_client 9%nat [NetPacketType.PLAYER_JOINED; 1] Hin)
    as [(i & _ & Hi & E)|(_ & _ & E)].
  - destruct i; [vm_compute in Hi; discriminate Hi|].
    rewrite E. reflexivity.
  - vm_compute in E. discriminate E.
Defined.

(** X25 at [one_peer]: peer 7 leaves, peer 9 is given slot 0 and finds
    the input that was pending for peer 7. *)
Lemma disconnect_keeps_pending_inputs_witness :
  ServerNetwork.slot_of one_peer 7%nat = Some Player0
  /\ (let s1 :=
        fst (ServerNetwork.handle all_live one_peer
               (ServerNetwork.DISCONNECT 7%nat)) in
      let s2 :=
        fst (ServerNetwork.handle all_live s1 (ServerNetwork.CONNECT 9%nat)) in
      ServerNetwork.peer_at s2 Player0 = Some 9%nat
      /\ ServerNetwork.queue_at s2 Player0 = [sample_input]).
Proof.
  assert (E : ServerNetwork.slot_of one_peer 7%nat = Some Player0)
    by reflexivity.
  split; [exact E|].
  destruct (disconnect_keeps_pending_inputs all_live all_live one_peer
              7%nat 9%nat Player0 E) as (_ & _ & _ & _ & Eq & Ep).
  split; [exact (Ep eq_refl)|exact Eq].
Defined.


Lemma wins_stay_below_two_witness :
  0 <= wins_of match_on Player0 < 2
  /\ 0 <= wins_of match_on Player1 < 2
  /\ 0 <= wins_of
            (snd (fst (@ServerMain.ticks flat_math 3 GameSimulation.init
                         match_on))) Player0 < 2
  /\ 0 <= wins_of
            (snd (fst (@ServerMain.ticks flat_math 3 GameSimulation.init
                         match_on))) Player1 < 2.
Proof.
  assert (H0 : 0 <= wins_of match_on Player0 < 2)
    by (vm_compute; split; [discriminate|reflexivity]).
  assert (H1 : 0 <= wins_of match_on Player1 < 2)
    by (vm_compute; split; [discriminate|reflexivity]).
  split; [exact H0|]. split; [exact H1|].
  exact (proj1 (@wins_stay_below_two flat_math 3 GameSimulation.init match_on
                  H0 H1)).
Defined.

(** X29 at [double_ko]: both players go down in the tick, [main]
    announces player 1, the player [Update] credited. *)
Lemma announced_winner_is_the_credited_player_witness :
  (forall i,
     F32.valid (PlayerState.hp (GameState.player double_ko i)) = true
     /\ hp_invariant (GameState.player double_ko i) = true)
  /\ Forall (fun p => sound_damage p = true) (GameState.projectiles double_ko)
  /\ snd (ServerMain.round_over (step0 double_ko idle idle)) = Some Player1
  /\ PlayerState.roundWins (GameState.player (step0 double_ko idle idle) Player1)
     = (PlayerState.roundWins (GameState.player double_ko Player1) + 1) mod 256.
Proof.
  assert (Hp : forall i,
            F32.valid (PlayerState.hp (GameState.player double_ko i)) = true
            /\ hp_invariant (GameState.player double_ko i) = true)
    by (intros []; vm_compute; split; reflexivity).
  assert (HQ : Forall (fun p => sound_damage p = true)
                      (GameState.projectiles double_ko))
    by (vm_compute; repeat constructor).
  assert (Ew : snd (ServerMain.round_over (step0 double_ko idle idle))
               = Some Player1) by (vm_compute; reflexivity).
  split; [exact Hp|]. split; [exact HQ|]. split; [exact Ew|].
  pose proof (@announced_winner_is_the_credited_player flat_math
                GameSimulation.init double_ko idle idle Hp HQ) as H.
  cbv zeta in H. fold (step0 double_ko idle idle) in H.
  rewrite Ew in H. exact (proj1 H).
Defined.

End MoreExamples.
